(** * Atomicals Virtual Machine interpreter: a shallow embedding

    The development follows the C++ sources of the AVM interpreter:
    [script/interpreter.cpp] (condition stack, opcode handlers, the
    top-level verifier), [script/script.h] and [script/script.cpp] (script
    parsing), [script/serialize_number.h], [script/script_num.cpp] and
    [big_int.cpp] (numbers), [script/script_execution_context.{h,cpp}]
    (execution and state contexts), [script/script_utils.h] (state hashing)
    and [script/atomicalsconsensus.cpp] (the entry point).

    Machine integers are [Z] with their wrap-around written out, byte
    strings are [list byte], JSON objects are association lists in
    iteration order, and C++ exceptions are an explicit result type. *)

From Stdlib Require Import ZArith NArith Bool Lia String Ascii DecimalString.
From Stdlib Require Import Strings.Byte List.
Import ListNotations.
Open Scope Z_scope.

Set Implicit Arguments.

(* ================================================================== *)
(** * Part I: definitions *)
(* ================================================================== *)

(** ** Bytes and fixed-width integers *)

Definition valtype := list byte.

Definition b2z (b : byte) : Z := Z.of_N (Byte.to_N b).

Definition z2b (z : Z) : byte :=
  match Byte.of_N (Z.to_N (z mod 256)) with
  | Some b => b
  | None => x00
  end.

Definition u32 (z : Z) : Z := z mod 2 ^ 32.
Definition u64 (z : Z) : Z := z mod 2 ^ 64.

Definition INT_MAX : Z := 2147483647.
Definition INT_MIN : Z := -2147483648.
Definition INT64_MAX : Z := 9223372036854775807.
Definition INT64_MIN : Z := -9223372036854775808.

(** [n] little-endian bytes of [z], as [memcpy] from an integer object
    does on the little-endian targets the sources assume. *)
Fixpoint le_bytes (n : nat) (z : Z) : list byte :=
  match n with
  | O => []
  | S n' => z2b z :: le_bytes n' (z / 256)
  end.

(** Value of a little-endian byte string. *)
Fixpoint le_value (l : list byte) : Z :=
  match l with
  | [] => 0
  | b :: r => b2z b + 256 * le_value r
  end.

(* ------------------------------------------------------------------ *)
(** ** interpreter.cpp: [ConditionStack] *)

Module ConditionStack.

(** [std::numeric_limits<uint32_t>::max()] *)
Definition NO_FALSE : Z := 4294967295.

Record t : Type := mk {
  m_stack_size : Z;        (* uint32_t *)
  m_first_false_pos : Z    (* uint32_t *)
}.

Definition init : t := mk 0 NO_FALSE.

Definition empty (s : t) : bool := m_stack_size s =? 0.

Definition all_true (s : t) : bool := m_first_false_pos s =? NO_FALSE.

Definition push_back (f : bool) (s : t) : t :=
  let ffp :=
    if (m_first_false_pos s =? NO_FALSE) && negb f
    then m_stack_size s
    else m_first_false_pos s in
  mk (u32 (m_stack_size s + 1)) ffp.

Definition pop_back (s : t) : t :=
  let sz := u32 (m_stack_size s - 1) in
  mk sz (if m_first_false_pos s =? sz then NO_FALSE
         else m_first_false_pos s).

Definition toggle_top (s : t) : t :=
  if m_first_false_pos s =? NO_FALSE then
    mk (m_stack_size s) (u32 (m_stack_size s - 1))
  else if m_first_false_pos s =? u32 (m_stack_size s - 1) then
    mk (m_stack_size s) NO_FALSE
  else s.

(** The operations a script can drive the stack with. *)
Inductive op : Type :=
| Push (b : bool)
| Pop
| Toggle.

Definition step (o : op) (s : t) : t :=
  match o with
  | Push b => push_back b s
  | Pop => pop_back s
  | Toggle => toggle_top s
  end.

Fixpoint run (ops : list op) (s : t) : t :=
  match ops with
  | [] => s
  | o :: r => run r (step o s)
  end.

(** *** The materialized stack of booleans the class comment describes

    "Conceptually it acts like a vector of booleans, one for each level
    of nested IF/THEN/ELSE": index 0 is the bottom, [push_back] appends,
    [toggle_top] "flips the last value". *)
Module Naive.
Definition t := list bool.
Definition init : t := [].
Definition empty (l : t) : bool :=
    match l with [] => true | _ => false end.
Definition all_true (l : t) : bool := forallb (fun b => b) l.
Definition push_back (f : bool) (l : t) : t := l ++ [f].
Definition pop_back (l : t) : t := removelast l.
Definition toggle_top (l : t) : t :=
    removelast l ++ [negb (last l true)].

Definition step (o : op) (l : t) : t :=
    match o with
    | Push b => push_back b l
    | Pop => pop_back l
    | Toggle => toggle_top l
    end.

Fixpoint run (ops : list op) (l : t) : t :=
    match ops with
    | [] => l
    | o :: r => run r (step o l)
    end.


End Naive.






End ConditionStack.

(* ------------------------------------------------------------------ *)
(** ** script_error.h: [enum class ScriptError] *)

Module ScriptError.
Inductive t : Type :=
  | OK | UNKNOWN | EVAL_FALSE | OP_RETURN
  | SCRIPT_SIZE | PUSH_SIZE | OP_COUNT | STACK_SIZE | SIG_COUNT
  | PUBKEY_COUNT | INPUT_SIGCHECKS
  | INVALID_OPERAND_SIZE | INVALID_NUMBER_RANGE | IMPOSSIBLE_ENCODING
  | INVALID_SPLIT_RANGE | INVALID_BIT_COUNT
  | VERIFY | EQUALVERIFY | CHECKMULTISIGVERIFY | CHECKSIGVERIFY
  | CHECKDATASIGVERIFY | NUMEQUALVERIFY
  | BAD_OPCODE | DISABLED_OPCODE | INVALID_STACK_OPERATION
  | INVALID_ALTSTACK_OPERATION | UNBALANCED_CONDITIONAL
  | DIV_BY_ZERO | MOD_BY_ZERO
  | INVALID_BITFIELD_SIZE | INVALID_BIT_RANGE
  | NEGATIVE_LOCKTIME | UNSATISFIED_LOCKTIME
  | SIG_HASHTYPE | SIG_DER | MINIMALDATA | SIG_PUSHONLY | SIG_HIGH_S
  | PUBKEYTYPE | CLEANSTACK | MINIMALIF | SIG_NULLFAIL
  | SIG_BADLENGTH | SIG_NONSCHNORR
  | DISCOURAGE_UPGRADABLE_NOPS
  | ILLEGAL_FORKID | MUST_USE_FORKID
  | SIGCHECKS_LIMIT_EXCEEDED
  | INVALID_NUMBER_RANGE_64_BIT
  | CONTEXT_NOT_PRESENT | LIMITED_CONTEXT_NO_SIBLING_INFO
  | INVALID_TX_INPUT_INDEX | INVALID_TX_OUTPUT_INDEX
  | INVALID_NOP1 | INVALID_NOP2 | INVALID_NOP3 | INVALID_NOP4
  | INVALID_NOP5 | INVALID_NOP6
  | ERROR_COUNT
  | INVALID_ATOMICAL_REF_SIZE
  | INVALID_AVM_STATE_KEY_NOT_FOUND
  | INVALID_AVM_WITHDRAW_FT_AMOUNT
  | INVALID_AVM_WITHDRAW_FT
  | INVALID_AVM_WITHDRAW_FT_OUTPUT_INDEX
  | INVALID_AVM_WITHDRAW_NFT
  | INVALID_AVM_WITHDRAW_NFT_OUTPUT_INDEX
  | INVALID_AVM_INVALID_FT_ITEM_INDEX
  | INVALID_AVM_INVALID_NFT_ITEM_INDEX
  | INVALID_AVM_STATE_KEY_SIZE
  | INVALID_AVM_FT_BALANCE_TYPE
  | INVALID_AVM_NFT_EXISTS_TYPE
  | INVALID_AVM_NFT_ITEM_TYPE
  | INVALID_AVM_FT_ITEM_TYPE
  | INVALID_AVM_FT_COUNT_TYPE
  | INVALID_AVM_NFT_COUNT_TYPE
  | INVALID_AVM_INVALID_BLOCKINFO_ITEM
  | INVALID_AVM_BLOCK_HEADER_SIZE
  | INVALID_AVM_CHECKTXINBLOCK_ERROR
  | INVALID_AVM_TXID_SIZE
  | INVALID_AVM_HASH_FUNC
  | INVALID_AVM_FT_BALANCE_ADD_INVALID
  | INVALID_AVM_NFT_PUT_INVALID
  | INVALID_AVM_AUTH_INVALID_INDEX
  | INVALID_AVM_AUTH_INVALID_NAMESPACE
  | INVALID_AVM_CHECKAUTHSIG
  | INVALID_AVM_CHECKAUTHSIGVERIFY
  | INVALID_AVM_CHECKAUTHSIGNULL
  | SCRIPT_ERR_BIG_INT.
End ScriptError.

(* ------------------------------------------------------------------ *)
(** ** script.h, script.cpp: scripts and their parsing *)

Definition CScript := list byte.

(** [enum opcodetype], the values the modelled functions name. *)
Definition OP_0 : Z := 0x00.
Definition OP_PUSHDATA1 : Z := 0x4c.
Definition OP_PUSHDATA2 : Z := 0x4d.
Definition OP_PUSHDATA4 : Z := 0x4e.
Definition OP_1NEGATE : Z := 0x4f.
Definition OP_1 : Z := 0x51.
Definition OP_16 : Z := 0x60.
Definition OP_RETURN : Z := 0x6a.
Definition OP_CHECKAUTHSIG : Z := 0xc0.
Definition OP_CHECKAUTHSIGVERIFY : Z := 0xc1.

Definition MAX_SCRIPT_ELEMENT_SIZE : Z := 4000.
Definition MAX_SCRIPT_SIZE : Z := 1000000.

(** [script[pc .. pc + n)], used where the source has checked the range. *)
Definition slice (script : CScript) (pc n : nat) : list byte :=
  firstn n (skipn pc script).

(** [GetScriptOp]: the iterator [pc] is an offset into the script; the
    result is [None] where the source returns [false], and otherwise the
    advanced iterator, the opcode and the pushed data.  Every read is
    behind the source's own [end - pc] test. *)
Definition GetScriptOp (script : CScript) (pc : nat)
  : option (nat * Z * valtype) :=
  let end_ := length script in
  if (end_ <=? pc)%nat then None
  else if (end_ - pc <? 1)%nat then None
  else
    let opcode := b2z (nth pc script x00) in
    let pc := S pc in
    if opcode <=? OP_PUSHDATA4 then
      let sized : option (Z * nat) :=
        if opcode <? OP_PUSHDATA1 then Some (opcode, pc)
        else if opcode =? OP_PUSHDATA1 then
          if (end_ - pc <? 1)%nat then None
          else Some (b2z (nth pc script x00), S pc)
        else if opcode =? OP_PUSHDATA2 then
          if (end_ - pc <? 2)%nat then None
          else Some (le_value (slice script pc 2), (pc + 2)%nat)
        else
          if (end_ - pc <? 4)%nat then None
          else Some (le_value (slice script pc 4), (pc + 4)%nat) in
      match sized with
      | None => None
      | Some (nSize, pc) =>
          if Z.of_nat (end_ - pc) <? nSize then None
          else Some ((pc + Z.to_nat nSize)%nat, opcode,
                     slice script pc (Z.to_nat nSize))
      end
    else Some (pc, opcode, []).

(** [CScript::GetOp], both overloads. *)
Definition GetOp (script : CScript) (pc : nat) := GetScriptOp script pc.

(** [CScript::IsPushOnly(pc)]; every successful [GetOp] advances [pc], so
    the loop runs at most [size()] times, which is the fuel given by
    [IsPushOnly]. *)
Fixpoint IsPushOnly_from (fuel : nat) (script : CScript) (pc : nat) : bool :=
  if (length script <=? pc)%nat then true
  else
    match fuel with
    | O => false
    | S fuel' =>
        match GetOp script pc with
        | None => false
        | Some (pc', opcode, _) =>
            if OP_16 <? opcode then false
            else IsPushOnly_from fuel' script pc'
        end
    end.

Definition IsPushOnly (script : CScript) : bool :=
  IsPushOnly_from (length script) script 0.

(** Reads the source performs without a test of the script's size: the
    result records the first offset read past the end. *)
Inductive access (A : Type) : Type :=
| InBounds (a : A)
| OutOfBounds (offset : nat).
Arguments InBounds {A} a.
Arguments OutOfBounds {A} offset.

Definition access_bind {A B} (m : access A) (k : A -> access B)
  : access B :=
  match m with
  | InBounds a => k a
  | OutOfBounds o => OutOfBounds o
  end.

Notation "x <-! m ; k" := (access_bind m (fun x => k))
  (at level 61, m at next level, right associativity).

(** [*(begin() + off)] *)
Definition deref (script : CScript) (off : nat) : access byte :=
  match nth_error script off with
  | Some b => InBounds b
  | None => OutOfBounds off
  end.

(** [CScript::IsUnspendable]: the read of [*begin()] follows [size() > 0]. *)
Definition IsUnspendable (script : CScript) : bool :=
  match script with
  | [] => false
  | b :: _ => b2z b =? OP_RETURN
  end.

(** The short-circuit conjunction of the four marker comparisons. *)
Definition hasSigMarker (script : CScript) : access bool :=
  b1 <-! deref script 1;
  if negb (b2z b1 =? 0x03) then InBounds false else
  b2 <-! deref script 2;
  if negb (b2z b2 =? 0x73) then InBounds false else
  b3 <-! deref script 3;
  if negb (b2z b3 =? 0x69) then InBounds false else
  b4 <-! deref script 4;
  InBounds (b2z b4 =? 0x67).

(** [CScript::IsSigOpReturn(sig)]: [Some sig] is [true] with the output
    parameter assigned, [None] is [false]. *)
Definition IsSigOpReturn (script : CScript) : access (option valtype) :=
  if negb (IsUnspendable script) then InBounds None else
  marker <-! hasSigMarker script;
  if negb marker then InBounds None else
  match GetOp script 5 with
  | Some (_, opcode, item) =>
      if OP_PUSHDATA4 <? opcode then InBounds None
      else InBounds (Some item)
  | None => InBounds None
  end.

(* ------------------------------------------------------------------ *)
(** ** interpreter.cpp: [CastToBool] and the stack macros *)

Fixpoint CastToBool (vch : valtype) : bool :=
  match vch with
  | [] => false
  | b :: r =>
      if Byte.eqb b x00 then CastToBool r
      else
        match r with
        | [] => negb (Byte.eqb b x80)   (* negative zero *)
        | _ => true
        end
  end.

(** The stack is a [std::vector<valtype>]: the top is the last element.
    [stacktop i] is [stack.at(stack.size() + (-i))] for [i >= 1]. *)
Definition stacktop (stack : list valtype) (i : nat) : option valtype :=
  if (length stack <? i)%nat then None
  else nth_error stack (length stack - i).

Definition popstack (stack : list valtype) : list valtype :=
  removelast stack.

Definition vchFalse : valtype := [].
Definition vchTrue : valtype := [x01].

(* ------------------------------------------------------------------ *)
(** ** interpreter.cpp: [VerifyScriptAvm] *)

Section Verifier.
(** [ScriptStateContext], and everything [EvalScript] reads besides the
    stack and the script (flags, checker, execution context). *)
Variable State : Type.

(** What one call of [EvalScript] leaves behind: its return value and
    the objects it writes through references and pointers. *)
Record EvalResult : Type := mkEval {
  ev_ok : bool;
  ev_stack : list valtype;
  ev_state : State;
  ev_serror : ScriptError.t;
  ev_op_num : Z
}.

Variable EvalScript : list valtype -> CScript -> State -> EvalResult.

Record VerifyResult : Type := mkVerify {
  vr_ok : bool;
  vr_serror : ScriptError.t;
  vr_op_num : Z;
  vr_state : State
}.

Definition set_error (st : State) (op_num : Z) (e : ScriptError.t) :=
  mkVerify false e op_num st.

Definition set_success (st : State) (op_num : Z) :=
  mkVerify true ScriptError.OK op_num st.

Definition VerifyScriptAvm (scriptSig scriptPubKey : CScript)
    (stateContext : State) : VerifyResult :=
  if negb (IsPushOnly scriptSig) then
    set_error stateContext 0 ScriptError.SIG_PUSHONLY
  else
    let r1 := EvalScript [] scriptSig stateContext in
    if negb (ev_ok r1) then
      mkVerify false (ev_serror r1) (ev_op_num r1) (ev_state r1)
    else
      let r2 := EvalScript (ev_stack r1) scriptPubKey (ev_state r1) in
      if negb (ev_ok r2) then
        set_error (ev_state r2) (ev_op_num r2) (ev_serror r2)
      else
        let stack := ev_stack r2 in
        match stack with
        | [] => set_error (ev_state r2) (ev_op_num r2)
                  ScriptError.EVAL_FALSE
        | _ =>
            if negb (CastToBool (last stack []))
            then set_error (ev_state r2) (ev_op_num r2)
                   ScriptError.EVAL_FALSE
            else if negb (length stack =? 1)%nat
            then set_error (ev_state r2) (ev_op_num r2)
                   ScriptError.CLEANSTACK
            else set_success (ev_state r2) (ev_op_num r2)
        end.
End Verifier.

(** The second evaluation of a run: the locking script on the stack and
    state the unlocking script left. *)
Definition eval_lock {State} (EvalScript : list valtype -> CScript -> State
                                           -> EvalResult State)
    (scriptSig scriptPubKey : CScript) (st : State) : EvalResult State :=
  let r1 := EvalScript [] scriptSig st in
  EvalScript (ev_stack r1) scriptPubKey (ev_state r1).

(** An evaluator to run the verifier on: a non-empty script pushes its
    own bytes as one element. *)
Definition sample_eval (stack : list valtype) (script : CScript) (st : unit)
  : EvalResult unit :=
  mkEval true
    (match script with [] => stack | _ => stack ++ [script] end)
    st ScriptError.OK 0.

(* ------------------------------------------------------------------ *)
(** ** C++ exceptions *)

Inductive exception : Type :=
| ScriptnumOverflowException
| ScriptnumMinimalEncodingException
| BigIntException
| NullBignum                 (* a [bigint] whose [BN_mpi2bn] failed *)
| JsonTypeError              (* nlohmann::json type_error *)
| StateValidationTokenNftBalanceFormatError
| UnexpectedStateKeyTypeError
| Uint288SizeAssertion       (* a [uint288] from other than 36 bytes *)
| RuntimeError.              (* std::runtime_error, [vector::at] *)

Inductive result (A : Type) : Type :=
| Ok (a : A)
| Throw (e : exception).
Arguments Ok {A} a.
Arguments Throw {A} e.

Definition bind {A B} (m : result A) (k : A -> result B) : result B :=
  match m with
  | Ok a => k a
  | Throw e => Throw e
  end.

Notation "x <-- m ;; k" := (bind m (fun x => k))
  (at level 61, m at next level, right associativity).

(* ------------------------------------------------------------------ *)
(** ** serialize_number.h *)

(** [avm::abs(int64_t)]: the magnitude as a [uint64_t]. *)
Definition avm_abs (num : Z) : Z :=
  if num <? 0 then u64 (- u64 num) else u64 num.

(** The [while (absoluteValue != 0)] loop of [avm::serialize]; a
    [uint64_t] is exhausted after 8 shifts by 8. *)
Fixpoint serialize_loop (fuel : nat) (negative : bool) (absoluteValue : Z)
  : list byte :=
  match fuel with
  | O => []
  | S fuel' =>
      if absoluteValue =? 0 then []
      else
        let tmp := Z.land absoluteValue 0xff in
        let absoluteValue := Z.shiftr absoluteValue 8 in
        if negb (absoluteValue =? 0) then
          z2b tmp :: serialize_loop fuel' negative absoluteValue
        else if negb (Z.land tmp 0x80 =? 0) then
          [z2b tmp; if negative then x80 else x00]
        else
          [z2b (if negative then Z.lor tmp 0x80 else tmp)]
  end.

(** [avm::serialize<int64_t>] *)
Definition serialize_int64 (value : Z) : list byte :=
  if value =? 0 then []
  else serialize_loop 8 (value <? 0) (avm_abs value).

(** [avm::IsMinimallyEncoded] *)
Definition IsMinimallyEncoded (span : list byte) (nMaxNumSize : Z) : bool :=
  let size := length span in
  if nMaxNumSize <? Z.of_nat size then false
  else if (0 <? size)%nat then
    if Z.land (b2z (last span x00)) 0x7f =? 0 then
      if (size <=? 1)%nat
         || (Z.land (b2z (nth (size - 2) span x00)) 0x80 =? 0)
      then false else true
    else true
  else true.

(* ------------------------------------------------------------------ *)
(** ** big_int.cpp: [avm::bigint] over OpenSSL's BIGNUM

    A [bigint] is its integer value.  The BIGNUM functions are those of
    OpenSSL, which is not part of the sources; they are written after
    OpenSSL's manual: the MPI format is "the number's length in bytes
    represented as a 4-byte big-endian number, and the number itself in
    big-endian format, where the most significant bit signals a negative
    number (the representation of numbers with the MSB set is prefixed
    with null byte)". *)

Definition be_value (l : list byte) : Z := le_value (rev l).

Definition BN_num_bits (a : Z) : Z :=
  if a =? 0 then 0 else Z.log2 (Z.abs a) + 1.

Definition BN_num_bytes (a : Z) : Z := (BN_num_bits a + 7) / 8.

(** Big-endian magnitude in [BN_num_bytes] bytes. *)
Definition BN_bn2bin (a : Z) : list byte :=
  rev (le_bytes (Z.to_nat (BN_num_bytes a)) (Z.abs a)).

(** [d[0] |= m] *)
Definition or_first (m : Z) (d : list byte) : list byte :=
  match d with
  | [] => []
  | b :: r => z2b (Z.lor (b2z b) m) :: r
  end.

Definition BN_bn2mpi (a : Z) : list byte :=
  let bits := BN_num_bits a in
  let num := (bits + 7) / 8 in
  let ext := (0 <? bits) && (Z.land bits 7 =? 0) in
  let l := num + (if ext then 1 else 0) in
  let body := (if ext then [x00] else []) ++ BN_bn2bin a in
  rev (le_bytes 4 l) ++ (if a <? 0 then or_first 0x80 body else body).

Definition BN_mpi2bn (d : list byte) : option Z :=
  if (length d <? 4)%nat then None
  else if negb (Z.land (b2z (nth 0 d x00)) 0x80 =? 0) then None
  else
    let len := be_value (firstn 4 d) in
    if negb (len + 4 =? Z.of_nat (length d)) then None
    else if len =? 0 then Some 0
    else
      let body := skipn 4 d in
      let neg := negb (Z.land (b2z (nth 0 body x00)) 0x80 =? 0) in
      let a := be_value body in
      Some (if neg then - Z.clearbit a (BN_num_bits a - 1) else a).

(** [bigint::serialize]: the MPI without its length, reversed. *)
Definition bigint_serialize (n : Z) : list byte :=
  rev (skipn 4 (BN_bn2mpi n)).

(** [bigint::deserialize]: [None] is the null [BIGNUM*]. *)
Definition bigint_deserialize (s : list byte) : option Z :=
  let size := Z.of_nat (length s) in
  let tmp :=
    [z2b (Z.land (Z.shiftr size 24) 0xff);
     z2b (Z.land (Z.shiftr size 16) 0xff);
     z2b (Z.land (Z.shiftr size 8) 0xff);
     z2b (Z.land (Z.shiftr size 0) 0xff)] ++ rev s in
  BN_mpi2bn tmp.

(* ------------------------------------------------------------------ *)
(** ** script_num.h, script_num.cpp: [CScriptNum] *)

(** [std::variant<int64_t, avm::bigint>] *)
Inductive CScriptNum : Type :=
| SmallNum (n : Z)     (* index 0: int64_t *)
| BigNum (n : Z).      (* index 1: avm::bigint *)

Definition MAXIMUM_ITEM_SIZE : Z := 100000.

(** [CScriptNum(Span<const uint8_t>, size_t nMaxNumSize)] *)
Definition CScriptNum_of_bytes (span : list byte) (nMaxNumSize : Z)
  : result CScriptNum :=
  if nMaxNumSize <? Z.of_nat (length span) then
    Throw ScriptnumOverflowException
  else if negb (IsMinimallyEncoded span nMaxNumSize) then
    Throw ScriptnumMinimalEncodingException
  else
    match span with
    | [] => Ok (BigNum 0)
    | _ =>
        match bigint_deserialize span with
        | Some n => Ok (BigNum n)
        | None => Throw NullBignum
        end
    end.

(** [operator==(const CScriptNum&, const CScriptNum&)]: same index
    compares the alternatives, mixed indices compare through [bigint]. *)
Definition CScriptNum_eqb (a b : CScriptNum) : bool :=
  match a, b with
  | SmallNum x, SmallNum y => x =? y
  | BigNum x, BigNum y => x =? y
  | SmallNum x, BigNum y => x =? y
  | BigNum x, SmallNum y => x =? y
  end.

(** [CScriptNum::getint] *)
Definition getint (n : CScriptNum) : Z :=
  match n with
  | BigNum n | SmallNum n =>
      if INT_MAX <? n then INT_MAX
      else if n <? INT_MIN then INT_MIN
      else n
  end.

(** [CScriptNum::getvch] *)
Definition getvch (n : CScriptNum) : list byte :=
  match n with
  | BigNum n => bigint_serialize n
  | SmallNum n => serialize_int64 n
  end.

(** The values a [CScriptNum] alternative can hold. *)
Definition in_int64 (n : CScriptNum) : Prop :=
  match n with
  | SmallNum z => INT64_MIN <= z <= INT64_MAX
  | BigNum _ => True
  end.

(* ------------------------------------------------------------------ *)
(** ** The number format of the design (section 3)

    "Empty bytes are 0; otherwise little-endian magnitude; the sign bit is
    bit 7 of the most-significant byte (the last byte)", with no more
    bytes than the magnitude and the sign bit need. *)

(** Index of the most significant non-zero byte of [a > 0]. *)
Definition top_index (a : Z) : Z := Z.log2 a / 8.


(** The top byte [t] of the magnitude and the sign: a byte of its own
    for the sign when bit 7 of [t] is taken. *)
Definition sign_tail (negative : bool) (t : Z) : list byte :=
  if 128 <=? t then [z2b t; if negative then x80 else x00]
  else [z2b (if negative then t + 128 else t)].

(** The sign-magnitude little-endian form of a number. *)
Definition sign_magnitude_le (n : Z) : list byte :=
  if n =? 0 then []
  else
    let a := Z.abs n in
    let q := top_index a in
    let t := a / 256 ^ q in
    le_bytes (Z.to_nat q) a ++
      sign_tail (n <? 0) t.


(* ------------------------------------------------------------------ *)
(** ** Hex strings *)

Definition hex_char (n : Z) : ascii :=
  match n with
  | 0 => "0" | 1 => "1" | 2 => "2" | 3 => "3" | 4 => "4" | 5 => "5"
  | 6 => "6" | 7 => "7" | 8 => "8" | 9 => "9" | 10 => "a" | 11 => "b"
  | 12 => "c" | 13 => "d" | 14 => "e" | _ => "f"
  end%char.

(** Modelled from the spec: [HexStr] of util/strencodings, which is not
    among the sources; map keys are "lowercase hex strings", two digits
    per byte. *)
Fixpoint HexStr (value : list byte) : string :=
  match value with
  | [] => EmptyString
  | b :: r =>
      String (hex_char (b2z b / 16))
        (String (hex_char (b2z b mod 16)) (HexStr r))
  end.

(** The value of a hex digit, of either case, by its character code. *)
Definition HexDigit (c : ascii) : option Z :=
  let code := Z.of_nat (nat_of_ascii c) in
  if (48 <=? code) && (code <=? 57) then Some (code - 48)
  else if (97 <=? code) && (code <=? 102) then Some (code - 87)
  else if (65 <=? code) && (code <=? 70) then Some (code - 55)
  else None.

(** Modelled from the spec: [ParseHex] of util/strencodings, which is not
    among the sources; the "hex-decoded" bytes of a string, two digits
    per byte, stopping at the first pair that is not hex. *)
Fixpoint ParseHex (s : string) : list byte :=
  match s with
  | String c1 (String c2 r) =>
      match HexDigit c1, HexDigit c2 with
      | Some h, Some l => z2b (16 * h + l) :: ParseHex r
      | _, _ => []
      end
  | _ => []
  end.

(** script_utils.h: [HexStrWith00Null] *)
Definition HexStrWith00Null (value : list byte) : string :=
  match value with
  | [] => "00"%string
  | _ => HexStr value
  end.

(** Modelled from the spec: [atoi] on the decimal keys of the FT withdraw
    map ("parse as u64"); the keys are written by [std::to_string] of an
    output index. *)
Definition digit_value (c : ascii) : option Z :=
  let code := Z.of_nat (nat_of_ascii c) in
  if (48 <=? code) && (code <=? 57) then Some (code - 48) else None.

Fixpoint atoi_from (acc : Z) (s : string) : Z :=
  match s with
  | String c r =>
      match digit_value c with
      | Some d => atoi_from (10 * acc + d) r
      | None => acc
      end
  | EmptyString => acc
  end.

Definition atoi (s : string) : Z := atoi_from 0 s.

(* ------------------------------------------------------------------ *)
(** ** JSON objects *)

(** Modelled from the spec: the [nlohmann::json] class (json.hpp) is not
    among the sources.  An object is the list of its members in iteration
    order, "the insertion order preserved by the input CBOR parse and the
    chronological order of mutations": assignment through [operator[]]
    overwrites a member in place or appends a new one, [erase(key)]
    removes the member. *)
Definition omap (V : Type) : Type := list (string * V).

Fixpoint om_find {V} (k : string) (m : omap V) : option V :=
  match m with
  | [] => None
  | (k', v) :: r => if String.eqb k k' then Some v else om_find k r
  end.

Definition om_contains {V} (k : string) (m : omap V) : bool :=
  match om_find k m with Some _ => true | None => false end.

(** [m[k] = v] *)
Fixpoint om_set {V} (k : string) (v : V) (m : omap V) : omap V :=
  match m with
  | [] => [(k, v)]
  | (k', v') :: r =>
      if String.eqb k k' then (k', v) :: r else (k', v') :: om_set k v r
  end.

(** [m.erase(k)] *)
Definition om_erase {V} (k : string) (m : omap V) : omap V :=
  filter (fun kv => negb (String.eqb k (fst kv))) m.

(** A mutation through the reference [json &node = m[k]]. *)
Definition om_modify {V} (k : string) (f : V -> V) (m : omap V) : omap V :=
  match om_find k m with
  | Some node => om_set k (f node) m
  | None => m
  end.

(** The JSON values the hashing functions test for. *)
#[warnings="-register-all"]
Inductive json : Type :=
| JNull
| JBool (b : bool)
| JUInt (n : Z)          (* number_unsigned *)
| JInt (n : Z)           (* number_integer, signed *)
| JString (s : string)
| JObject (members : list (string * json)).

(* ------------------------------------------------------------------ *)
(** ** script_execution_context.h: the transaction view and the contexts *)

Record COutPoint : Type := {
  outpoint_txid : list byte;      (* 32 bytes *)
  outpoint_n : Z                  (* uint32_t *)
}.

Record CTxIn : Type := {
  prevout : COutPoint;
  scriptSig : CScript;
  nSequence : Z
}.

Record CTxOut : Type := {
  nValue : Z;                     (* Amount, in satoshis: int64_t *)
  scriptPubKey : CScript
}.

Record CTransaction : Type := {
  nVersion : Z;
  vin : list CTxIn;
  vout : list CTxOut;
  nLockTime : Z
}.

Record ScriptExecutionContext : Type := {
  tx : CTransaction;
  _fullScript : list byte;
  _pubKey : list byte
}.

(** Modelled from the spec: [uint288] and its [GetHex] (uint256.h) are not
    among the sources; a token identifier is "fixed 36 bytes" and its map
    key the lowercase hex string of them. *)
Definition uint288 := list byte.

Definition GetHex (id : uint288) : string := HexStr id.

Definition uint288_eqb (a b : uint288) : bool :=
  String.eqb (GetHex a) (GetHex b).

(** [std::map] with key comparison [eqb], as the two withdraw maps use
    it: [insert] leaves an existing entry as it is.  The order of
    iteration ([operator<] of [uint288] is not among the sources) is not
    modelled: new entries go last. *)
Section StdMap.
Variables K V : Type.
Variable eqb : K -> K -> bool.

Fixpoint std_map_find (k : K) (m : list (K * V)) : option V :=
  match m with
  | [] => None
  | (k', v) :: r => if eqb k k' then Some v else std_map_find k r
  end.

Fixpoint std_map_insert (k : K) (v : V) (m : list (K * V)) : list (K * V) :=
  match m with
  | [] => [(k, v)]
  | (k', v') :: r =>
      if eqb k k' then (k', v') :: r else (k', v') :: std_map_insert k v r
  end.

(** [it->second.f()] for the iterator [it = m.find(k)] *)
Fixpoint std_map_modify (k : K) (f : V -> V) (m : list (K * V))
  : list (K * V) :=
  match m with
  | [] => []
  | (k', v') :: r =>
      if eqb k k' then (k', f v') :: r else (k', v') :: std_map_modify k f r
  end.
End StdMap.

(** [class ScriptStateContext].  The constructor accepts the six input
    maps only in the shapes typed here (hex-keyed objects of unsigned
    numbers, of booleans, of objects of hex strings) and starts the
    update and delete maps as empty objects. *)
Record ScriptStateContext : Type := mkState {
  _ftState : omap Z;
  _ftStateIncoming : omap Z;
  _nftState : omap bool;
  _nftStateIncoming : omap bool;
  _contractState : omap (omap string);
  _contractStateUpdates : omap (omap string);
  _contractStateDeletes : omap (omap bool);
  _ftBalancesUpdates : omap Z;
  _nftBalancesUpdates : omap bool;
  _ftAddsSet : list uint288;
  _nftPutsSet : list uint288;
  _ftWithdrawMap : list (uint288 * list (Z * Z));
  _nftWithdrawMap : list (uint288 * Z)
}.

(** The constructor, on validated inputs. *)
Definition ScriptStateContext_new (ftState ftStateIncoming : omap Z)
    (nftState nftStateIncoming : omap bool)
    (contractState : omap (omap string)) : ScriptStateContext :=
  mkState ftState ftStateIncoming nftState nftStateIncoming contractState
    [] [] [] [] [] [] [] [].

(* ------------------------------------------------------------------ *)
(** ** script_execution_context.cpp: the contract state *)

Definition with_kv (st : ScriptStateContext)
    (state updates : omap (omap string)) (deletes : omap (omap bool))
  : ScriptStateContext :=
  mkState (_ftState st) (_ftStateIncoming st) (_nftState st)
    (_nftStateIncoming st) state updates deletes
    (_ftBalancesUpdates st) (_nftBalancesUpdates st)
    (_ftAddsSet st) (_nftPutsSet st) (_ftWithdrawMap st)
    (_nftWithdrawMap st).

Definition with_ft (st : ScriptStateContext) (ftState updates : omap Z)
    (withdraws : list (uint288 * list (Z * Z))) : ScriptStateContext :=
  mkState ftState (_ftStateIncoming st) (_nftState st)
    (_nftStateIncoming st) (_contractState st) (_contractStateUpdates st)
    (_contractStateDeletes st) updates (_nftBalancesUpdates st)
    (_ftAddsSet st) (_nftPutsSet st) withdraws (_nftWithdrawMap st).

Definition with_nft (st : ScriptStateContext) (nftState updates : omap bool)
    (withdraws : list (uint288 * Z)) : ScriptStateContext :=
  mkState (_ftState st) (_ftStateIncoming st) nftState
    (_nftStateIncoming st) (_contractState st) (_contractStateUpdates st)
    (_contractStateDeletes st) (_ftBalancesUpdates st) updates
    (_ftAddsSet st) (_nftPutsSet st) (_ftWithdrawMap st) withdraws.

(** [ensureKeyspaceExists]: the entity with the keyspace node present;
    the returned reference is [om_modify] on its key. *)
Definition ensureKeyspaceExists {V} (entity : omap (omap V))
    (keySpaceStr : string) : omap (omap V) :=
  match om_find keySpaceStr entity with
  | Some _ => entity
  | None => om_set keySpaceStr [] entity
  end.

Definition contractStatePut (keySpace keyName value : list byte)
    (st : ScriptStateContext) : ScriptStateContext :=
  let keySpaceStr := HexStrWith00Null keySpace in
  let keyNameStr := HexStrWith00Null keyName in
  let valueStr := HexStrWith00Null value in
  let state := ensureKeyspaceExists (_contractState st) keySpaceStr in
  let updates := ensureKeyspaceExists (_contractStateUpdates st) keySpaceStr in
  let deletes := ensureKeyspaceExists (_contractStateDeletes st) keySpaceStr in
  with_kv st
    (om_modify keySpaceStr (om_set keyNameStr valueStr) state)
    (om_modify keySpaceStr (om_set keyNameStr valueStr) updates)
    (om_modify keySpaceStr (om_erase keyNameStr) deletes).

Definition contractStateDelete (keySpace keyName : list byte)
    (st : ScriptStateContext) : ScriptStateContext :=
  let keySpaceStr := HexStrWith00Null keySpace in
  let keyNameStr := HexStrWith00Null keyName in
  let state := ensureKeyspaceExists (_contractState st) keySpaceStr in
  let updates := ensureKeyspaceExists (_contractStateUpdates st) keySpaceStr in
  let deletes := ensureKeyspaceExists (_contractStateDeletes st) keySpaceStr in
  with_kv st
    (om_modify keySpaceStr (om_erase keyNameStr) state)
    (om_modify keySpaceStr (om_erase keyNameStr) updates)
    (om_modify keySpaceStr (om_set keyNameStr true) deletes).

(** [contractStateGet]: the return value and the output vector [value],
    to which the bytes are appended. *)
Definition contractStateGet (keySpace keyName : list byte)
    (value : list byte) (st : ScriptStateContext) : bool * list byte :=
  match om_find (HexStr keySpace) (_contractState st) with
  | None => (false, value)
  | Some keyspaceNode =>
      match om_find (HexStr keyName) keyspaceNode with
      | Some keyValue => (true, value ++ ParseHex keyValue)
      | None => (false, value)
      end
  end.

Definition contractStateExists (keySpace keyName : list byte)
    (st : ScriptStateContext) : bool :=
  match om_find (HexStr keySpace) (_contractState st) with
  | None => false
  | Some keyspaceNode => om_contains (HexStr keyName) keyspaceNode
  end.

(** [cleanupKeyspaces]: [erase(key)] for every member, of the object as
    the loop meets it, whose value is an empty object.  The source erases
    inside the range-for over [entity.items()], the member the loop
    stands on; here the loop runs over the members as they were when it
    began, the "vector" that the Todo of the two functions below asks
    for, so that every such member is erased. *)
Definition cleanupKeyspaces {V} (entity : omap (omap V)) : omap (omap V) :=
  fold_left
    (fun (e : omap (omap V)) (kv : string * omap V) =>
       match snd kv with
       | [] => om_erase (fst kv) e
       | _ => e
       end)
    entity entity.

(** [cleanupEmptyFtTokenBalance] and [cleanupEmptyNftTokenBalance]: the
    same loop, for a zero balance and for a [false] entry. *)
Definition cleanupEmptyFtTokenBalance (entity : omap Z) : omap Z :=
  fold_left
    (fun (e : omap Z) (kv : string * Z) =>
       if snd kv =? 0 then om_erase (fst kv) e else e)
    entity entity.

Definition cleanupEmptyNftTokenBalance (entity : omap bool) : omap bool :=
  fold_left
    (fun (e : omap bool) (kv : string * bool) =>
       if negb (snd kv) then om_erase (fst kv) e else e)
    entity entity.

Definition cleanupStateAndBalances (st : ScriptStateContext)
  : ScriptStateContext :=
  mkState (cleanupEmptyFtTokenBalance (_ftState st)) (_ftStateIncoming st)
    (cleanupEmptyNftTokenBalance (_nftState st)) (_nftStateIncoming st)
    (cleanupKeyspaces (_contractState st))
    (cleanupKeyspaces (_contractStateUpdates st))
    (cleanupKeyspaces (_contractStateDeletes st))
    (_ftBalancesUpdates st) (_nftBalancesUpdates st)
    (_ftAddsSet st) (_nftPutsSet st) (_ftWithdrawMap st)
    (_nftWithdrawMap st).

(** [contractWithdrawFt(ftId, index, withdrawAmount)]; [withdrawAmount]
    is a [uint64_t]. *)
Definition contractWithdrawFt (ftId : uint288) (index withdrawAmount : Z)
    (st : ScriptStateContext) : bool * ScriptStateContext :=
  if withdrawAmount <=? 0 then (false, st)
  else
    let ftIdStr := GetHex ftId in
    match om_find ftIdStr (_ftState st) with
    | None => (false, st)
    | Some availableBalance =>
        if availableBalance <? withdrawAmount then (false, st)
        else
          let updatedBalance := availableBalance - withdrawAmount in
          let ftState :=
            if updatedBalance =? 0 then om_erase ftIdStr (_ftState st)
            else om_set ftIdStr updatedBalance (_ftState st) in
          let updates :=
            om_set ftIdStr updatedBalance (_ftBalancesUpdates st) in
          let withdraws :=
            match std_map_find uint288_eqb ftId (_ftWithdrawMap st) with
            | None => std_map_insert uint288_eqb ftId [] (_ftWithdrawMap st)
            | Some _ => _ftWithdrawMap st
            end in
          let withdraws :=
            std_map_modify uint288_eqb ftId
              (std_map_insert Z.eqb index withdrawAmount) withdraws in
          (true, with_ft st ftState updates withdraws)
    end.

Definition contractWithdrawNft (nftId : uint288) (index : Z)
    (st : ScriptStateContext) : bool * ScriptStateContext :=
  let nftIdStr := GetHex nftId in
  if negb (om_contains nftIdStr (_nftState st)) then (false, st)
  else
    (true,
     with_nft st
       (om_erase nftIdStr (_nftState st))
       (om_set nftIdStr false (_nftBalancesUpdates st))
       (std_map_insert uint288_eqb nftId index (_nftWithdrawMap st))).

(* ------------------------------------------------------------------ *)
(** ** interpreter.cpp: the handlers of the AVM state opcodes *)

(** What a [case] of [EvalScript]'s switch does: go on with the next
    opcode on the new stack and state, or return an error; [Uncaught] is
    an exception neither [catch] clause of [EvalScript] takes. *)
Inductive outcome : Type :=
| Next (stack : list valtype) (st : ScriptStateContext)
| Error (e : ScriptError.t)
| Uncaught (e : exception).

(** The two [catch] clauses at the end of [EvalScript]. *)
Definition EvalScript_catch (r : result outcome) : outcome :=
  match r with
  | Ok o => o
  | Throw BigIntException => Error ScriptError.SCRIPT_ERR_BIG_INT
  | Throw ScriptnumOverflowException
  | Throw ScriptnumMinimalEncodingException
  | Throw JsonTypeError
  | Throw RuntimeError => Error ScriptError.UNKNOWN
  | Throw e => Uncaught e
  end.

(** [stacktop(-i)], which is [stack.at(...)] *)
Definition stacktop_at (stack : list valtype) (i : nat) : result valtype :=
  match stacktop stack i with
  | Some v => Ok v
  | None => Throw RuntimeError
  end.

(** Modelled from the spec: the [uint288] constructor from a byte vector
    (uint256.h) is not among the sources; an "AtomicalRef must be exactly
    36 bytes". *)
Definition uint288_of_vch (vch : valtype) : result uint288 :=
  if (length vch =? 36)%nat then Ok vch else Throw Uint288SizeAssertion.

Definition maxStateKeySize : Z := 1024.

Definition op_KV_PUT (context : option ScriptExecutionContext)
    (stack : list valtype) (stateContext : ScriptStateContext)
  : result outcome :=
  match context with
  | None => Ok (Error ScriptError.CONTEXT_NOT_PRESENT)
  | Some _ =>
      if (length stack <? 3)%nat then
        Ok (Error ScriptError.INVALID_STACK_OPERATION)
      else
        vch1 <-- stacktop_at stack 3 ;;
        vch2 <-- stacktop_at stack 2 ;;
        vch3 <-- stacktop_at stack 1 ;;
        if maxStateKeySize <? Z.of_nat (length vch1) then
          Ok (Error ScriptError.INVALID_AVM_STATE_KEY_SIZE)
        else if maxStateKeySize <? Z.of_nat (length vch2) then
          Ok (Error ScriptError.INVALID_AVM_STATE_KEY_SIZE)
        else
          Ok (Next (popstack (popstack (popstack stack)))
                (contractStatePut vch1 vch2 vch3 stateContext))
  end.

Definition op_KV_EXISTS (context : option ScriptExecutionContext)
    (stack : list valtype) (stateContext : ScriptStateContext)
  : result outcome :=
  match context with
  | None => Ok (Error ScriptError.CONTEXT_NOT_PRESENT)
  | Some _ =>
      if (length stack <? 2)%nat then
        Ok (Error ScriptError.INVALID_STACK_OPERATION)
      else
        vch1 <-- stacktop_at stack 2 ;;
        vch2 <-- stacktop_at stack 1 ;;
        let doesKeyExist := contractStateExists vch1 vch2 stateContext in
        Ok (Next (popstack (popstack stack)
                    ++ [if doesKeyExist then vchTrue else vchFalse])
              stateContext)
  end.

Definition op_KV_GET (context : option ScriptExecutionContext)
    (stack : list valtype) (stateContext : ScriptStateContext)
  : result outcome :=
  match context with
  | None => Ok (Error ScriptError.CONTEXT_NOT_PRESENT)
  | Some _ =>
      if (length stack <? 2)%nat then
        Ok (Error ScriptError.INVALID_STACK_OPERATION)
      else
        vch1 <-- stacktop_at stack 2 ;;
        vch2 <-- stacktop_at stack 1 ;;
        match contractStateGet vch1 vch2 [] stateContext with
        | (true, valueVec) =>
            Ok (Next (popstack (popstack stack) ++ [valueVec]) stateContext)
        | (false, _) =>
            Ok (Error ScriptError.INVALID_AVM_STATE_KEY_NOT_FOUND)
        end
  end.

Definition op_KV_DELETE (context : option ScriptExecutionContext)
    (stack : list valtype) (stateContext : ScriptStateContext)
  : result outcome :=
  match context with
  | None => Ok (Error ScriptError.CONTEXT_NOT_PRESENT)
  | Some _ =>
      if (length stack <? 2)%nat then
        Ok (Error ScriptError.INVALID_STACK_OPERATION)
      else
        vch1 <-- stacktop_at stack 2 ;;
        vch2 <-- stacktop_at stack 1 ;;
        Ok (Next (popstack (popstack stack))
              (contractStateDelete vch1 vch2 stateContext))
  end.

Definition op_NFT_WITHDRAW (context : option ScriptExecutionContext)
    (stack : list valtype) (stateContext : ScriptStateContext)
  : result outcome :=
  match context with
  | None => Ok (Error ScriptError.CONTEXT_NOT_PRESENT)
  | Some ctx =>
      if (length stack <? 2)%nat then
        Ok (Error ScriptError.INVALID_STACK_OPERATION)
      else
        vch1 <-- stacktop_at stack 2 ;;
        vch2 <-- stacktop_at stack 1 ;;
        if negb (length vch1 =? 36)%nat then
          Ok (Error ScriptError.INVALID_ATOMICAL_REF_SIZE)
        else
          sn <-- CScriptNum_of_bytes vch1 MAXIMUM_ITEM_SIZE ;;
          let index := getint sn in
          if (index <? 0)
             || (Z.of_nat (length (vout (tx ctx))) <=? u64 index) then
            Ok (Error ScriptError.INVALID_AVM_WITHDRAW_NFT_OUTPUT_INDEX)
          else
            atomref <-- uint288_of_vch vch2 ;;
            match contractWithdrawNft atomref (u32 index) stateContext with
            | (false, _) => Ok (Error ScriptError.INVALID_AVM_WITHDRAW_NFT)
            | (true, st) => Ok (Next (popstack (popstack stack)) st)
            end
  end.

Definition op_FT_WITHDRAW (context : option ScriptExecutionContext)
    (stack : list valtype) (stateContext : ScriptStateContext)
  : result outcome :=
  match context with
  | None => Ok (Error ScriptError.CONTEXT_NOT_PRESENT)
  | Some ctx =>
      if (length stack <? 3)%nat then
        Ok (Error ScriptError.INVALID_STACK_OPERATION)
      else
        vch1 <-- stacktop_at stack 3 ;;
        vch2 <-- stacktop_at stack 2 ;;
        vch3 <-- stacktop_at stack 1 ;;
        if negb (length vch3 =? 36)%nat then
          Ok (Error ScriptError.INVALID_ATOMICAL_REF_SIZE)
        else
          sn2 <-- CScriptNum_of_bytes vch2 MAXIMUM_ITEM_SIZE ;;
          let index := getint sn2 in
          if (index <? 0)
             || (Z.of_nat (length (vout (tx ctx))) <=? u64 index) then
            Ok (Error ScriptError.INVALID_AVM_WITHDRAW_FT_OUTPUT_INDEX)
          else
            match nth_error (vout (tx ctx)) (Z.to_nat index) with
            | None => Throw RuntimeError
            | Some output =>
                sn1 <-- CScriptNum_of_bytes vch1 MAXIMUM_ITEM_SIZE ;;
                let withdrawAmount := getint sn1 in
                if (withdrawAmount <=? 0)
                   || (nValue output <? withdrawAmount) then
                  Ok (Error ScriptError.INVALID_AVM_WITHDRAW_FT_AMOUNT)
                else
                  atomref <-- uint288_of_vch vch3 ;;
                  match contractWithdrawFt atomref (u32 index)
                          (u64 withdrawAmount) stateContext with
                  | (false, _) =>
                      Ok (Error ScriptError.INVALID_AVM_WITHDRAW_FT)
                  | (true, st) =>
                      Ok (Next (popstack (popstack (popstack stack))) st)
                  end
            end
  end.

(* ------------------------------------------------------------------ *)
(** ** The key-value store as a set of (keyspace, key) pairs *)

Definition keyspace_node {V} (ks : string) (m : omap (omap V)) : omap V :=
  match om_find ks m with Some node => node | None => [] end.

Definition kv_has {V} (ks kn : string) (m : omap (omap V)) : bool :=
  om_contains kn (keyspace_node ks m).

(** The pairs marked deleted are in neither the state nor the updates. *)
Definition kv_disjoint (st : ScriptStateContext) : Prop :=
  forall ks kn,
    kv_has ks kn (_contractStateDeletes st) = true ->
    kv_has ks kn (_contractState st) = false
    /\ kv_has ks kn (_contractStateUpdates st) = false.

Inductive kv_op : Type :=
| KvPut (keySpace keyName value : list byte)
| KvDelete (keySpace keyName : list byte).

Definition kv_step (o : kv_op) (st : ScriptStateContext) :=
  match o with
  | KvPut ks kn v => contractStatePut ks kn v st
  | KvDelete ks kn => contractStateDelete ks kn st
  end.

Fixpoint kv_run (ops : list kv_op) (st : ScriptStateContext) :=
  match ops with
  | [] => st
  | o :: r => kv_run r (kv_step o st)
  end.


(* ------------------------------------------------------------------ *)
(** ** Sample inputs *)

(** A token identifier, a transaction with one output of 100 satoshis,
    and a state holding 10 units of the token and the token as an NFT. *)
Definition sample_id : uint288 := repeat x11 36.

Definition sample_tx : CTransaction :=
  {| nVersion := 2; vin := [];
     vout := [{| nValue := 100; scriptPubKey := [] |}];
     nLockTime := 0 |}.

Definition sample_context : option ScriptExecutionContext :=
  Some {| tx := sample_tx; _fullScript := []; _pubKey := [] |}.

Definition sample_state : ScriptStateContext :=
  ScriptStateContext_new [(GetHex sample_id, 10)] []
    [(GetHex sample_id, true)] [] [].

(** An output of 5000000000 satoshis and as many units of the token. *)
Definition rich_context : option ScriptExecutionContext :=
  Some {| tx := {| nVersion := 2; vin := [];
                   vout := [{| nValue := 5000000000; scriptPubKey := [] |}];
                   nLockTime := 0 |};
          _fullScript := []; _pubKey := [] |}.

Definition rich_state : ScriptStateContext :=
  ScriptStateContext_new [(GetHex sample_id, 5000000000)] [] [] [] [].

(* ------------------------------------------------------------------ *)
(** ** script_execution_context.cpp: the emitted maps *)

(** The state maps as the JSON values the getters return. *)
Definition json_of_kv (m : omap (omap string)) : json :=
  JObject (map (fun ksn =>
                  (fst ksn,
                   JObject (map (fun kv => (fst kv, JString (snd kv)))
                              (snd ksn)))) m).

Definition json_of_deletes (m : omap (omap bool)) : json :=
  JObject (map (fun ksn =>
                  (fst ksn,
                   JObject (map (fun kv => (fst kv, JBool (snd kv)))
                              (snd ksn)))) m).

(** The numbers of the balance maps are [uint64_t]. *)
Definition json_of_ft (m : omap Z) : json :=
  JObject (map (fun kv => (fst kv, JUInt (u64 (snd kv)))) m).

(** The output indices of the NFT withdraw map are [uint32_t]. *)
Definition json_of_nftWithdraws (m : omap Z) : json :=
  JObject (map (fun kv => (fst kv, JUInt (u32 (snd kv)))) m).

Definition json_of_nft (m : omap bool) : json :=
  JObject (map (fun kv => (fst kv, JBool (snd kv))) m).

(** [std::to_string] of an unsigned number. *)
Definition to_string (n : Z) : string :=
  NilZero.string_of_uint (N.to_uint (Z.to_N n)).

(** [encodeFtWithdrawMap], the body of [getFtWithdrawsResult] *)
Definition getFtWithdrawsResult (st : ScriptStateContext) : omap (omap Z) :=
  fold_left
    (fun (contractFtWithdraws : omap (omap Z))
         (entry : uint288 * list (Z * Z)) =>
       fold_left
         (fun (w : omap (omap Z)) (out : Z * Z) =>
            let tokenIdS := GetHex (fst entry) in
            let w := if negb (om_contains tokenIdS w)
                     then om_set tokenIdS [] w else w in
            om_modify tokenIdS (om_set (to_string (fst out)) (snd out)) w)
         (snd entry) contractFtWithdraws)
    (_ftWithdrawMap st) [].

(** [encodeNftWithdrawMap], the body of [getNftWithdrawsResult] *)
Definition getNftWithdrawsResult (st : ScriptStateContext) : omap Z :=
  fold_left
    (fun (contractNftWithdraws : omap Z) (entry : uint288 * Z) =>
       om_set (GetHex (fst entry)) (snd entry) contractNftWithdraws)
    (_nftWithdrawMap st) [].

Definition json_of_ftWithdraws (m : omap (omap Z)) : json :=
  JObject (map (fun kn => (fst kn, json_of_ft (snd kn))) m).

(* ------------------------------------------------------------------ *)
(** ** script_utils.h: the state hash *)

Definition is_number_integer (j : json) : bool :=
  match j with JUInt _ | JInt _ => true | _ => false end.

Definition json_number (j : json) : Z :=
  match j with JUInt n | JInt n => n | _ => 0 end.

Definition SerializeUint64_t (val : Z) : list byte := le_bytes 8 (u64 val).
Definition SerializeUint32_t (val : Z) : list byte := le_bytes 4 (u32 val).

(** The members [items()] iterates; the functions below are called on
    JSON objects. *)
Definition items (j : json) : list (string * json) :=
  match j with JObject members => members | _ => [] end.

Fixpoint GetStateDataVectorOnlyStrings (stateData : json)
    (resultDataVec : list byte) : result (list byte) :=
  match stateData with
  | JObject members =>
      (fix loop (members : list (string * json)) (acc : list byte)
         : result (list byte) :=
         match members with
         | [] => Ok acc
         | (key, value) :: rest =>
             let acc := acc ++ ParseHex key in
             match value with
             | JString str => loop rest (acc ++ ParseHex str)
             | JObject _ =>
                 acc' <-- GetStateDataVectorOnlyStrings value acc ;;
                 loop rest acc'
             | _ => Throw UnexpectedStateKeyTypeError
             end
         end) members resultDataVec
  | _ => Ok resultDataVec
  end.

Fixpoint StringKeyBooleanValue_loop (members : list (string * json))
    (acc : list byte) : result (list byte) :=
  match members with
  | [] => Ok acc
  | (key, value) :: rest =>
      let acc := acc ++ ParseHex key in
      match value with
      | JBool _ => StringKeyBooleanValue_loop rest acc
      | _ => Throw UnexpectedStateKeyTypeError
      end
  end.

Definition GetStateDataVectorStringKeyBooleanValue (stateData : json)
    (resultDataVec : list byte) : result (list byte) :=
  StringKeyBooleanValue_loop (items stateData) resultDataVec.

Fixpoint StringKeyIntValue_loop (members : list (string * json))
    (acc : list byte) : result (list byte) :=
  match members with
  | [] => Ok acc
  | (key, value) :: rest =>
      let acc := acc ++ ParseHex key in
      if negb (is_number_integer value) || (json_number value <? 0)
      then Throw UnexpectedStateKeyTypeError
      else StringKeyIntValue_loop rest acc
  end.

Definition GetStateDataVectorStringKeyIntValue (stateData : json)
    (resultDataVec : list byte) : result (list byte) :=
  StringKeyIntValue_loop (items stateData) resultDataVec.

Fixpoint NftWithdraws_loop (members : list (string * json))
    (acc : list byte) : result (list byte) :=
  match members with
  | [] => Ok acc
  | (key, value) :: rest =>
      let acc := acc ++ ParseHex key in
      if negb (is_number_integer value) || (json_number value <? 0)
      then Throw UnexpectedStateKeyTypeError
      else NftWithdraws_loop rest
             (acc ++ SerializeUint32_t (json_number value))
  end.

Fixpoint FtWithdraws_inner (members : list (string * json))
    (acc : list byte) : result (list byte) :=
  match members with
  | [] => Ok acc
  | (secondKey, secondValue) :: rest =>
      let secondKeyInt := atoi secondKey in
      let acc := acc ++ SerializeUint64_t secondKeyInt in
      if negb (is_number_integer secondValue)
      then Throw UnexpectedStateKeyTypeError
      else FtWithdraws_inner rest
             (acc ++ SerializeUint64_t (json_number secondValue))
  end.

Fixpoint FtWithdraws_loop (members : list (string * json))
    (acc : list byte) : result (list byte) :=
  match members with
  | [] => Ok acc
  | (key, value) :: rest =>
      acc' <-- FtWithdraws_inner (items value) (acc ++ ParseHex key) ;;
      FtWithdraws_loop rest acc'
  end.

Fixpoint TwoLevelBoolean_inner (members : list (string * json))
    (acc : list byte) : result (list byte) :=
  match members with
  | [] => Ok acc
  | (secondKey, secondValue) :: rest =>
      let acc := acc ++ ParseHex secondKey in
      match secondValue with
      | JBool _ => TwoLevelBoolean_inner rest acc
      | _ => Throw UnexpectedStateKeyTypeError
      end
  end.

Fixpoint TwoLevelBoolean_loop (members : list (string * json))
    (acc : list byte) : result (list byte) :=
  match members with
  | [] => Ok acc
  | (key, value) :: rest =>
      match value with
      | JObject inner =>
          acc' <-- TwoLevelBoolean_inner inner (acc ++ ParseHex key) ;;
          TwoLevelBoolean_loop rest acc'
      | _ => Throw UnexpectedStateKeyTypeError
      end
  end.

Definition GetStateDataVectorOnly2LevelStringKeysBooleanValue
    (stateData : json) (resultDataVec : list byte) : result (list byte) :=
  TwoLevelBoolean_loop (items stateData) resultDataVec.

(** What the verifier writes out after a successful run. *)
Record Emitted : Type := mkEmitted {
  stateFinal : omap (omap string);
  stateUpdates : omap (omap string);
  stateDeletes : omap (omap bool);
  ftBalancesResult : omap Z;
  ftBalancesUpdatesResult : omap Z;
  nftBalancesResult : omap bool;
  nftBalancesUpdatesResult : omap bool;
  ftWithdraws : omap (omap Z);
  nftWithdraws : omap Z;
  stateHash : list byte
}.

Section StateHash.
(** [CSHA256().Write(data).Finalize(hash)]; crypto/sha256 is not among
    the sources. *)
Variable SHA256 : list byte -> list byte.

Definition GetStateDataHashState (data : json) : result (list byte) :=
  vchPreimage <-- GetStateDataVectorOnlyStrings data [] ;;
  Ok (SHA256 vchPreimage).

Definition GetStateDataHashNftBalanceHash (data : json)
  : result (list byte) :=
  vchPreimage <-- GetStateDataVectorStringKeyBooleanValue data [] ;;
  Ok (SHA256 vchPreimage).

Definition GetStateDataHashFtBalanceHash (data : json)
  : result (list byte) :=
  vchPreimage <-- GetStateDataVectorStringKeyIntValue data [] ;;
  Ok (SHA256 vchPreimage).

Definition GetStateDataHashNftWithdraws (data : json)
  : result (list byte) :=
  vchPreimage <-- NftWithdraws_loop (items data) [] ;;
  Ok (SHA256 vchPreimage).

Definition GetStateDataHashFtWithdraws (data : json)
  : result (list byte) :=
  vchPreimage <-- FtWithdraws_loop (items data) [] ;;
  Ok (SHA256 vchPreimage).

Definition GetStateDataHashDeletes (data : json) : result (list byte) :=
  vchPreimage <-- GetStateDataVectorOnly2LevelStringKeysBooleanValue data [] ;;
  Ok (SHA256 vchPreimage).

Definition CalculateStateHash (prevHash : list byte)
    (stateFinal stateUpdates stateDeletes ftIncoming nftIncoming
     ftBalances ftBalancesUpdates nftBalances nftBalancesUpdates
     ftWithdraws nftWithdraws : json) : result (list byte) :=
  let concatData := prevHash in
  stateFinalHash <-- GetStateDataHashState stateFinal ;;
  stateUpdatesHash <-- GetStateDataHashState stateUpdates ;;
  stateDeletesHash <-- GetStateDataHashDeletes stateDeletes ;;
  nftIncomingHash <-- GetStateDataHashNftBalanceHash nftIncoming ;;
  ftIncomingHash <-- GetStateDataHashFtBalanceHash ftIncoming ;;
  nftBalancesHash <-- GetStateDataHashNftBalanceHash nftBalances ;;
  ftBalancesHash <-- GetStateDataHashFtBalanceHash ftBalances ;;
  nftBalancesUpdatesHash <--
    GetStateDataHashNftBalanceHash nftBalancesUpdates ;;
  ftBalancesUpdatesHash <--
    GetStateDataHashFtBalanceHash ftBalancesUpdates ;;
  nftWithdrawHash <-- GetStateDataHashNftWithdraws nftWithdraws ;;
  ftWithdrawHash <-- GetStateDataHashFtWithdraws ftWithdraws ;;
  let concatData := concatData ++ nftIncomingHash in
  let concatData := concatData ++ ftIncomingHash in
  let concatData := concatData ++ stateFinalHash in
  let concatData := concatData ++ stateUpdatesHash in
  let concatData := concatData ++ stateDeletesHash in
  let concatData := concatData ++ nftBalancesHash in
  let concatData := concatData ++ ftBalancesHash in
  let concatData := concatData ++ nftBalancesUpdatesHash in
  let concatData := concatData ++ ftBalancesUpdatesHash in
  let concatData := concatData ++ nftWithdrawHash in
  let concatData := concatData ++ ftWithdrawHash in
  Ok (SHA256 concatData).

(** atomicalsconsensus.cpp: the end of
    [atomicalsconsensus_verify_script_avm], from "Copy the Final contract
    state" on, reached when the script verified and the final state
    passed its validation; [stateContext] is the state after
    [cleanupStateAndBalances]. *)
Definition emit_results (prevStateHash : list byte)
    (ftStateIncoming : omap Z) (nftStateIncoming : omap bool)
    (stateContext : ScriptStateContext) : result Emitted :=
  let stateFinalJson := _contractState stateContext in
  let stateUpdatesJson := _contractStateUpdates stateContext in
  let stateDeletesJson := _contractStateDeletes stateContext in
  let ftBalancesJson := _ftState stateContext in
  let ftBalancesUpdatesJson := _ftBalancesUpdates stateContext in
  let nftBalancesJson := _nftState stateContext in
  let nftBalancesUpdatesJson := _nftBalancesUpdates stateContext in
  let ftWithdrawsJson := getFtWithdrawsResult stateContext in
  let nftWithdrawsJson := getNftWithdrawsResult stateContext in
  updatedStateHash <--
    CalculateStateHash prevStateHash
      (json_of_kv stateFinalJson) (json_of_kv stateUpdatesJson)
      (json_of_deletes stateDeletesJson)
      (json_of_ft ftStateIncoming) (json_of_nft nftStateIncoming)
      (json_of_ft ftBalancesJson) (json_of_ft ftBalancesUpdatesJson)
      (json_of_nft nftBalancesJson) (json_of_nft nftBalancesUpdatesJson)
      (json_of_ftWithdraws ftWithdrawsJson)
      (json_of_nftWithdraws nftWithdrawsJson) ;;
  Ok (mkEmitted stateFinalJson stateUpdatesJson stateDeletesJson
        ftBalancesJson ftBalancesUpdatesJson nftBalancesJson
        nftBalancesUpdatesJson ftWithdrawsJson nftWithdrawsJson
        updatedStateHash).

(** *** The commitment as the design states it (section 6)

    Each inner hash is SHA-256 over a canonical serialization of a map,
    all in iteration order. *)

(** "for each outer key in iteration order, emit raw bytes of the
    hex-decoded keyspace, then recursively for each inner key emit
    hex-decoded keyname then hex-decoded value" *)
Definition kv_serialization (m : omap (omap string)) : list byte :=
  flat_map (fun ksn =>
              ParseHex (fst ksn)
              ++ flat_map (fun kv => ParseHex (fst kv) ++ ParseHex (snd kv))
                   (snd ksn)) m.

(** "same as kv maps but inner values are booleans and contribute no
    bytes (only keys)" *)
Definition kvDeletes_serialization (m : omap (omap bool)) : list byte :=
  flat_map (fun ksn =>
              ParseHex (fst ksn)
              ++ flat_map (fun kv => ParseHex (fst kv)) (snd ksn)) m.

(** "for each hex key, emit hex-decoded id bytes; no value bytes" *)
Definition keys_serialization {V} (m : omap V) : list byte :=
  flat_map (fun kv => ParseHex (fst kv)) m.

(** "hex-decoded id bytes, little-endian u32 of output index" *)
Definition nftWithdraws_serialization (m : omap Z) : list byte :=
  flat_map (fun kv => ParseHex (fst kv) ++ le_bytes 4 (u32 (snd kv))) m.

(** "hex-decoded id bytes, for each inner decimal-string key, parse as
    u64 and emit little-endian u64, little-endian u64 of amount" *)
Definition ftWithdraws_serialization (m : omap (omap Z)) : list byte :=
  flat_map (fun kn =>
              ParseHex (fst kn)
              ++ flat_map (fun out =>
                             le_bytes 8 (u64 (atoi (fst out)))
                             ++ le_bytes 8 (u64 (snd out))) (snd kn)) m.

Definition state_commitment (prevStateHash : list byte)
    (nftIncoming : omap bool) (ftIncoming : omap Z) (e : Emitted)
  : list byte :=
  SHA256 (prevStateHash
          ++ SHA256 (keys_serialization nftIncoming)
          ++ SHA256 (keys_serialization ftIncoming)
          ++ SHA256 (kv_serialization (stateFinal e))
          ++ SHA256 (kv_serialization (stateUpdates e))
          ++ SHA256 (kvDeletes_serialization (stateDeletes e))
          ++ SHA256 (keys_serialization (nftBalancesResult e))
          ++ SHA256 (keys_serialization (ftBalancesResult e))
          ++ SHA256 (keys_serialization (nftBalancesUpdatesResult e))
          ++ SHA256 (keys_serialization (ftBalancesUpdatesResult e))
          ++ SHA256 (nftWithdraws_serialization (nftWithdraws e))
          ++ SHA256 (ftWithdraws_serialization (ftWithdraws e))).
End StateHash.

(* ------------------------------------------------------------------ *)
(** ** The authorization opcodes

    script_execution_context.h: [getAuthPubKey], [getAuthSig],
    [getAuthMessage]; interpreter.cpp: [VerifySignature] and the case
    [OP_CHECKAUTHSIG], [OP_CHECKAUTHSIGVERIFY]. *)

Definition getAuthPubKey (ctx : ScriptExecutionContext) : option valtype :=
  match _pubKey ctx with
  | [] => None
  | pubKey => Some pubKey
  end.

(** The loop of [getAuthSig] over the outputs; [IsSigOpReturn] assigns
    [sig] when it returns [true]. *)
Fixpoint getAuthSig_from (outputs : list CTxOut) : access (option valtype) :=
  match outputs with
  | [] => InBounds None
  | output :: rest =>
      found <-! IsSigOpReturn (scriptPubKey output);
      match found with
      | Some sig => InBounds (Some sig)
      | None => getAuthSig_from rest
      end
  end.

Definition getAuthSig (ctx : ScriptExecutionContext)
  : access (option valtype) :=
  getAuthSig_from (vout (tx ctx)).

Definition writeUint64 (x : Z) : list byte := le_bytes 8 (u64 x).
Definition writeUint32 (x : Z) : list byte := le_bytes 4 (u32 x).

(** The loop of [getAuthMessage] over the outputs: the value goes
    through [CScriptNum::getint], an [int]. *)
Fixpoint getAuthMessage_outputs (outputs : list CTxOut)
  : access (list byte) :=
  match outputs with
  | [] => InBounds []
  | output :: rest =>
      let outputValVec := writeUint64 (getint (SmallNum (nValue output))) in
      found <-! IsSigOpReturn (scriptPubKey output);
      tail <-! getAuthMessage_outputs rest;
      InBounds
        (match found with
         | None => outputValVec ++ scriptPubKey output
         | Some _ => []
         end ++ tail)
  end.

Definition getAuthMessage (ctx : ScriptExecutionContext)
  : access (list byte) :=
  match vin (tx ctx) with
  | [] => OutOfBounds 0                     (* [tx().vin()[0]] *)
  | input :: _ =>
      outputs <-! getAuthMessage_outputs (vout (tx ctx));
      InBounds (outpoint_txid (prevout input)
                ++ writeUint32 (outpoint_n (prevout input))
                ++ _fullScript ctx
                ++ outputs)
  end.

Section Authorization.
(** The collaborators the sources only call: SHA-256, the two signature
    schemes of [CPubKey], and the encoding checks of sigencoding.h under
    the flags of the run. *)
Variable SHA256 : list byte -> list byte.
Variable VerifySchnorr : list byte -> list byte -> list byte -> bool.
Variable VerifyECDSA : list byte -> list byte -> list byte -> bool.
Variable CheckDataSignatureEncoding : valtype -> bool.
Variable CheckPubKeyEncoding : valtype -> bool.

(** [BaseSignatureChecker::VerifySignature(vchSig, pubkey, sighash)] *)
Definition VerifySignature (vchSig pubkey sighash : list byte) : bool :=
  if (length vchSig =? 64)%nat
  then VerifySchnorr pubkey sighash vchSig
  else VerifyECDSA pubkey sighash vchSig.

(** The case [OP_CHECKAUTHSIG], [OP_CHECKAUTHSIGVERIFY]; it uses
    [context] without the test for its presence. *)
Definition op_CHECKAUTHSIG (opcode : Z) (ctx : ScriptExecutionContext)
    (stack : list valtype) (stateContext : ScriptStateContext)
  : access outcome :=
  hasAuthSig <-! getAuthSig ctx;
  let hasAuthPubKey := getAuthPubKey ctx in
  match hasAuthSig, hasAuthPubKey with
  | None, None =>
      if opcode =? OP_CHECKAUTHSIGVERIFY then
        InBounds (Error ScriptError.INVALID_AVM_CHECKAUTHSIGVERIFY)
      else InBounds (Next (stack ++ [vchFalse]) stateContext)
  | Some vchSig, Some vchPubKey =>
      if negb (CheckDataSignatureEncoding vchSig)
         || negb (CheckPubKeyEncoding vchPubKey) then
        InBounds (Error ScriptError.INVALID_AVM_CHECKAUTHSIG)
      else
        vchMessage <-! getAuthMessage ctx;
        let vchHash := SHA256 vchMessage in
        let fSuccess := VerifySignature vchSig vchPubKey vchHash in
        if negb fSuccess then
          InBounds (Error ScriptError.INVALID_AVM_CHECKAUTHSIGNULL)
        else InBounds (Next (stack ++ [vchPubKey]) stateContext)
  | _, _ => InBounds (Error ScriptError.INVALID_AVM_CHECKAUTHSIG)
  end.
End Authorization.

(** A transaction that carries the signature [aa] in its second output,
    [OP_RETURN "sig" aa], and the public key [02] of the call. *)
Definition auth_tx : CTransaction :=
  {| nVersion := 2;
     vin := [{| prevout := {| outpoint_txid := repeat x22 32;
                              outpoint_n := 1 |};
                scriptSig := []; nSequence := 0 |}];
     vout := [{| nValue := 100; scriptPubKey := [x51] |};
              {| nValue := 0;
                 scriptPubKey := [x6a; x03; x73; x69; x67; x01; xaa] |}];
     nLockTime := 0 |}.

Definition auth_context : ScriptExecutionContext :=
  {| tx := auth_tx; _fullScript := [xc1]; _pubKey := [x02] |}.

(** A transaction whose only output script is the single byte
    [OP_RETURN]. *)
Definition short_return_context : ScriptExecutionContext :=
  {| tx := {| nVersion := 2; vin := [];
              vout := [{| nValue := 0; scriptPubKey := [x6a] |}];
              nLockTime := 0 |};
     _fullScript := []; _pubKey := [x02] |}.

(** A verifier that accepts, and one that rejects. *)
Definition accept (pubkey sighash sig : list byte) : bool := true.
Definition reject (pubkey sighash sig : list byte) : bool := false.
Definition well_encoded (v : valtype) : bool := true.
Definition toy_hash (m : list byte) : list byte := firstn 32 m.

(* ------------------------------------------------------------------ *)
(** ** script.h, script.cpp: building scripts and the checks on pushes *)

Definition OP_RESERVED : Z := 0x50.
Definition OP_IF : Z := 0x63.
Definition OP_ENDIF : Z := 0x68.
Definition OP_2MUL : Z := 0x8d.
Definition OP_2DIV : Z := 0x8e.

Definition MAX_OPS_PER_SCRIPT : Z := 1000000.
Definition MAX_STACK_SIZE : Z := 1000.

(** [CScript::operator<<(opcodetype)] *)
Definition operator_shl_opcode (script : CScript) (opcode : Z)
  : result CScript :=
  if (opcode <? 0) || (0xff <? opcode) then Throw RuntimeError
  else Ok (script ++ [z2b opcode]).

(** [CScript::operator<<(const std::vector<uint8_t> &)]: [uint8_t(b.size())]
    and the little-endian stores [WriteLE16], [WriteLE32] keep the low
    bytes of the size. *)
Definition operator_shl_vector (script : CScript) (b : list byte)
  : CScript :=
  let size := Z.of_nat (length b) in
  let head :=
    if size <? OP_PUSHDATA1 then [z2b size]
    else if size <=? 0xff then [z2b OP_PUSHDATA1; z2b size]
    else if size <=? 0xffff then z2b OP_PUSHDATA2 :: le_bytes 2 size
    else z2b OP_PUSHDATA4 :: le_bytes 4 size in
  script ++ head ++ b.

(** [CScript::operator<<(const CScriptNum &)] *)
Definition operator_shl_CScriptNum (script : CScript) (b : CScriptNum)
  : CScript :=
  operator_shl_vector script (getvch b).

(** [CScript::push_int64], which is [operator<<(ScriptInt const &)] *)
Definition push_int64 (script : CScript) (n : Z) : CScript :=
  if (n =? -1) || ((1 <=? n) && (n <=? 16)) then
    script ++ [z2b (n + (OP_1 - 1))]
  else if n =? 0 then script ++ [z2b OP_0]
  else operator_shl_vector script (serialize_int64 n).

(** [CheckMinimalPush]; its callers pass [0 <= opcode <= OP_PUSHDATA4],
    which the source asserts. *)
Definition CheckMinimalPush (data : list byte) (opcode : Z) : bool :=
  let size := Z.of_nat (length data) in
  let d0 := b2z (nth 0 data x00) in
  if size =? 0 then opcode =? OP_0
  else if (size =? 1) && (1 <=? d0) && (d0 <=? 16) then false
  else if (size =? 1) && (d0 =? 0x81) then false
  else if size <=? 75 then opcode =? size
  else if size <=? 255 then opcode =? OP_PUSHDATA1
  else if size <=? 65535 then opcode =? OP_PUSHDATA2
  else true.

(** The script [operator<<] builds from byte vectors, one after the
    other. *)
Definition push_all (script : CScript) (items : list (list byte))
  : CScript :=
  fold_left operator_shl_vector items script.

(** The output script that carries an authorization signature:
    [CScript() << OP_RETURN << "sig" << sig]. *)
Definition sig_marker : list byte := [x73; x69; x67].

Definition sig_return_script (sig : list byte) : CScript :=
  operator_shl_vector (operator_shl_vector [z2b OP_RETURN] sig_marker) sig.

(* ------------------------------------------------------------------ *)
(** ** interpreter.cpp: the loop of [EvalScript] *)

(** [IsOpcodeDisabled] *)
Definition IsOpcodeDisabled (opcode : Z) : bool :=
  (opcode =? OP_2MUL) || (opcode =? OP_2DIV).

(** The objects the loop of [EvalScript] works on. *)
Record Machine : Type := mkMachine {
  m_stack : list valtype;
  m_altstack : list valtype;
  m_vfExec : ConditionStack.t;
  m_state : ScriptStateContext
}.

(** How the [switch (opcode)] of the loop is left: by [break], by a
    [return set_error(...)] or [return set_success(...)] (the error
    [OK]), or by an exception; each with the objects as they are then. *)
Inductive switch_exit : Type :=
| Break (m : Machine)
| Return (m : Machine) (serror : ScriptError.t)
| Thrown (m : Machine) (e : exception).

(** How [EvalScript] is left: by a [return], with the error and the
    opcode number written through the two pointers, or by an exception
    that neither [catch] clause takes. *)
Inductive eval_exit : Type :=
| Returned (ok : bool) (m : Machine) (serror : ScriptError.t) (op_num : Z)
| Escaped (m : Machine) (e : exception) (op_num : Z).

Definition eval_return (m : Machine) (serror : ScriptError.t) (op_num : Z)
  : eval_exit :=
  Returned (match serror with ScriptError.OK => true | _ => false end)
    m serror op_num.

(** The two [catch] clauses. *)
Definition eval_catch (m : Machine) (e : exception) (op_num : Z)
  : eval_exit :=
  match EvalScript_catch (Throw e) with
  | Error serror => eval_return m serror op_num
  | _ => Escaped m e op_num
  end.

(** The size limits at the end of an iteration. *)
Definition over_size_limits (m : Machine) : bool :=
  MAX_STACK_SIZE <? Z.of_nat (length (m_stack m) + length (m_altstack m)).

Section EvalScriptLoop.
(** The [switch (opcode)] statement, given the opcode and [fExec]. *)
Variable exec_switch : Z -> bool -> Machine -> switch_exit.

(** [while (pc < pend)] and what follows it.  Every iteration that does
    not return advances [pc], so the bytes of the script are fuel
    enough; [op_num] is what [*serror_op_num] holds. *)
Fixpoint EvalScript_loop (fuel : nat) (script : CScript) (pc : nat)
    (nOpCount opCounter op_num : Z) (m : Machine) : eval_exit :=
  if (length script <=? pc)%nat then
    if negb (ConditionStack.empty (m_vfExec m)) then
      eval_return m ScriptError.UNBALANCED_CONDITIONAL op_num
    else eval_return m ScriptError.OK op_num
  else
    match fuel with
    | O => eval_return m ScriptError.UNKNOWN op_num
    | S fuel' =>
        let op_num := opCounter in
        let opCounter := u32 (opCounter + 1) in
        let fExec := ConditionStack.all_true (m_vfExec m) in
        match GetOp script pc with
        | None => eval_return m ScriptError.BAD_OPCODE op_num
        | Some (pc, opcode, vchPushValue) =>
            if MAX_SCRIPT_ELEMENT_SIZE <? Z.of_nat (length vchPushValue)
            then eval_return m ScriptError.PUSH_SIZE op_num
            else
              let counted := OP_16 <? opcode in
              let nOpCount := if counted then nOpCount + 1 else nOpCount in
              if counted && (MAX_OPS_PER_SCRIPT <? nOpCount) then
                eval_return m ScriptError.OP_COUNT op_num
              else if IsOpcodeDisabled opcode then
                eval_return m ScriptError.DISABLED_OPCODE op_num
              else
                let after :=
                  if fExec && (0 <=? opcode) && (opcode <=? OP_PUSHDATA4)
                  then
                    if negb (CheckMinimalPush vchPushValue opcode) then
                      Return m ScriptError.MINIMALDATA
                    else
                      Break (mkMachine (m_stack m ++ [vchPushValue])
                               (m_altstack m) (m_vfExec m) (m_state m))
                  else if fExec
                          || ((OP_IF <=? opcode) && (opcode <=? OP_ENDIF))
                  then exec_switch opcode fExec m
                  else Break m in
                match after with
                | Return m serror => eval_return m serror op_num
                | Thrown m e => eval_catch m e op_num
                | Break m =>
                    if over_size_limits m then
                      eval_return m ScriptError.STACK_SIZE op_num
                    else
                      EvalScript_loop fuel' script pc nOpCount opCounter
                        op_num m
                end
        end
    end.

(** [EvalScript], the overload that takes the state context. *)
Definition EvalScript_stateContext (stack : list valtype) (script : CScript)
    (stateContext : ScriptStateContext) : eval_exit :=
  let m := mkMachine stack [] ConditionStack.init stateContext in
  if MAX_SCRIPT_SIZE <? Z.of_nat (length script) then
    eval_return m ScriptError.SCRIPT_SIZE 0
  else EvalScript_loop (length script) script 0 0 0 0 m.
End EvalScriptLoop.

(* ------------------------------------------------------------------ *)
(** ** serialize_number.h: [MinimallyEncode] *)

(** [v[i] = x], for an index inside the vector. *)
Fixpoint assign_at {A} (v : list A) (i : nat) (x : A) : list A :=
  match v, i with
  | [], _ => []
  | _ :: r, O => x :: r
  | a :: r, S i' => a :: assign_at r i' x
  end.

(** The [for (size_t i = data.size() - 1; i > 0; i--)] loop of
    [avm::MinimallyEncode] and the [data = {}] after it: the vector the
    function leaves in [data]. *)
Fixpoint MinimallyEncode_loop (data : list byte) (last : byte) (i : nat)
  : list byte :=
  match i with
  | O => []
  | S i' =>
      let d := b2z (nth i' data x00) in
      if negb (d =? 0) then
        if negb (Z.land d 0x80 =? 0) then
          firstn (S i) (assign_at data i last)
        else
          firstn i (assign_at data i' (z2b (Z.lor d (b2z last))))
      else MinimallyEncode_loop data last i'
  end.

(** [avm::MinimallyEncode]: the return value and the vector. *)
Definition MinimallyEncode (data : list byte) : bool * list byte :=
  if (length data =? 0)%nat then (false, data)
  else
    let last := last data x00 in
    if negb (Z.land (b2z last) 0x7f =? 0) then (false, data)
    else if (length data =? 1)%nat then (true, [])
    else if negb (Z.land (b2z (nth (length data - 2) data x00)) 0x80 =? 0)
    then (false, data)
    else (true, MinimallyEncode_loop data last (length data - 1)).

(* ------------------------------------------------------------------ *)
(** ** script_num.h: comparisons and [getSizeType] *)

(** The integer a [CScriptNum] holds; the comparison operators, between
    two numbers and with an [int64_t], compare these (same alternatives
    directly, mixed ones through [bigint]). *)
Definition CScriptNum_value (n : CScriptNum) : Z :=
  match n with SmallNum z | BigNum z => z end.

Definition CScriptNum_ltb (a b : CScriptNum) : bool :=
  CScriptNum_value a <? CScriptNum_value b.

Definition INT32_MAX : Z := 2147483647.

(** [assert(c)], where no test before it implies [c]. *)
Inductive asserted (A : Type) : Type :=
| Holds (a : A)
| AssertionFailed.
Arguments Holds {A} a.
Arguments AssertionFailed {A}.

(** [CScriptNum::getSizeType], which asserts [0 <= n <= INT32_MAX]. *)
Definition getSizeType (n : CScriptNum) : asserted Z :=
  let z := CScriptNum_value n in
  if (0 <=? z) && (z <=? INT32_MAX) then Holds z else AssertionFailed.

(* ------------------------------------------------------------------ *)
(** ** interpreter.cpp: byte string and conversion opcodes *)

(** [stacktop(-1) = v] on a non-empty stack. *)
Definition set_stacktop (stack : list valtype) (v : valtype)
  : list valtype :=
  removelast stack ++ [v].

(** The case [OP_BIN2NUM]. *)
Definition op_BIN2NUM (stack : list valtype)
    (stateContext : ScriptStateContext) : result outcome :=
  if (length stack <? 1)%nat then
    Ok (Error ScriptError.INVALID_STACK_OPERATION)
  else
    n0 <-- stacktop_at stack 1 ;;
    let n := snd (MinimallyEncode n0) in
    if negb (IsMinimallyEncoded n MAXIMUM_ITEM_SIZE) then
      Ok (Error ScriptError.INVALID_NUMBER_RANGE)
    else Ok (Next (set_stacktop stack n) stateContext).

(** The case [OP_NUM2BIN]; the assertion of [getSizeType] follows from
    the range test before it. *)
Definition op_NUM2BIN (stack : list valtype)
    (stateContext : ScriptStateContext) : result outcome :=
  if (length stack <? 2)%nat then
    Ok (Error ScriptError.INVALID_STACK_OPERATION)
  else
    vch <-- stacktop_at stack 1 ;;
    n <-- CScriptNum_of_bytes vch MAXIMUM_ITEM_SIZE ;;
    if (CScriptNum_value n <? 0) || (INT32_MAX <? CScriptNum_value n) then
      Ok (Error ScriptError.PUSH_SIZE)
    else
      let size := CScriptNum_value n in
      if MAX_SCRIPT_ELEMENT_SIZE <? size then
        Ok (Error ScriptError.PUSH_SIZE)
      else
        let stack := removelast stack in
        rawnum0 <-- stacktop_at stack 1 ;;
        let rawnum := snd (MinimallyEncode rawnum0) in
        if size <? Z.of_nat (length rawnum) then
          Ok (Error ScriptError.IMPOSSIBLE_ENCODING)
        else if Z.of_nat (length rawnum) =? size then
          Ok (Next (set_stacktop stack rawnum) stateContext)
        else
          let signbit :=
            if (0 <? length rawnum)%nat
            then Z.land (b2z (last rawnum x00)) 0x80 else 0x00 in
          let rawnum :=
            if (0 <? length rawnum)%nat
            then assign_at rawnum (length rawnum - 1)
                   (z2b (Z.land (b2z (last rawnum x00)) 0x7f))
            else rawnum in
          let rawnum :=
            if Z.of_nat (length rawnum) <? size then
              let resized :=
                rawnum ++ repeat x00 (Z.to_nat size - length rawnum) in
              assign_at resized (length resized - 1) (z2b signbit)
            else rawnum in
          Ok (Next (set_stacktop stack rawnum) stateContext).

(* ------------------------------------------------------------------ *)
(** ** script_execution_context.cpp: incoming tokens and balances *)

(** [std::set<uint288>]: membership and [insert]. *)
Definition std_set_contains (id : uint288) (s : list uint288) : bool :=
  existsb (uint288_eqb id) s.

Definition std_set_insert (id : uint288) (s : list uint288) : list uint288 :=
  if std_set_contains id s then s else s ++ [id].

Definition with_ft_adds (st : ScriptStateContext) (adds : list uint288)
  : ScriptStateContext :=
  mkState (_ftState st) (_ftStateIncoming st) (_nftState st)
    (_nftStateIncoming st) (_contractState st) (_contractStateUpdates st)
    (_contractStateDeletes st) (_ftBalancesUpdates st)
    (_nftBalancesUpdates st) adds (_nftPutsSet st) (_ftWithdrawMap st)
    (_nftWithdrawMap st).

Definition with_nft_puts (st : ScriptStateContext) (puts : list uint288)
  : ScriptStateContext :=
  mkState (_ftState st) (_ftStateIncoming st) (_nftState st)
    (_nftStateIncoming st) (_contractState st) (_contractStateUpdates st)
    (_contractStateDeletes st) (_ftBalancesUpdates st)
    (_nftBalancesUpdates st) (_ftAddsSet st) puts (_ftWithdrawMap st)
    (_nftWithdrawMap st).

Definition allowedFtBalanceAdd (ftId : uint288) (st : ScriptStateContext)
  : bool :=
  negb (std_set_contains ftId (_ftAddsSet st)).

(** [performFtBalanceAdd(ftId, amount)]; [amount] and [currentValue] are
    [uint64_t]. *)
Definition performFtBalanceAdd (ftId : uint288) (amount : Z)
    (st : ScriptStateContext) : bool * ScriptStateContext :=
  if amount <=? 0 then (false, st)
  else
    let st := with_ft_adds st (std_set_insert ftId (_ftAddsSet st)) in
    let ftIdStr := GetHex ftId in
    match om_find ftIdStr (_ftStateIncoming st) with
    | None => (false, st)
    | Some allowedToAddUpTo =>
        if allowedToAddUpTo <? amount then (false, st)
        else
          let currentValue :=
            match om_find ftIdStr (_ftState st) with
            | Some v => v
            | None => 0
            end in
          let currentValue := u64 (currentValue + amount) in
          (true,
           with_ft st (om_set ftIdStr currentValue (_ftState st))
             (om_set ftIdStr currentValue (_ftBalancesUpdates st))
             (_ftWithdrawMap st))
    end.

Definition contractFtBalanceAdd (ftId : uint288) (st : ScriptStateContext)
  : bool * ScriptStateContext :=
  match om_find (GetHex ftId) (_ftStateIncoming st) with
  | None => (false, st)
  | Some allowedToAddUpTo =>
      if negb (allowedFtBalanceAdd ftId st) then (false, st)
      else performFtBalanceAdd ftId allowedToAddUpTo st
  end.

Definition allowedNftPut (nftId : uint288) (st : ScriptStateContext)
  : bool :=
  negb (std_set_contains nftId (_nftPutsSet st)).

Definition performNftPut (nftId : uint288) (st : ScriptStateContext)
  : bool * ScriptStateContext :=
  let st := with_nft_puts st (std_set_insert nftId (_nftPutsSet st)) in
  let nftIdStr := GetHex nftId in
  if negb (om_contains nftIdStr (_nftStateIncoming st)) then (false, st)
  else
    (true,
     with_nft st (om_set nftIdStr true (_nftState st))
       (om_set nftIdStr true (_nftBalancesUpdates st))
       (_nftWithdrawMap st)).

(** [contractNftPut]; it throws a pointer to the exception object,
    which no [catch] clause of the interpreter takes. *)
Definition contractNftPut (nftId : uint288) (st : ScriptStateContext)
  : result (bool * ScriptStateContext) :=
  match om_find (GetHex nftId) (_nftStateIncoming st) with
  | None => Ok (false, st)
  | Some incomingAllowed =>
      if negb (allowedNftPut nftId st) then Ok (false, st)
      else if negb incomingAllowed then
        Throw StateValidationTokenNftBalanceFormatError
      else Ok (performNftPut nftId st)
  end.

Definition contractFtBalance (ftId : uint288) (st : ScriptStateContext)
  : Z :=
  match om_find (GetHex ftId) (_ftState st) with
  | None => 0
  | Some v => v
  end.

Definition contractFtBalanceIncoming (ftId : uint288)
    (st : ScriptStateContext) : Z :=
  match om_find (GetHex ftId) (_ftStateIncoming st) with
  | None => 0
  | Some v => v
  end.

Definition contractNftExists (nftId : uint288) (st : ScriptStateContext)
  : bool :=
  match om_find (GetHex nftId) (_nftState st) with
  | None => false
  | Some b => b
  end.

Definition contractNftExistsIncoming (nftId : uint288)
    (st : ScriptStateContext) : bool :=
  match om_find (GetHex nftId) (_nftStateIncoming st) with
  | None => false
  | Some b => b
  end.

(** The cases [OP_FT_BALANCE_ADD] and [OP_NFT_PUT]. *)
Definition op_FT_BALANCE_ADD (context : option ScriptExecutionContext)
    (stack : list valtype) (stateContext : ScriptStateContext)
  : result outcome :=
  match context with
  | None => Ok (Error ScriptError.CONTEXT_NOT_PRESENT)
  | Some _ =>
      if (length stack <? 1)%nat then
        Ok (Error ScriptError.INVALID_STACK_OPERATION)
      else
        n <-- stacktop_at stack 1 ;;
        if negb (length n =? 36)%nat then
          Ok (Error ScriptError.INVALID_ATOMICAL_REF_SIZE)
        else
          atomref <-- uint288_of_vch n ;;
          match contractFtBalanceAdd atomref stateContext with
          | (false, _) =>
              Ok (Error ScriptError.INVALID_AVM_FT_BALANCE_ADD_INVALID)
          | (true, st) => Ok (Next (popstack stack) st)
          end
  end.

Definition op_NFT_PUT (context : option ScriptExecutionContext)
    (stack : list valtype) (stateContext : ScriptStateContext)
  : result outcome :=
  match context with
  | None => Ok (Error ScriptError.CONTEXT_NOT_PRESENT)
  | Some _ =>
      if (length stack <? 1)%nat then
        Ok (Error ScriptError.INVALID_STACK_OPERATION)
      else
        n <-- stacktop_at stack 1 ;;
        if negb (length n =? 36)%nat then
          Ok (Error ScriptError.INVALID_ATOMICAL_REF_SIZE)
        else
          atomref <-- uint288_of_vch n ;;
          r <-- contractNftPut atomref stateContext ;;
          match r with
          | (false, _) => Ok (Error ScriptError.INVALID_AVM_NFT_PUT_INVALID)
          | (true, st) => Ok (Next (popstack stack) st)
          end
  end.

(* ------------------------------------------------------------------ *)
(** ** script_utils.h: [isHexStr] and [class StateValidation] *)

(** A character of "0123456789abcdef", by its code. *)
Definition is_lower_hex_digit (c : ascii) : bool :=
  let code := nat_of_ascii c in
  ((48 <=? code) && (code <=? 57) || (97 <=? code) && (code <=? 102))%nat.

(** [s.find_first_not_of("0123456789abcdef") == std::string::npos] *)
Fixpoint only_lower_hex_digits (s : string) : bool :=
  match s with
  | EmptyString => true
  | String c r => is_lower_hex_digit c && only_lower_hex_digits r
  end.

Definition isHexStr (s : string) : bool :=
  only_lower_hex_digits s
  && (String.length s mod 2 =? 0)%nat
  && (2 <=? String.length s)%nat.

Module StateValidation.

(** The format errors the validation throws. *)
Inductive error : Type :=
| StateFormatError
| StateDeleteFormatError
| TokenFtBalanceFormatError
| TokenFtBalanceZeroFormatError
| TokenNftBalanceFormatError.

(** A validation returns its [uint32_t] byte count or throws. *)
Inductive checked : Type :=
| Valid (byteCount : Z)
| Invalid (e : error).

(** The inner loop of [performValidateStateRestrictionsState], over the
    members of one keyspace. *)
Fixpoint State_keys (members : list (string * json)) (byteCount : Z)
  : checked :=
  match members with
  | [] => Valid byteCount
  | (secondKey, secondValue) :: rest =>
      if negb (isHexStr secondKey) then Invalid StateFormatError
      else
        let byteCount :=
          u32 (byteCount + Z.of_nat (String.length secondKey / 2)) in
        match secondValue with
        | JString secondValueStr =>
            if negb (isHexStr secondValueStr) then Invalid StateFormatError
            else
              State_keys rest
                (u32 (byteCount
                      + Z.of_nat (String.length secondValueStr / 2)))
        | _ => Invalid StateFormatError
        end
  end.

Fixpoint State_keyspaces (members : list (string * json)) (byteCount : Z)
  : checked :=
  match members with
  | [] => Valid byteCount
  | (key, value) :: rest =>
      if negb (isHexStr key) then Invalid StateFormatError
      else
        let byteCount := u32 (byteCount + Z.of_nat (String.length key / 2)) in
        match value with
        | JObject [] => Invalid StateFormatError
        | JObject inner =>
            match State_keys inner byteCount with
            | Valid byteCount => State_keyspaces rest byteCount
            | Invalid e => Invalid e
            end
        | _ => Invalid StateFormatError
        end
  end.

Definition performValidateStateRestrictionsState (obj : json) : checked :=
  State_keyspaces (items obj) 0.

(** The inner loop of [performValidateStateRestrictionsStateDeletes]; a
    value [false] is a [StateValidationStateFormatError]. *)
Fixpoint StateDeletes_keys (members : list (string * json)) (byteCount : Z)
  : checked :=
  match members with
  | [] => Valid byteCount
  | (secondKey, secondValue) :: rest =>
      if negb (isHexStr secondKey) then Invalid StateDeleteFormatError
      else
        let byteCount :=
          u32 (byteCount + Z.of_nat (String.length secondKey / 2)) in
        match secondValue with
        | JBool secondValueBool =>
            if negb secondValueBool then Invalid StateFormatError
            else StateDeletes_keys rest byteCount
        | _ => Invalid StateDeleteFormatError
        end
  end.

Fixpoint StateDeletes_keyspaces (members : list (string * json))
    (byteCount : Z) : checked :=
  match members with
  | [] => Valid byteCount
  | (key, value) :: rest =>
      if negb (isHexStr key) then Invalid StateDeleteFormatError
      else
        let byteCount := u32 (byteCount + Z.of_nat (String.length key / 2)) in
        match value with
        | JObject [] => Invalid StateDeleteFormatError
        | JObject inner =>
            match StateDeletes_keys inner byteCount with
            | Valid byteCount => StateDeletes_keyspaces rest byteCount
            | Invalid e => Invalid e
            end
        | _ => Invalid StateDeleteFormatError
        end
  end.

Definition performValidateStateRestrictionsStateDeletes (obj : json)
  : checked :=
  StateDeletes_keyspaces (items obj) 0.

Fixpoint TokenFtBalances_loop (isAllowZeroBalance : bool)
    (members : list (string * json)) (byteCount : Z) : checked :=
  match members with
  | [] => Valid byteCount
  | (key, value) :: rest =>
      if negb (isHexStr key) then Invalid TokenFtBalanceFormatError
      else
        let byteCount := u32 (byteCount + Z.of_nat (String.length key / 2)) in
        match value with
        | JUInt valueInt =>
            if negb isAllowZeroBalance && (valueInt =? 0) then
              Invalid TokenFtBalanceZeroFormatError
            else
              TokenFtBalances_loop isAllowZeroBalance rest
                (u32 (byteCount + 8))
        | _ => Invalid TokenFtBalanceFormatError
        end
  end.

Definition performValidateStateRestrictionsTokenFtBalances (obj : json)
    (isAllowZeroBalance : bool) : checked :=
  TokenFtBalances_loop isAllowZeroBalance (items obj) 0.

Fixpoint TokenNftBalances_loop (isAllowFalse : bool)
    (members : list (string * json)) (byteCount : Z) : checked :=
  match members with
  | [] => Valid byteCount
  | (key, value) :: rest =>
      if negb (isHexStr key) then Invalid TokenNftBalanceFormatError
      else
        let byteCount := u32 (byteCount + Z.of_nat (String.length key / 2)) in
        match value with
        | JBool valueBool =>
            if negb isAllowFalse && negb valueBool then
              Invalid TokenNftBalanceFormatError
            else TokenNftBalances_loop isAllowFalse rest byteCount
        | _ => Invalid TokenNftBalanceFormatError
        end
  end.

Definition performValidateStateRestrictionsTokenNftBalances (obj : json)
    (isAllowFalse : bool) : checked :=
  TokenNftBalances_loop isAllowFalse (items obj) 0.

End StateValidation.

(** The case [OP_CAT]: the element below the top is extended in place
    and the top popped. *)
Definition op_CAT (stack : list valtype) (stateContext : ScriptStateContext)
  : result outcome :=
  if (length stack <? 2)%nat then
    Ok (Error ScriptError.INVALID_STACK_OPERATION)
  else
    vch1 <-- stacktop_at stack 2 ;;
    vch2 <-- stacktop_at stack 1 ;;
    if MAX_SCRIPT_ELEMENT_SIZE <? Z.of_nat (length vch1 + length vch2) then
      Ok (Error ScriptError.PUSH_SIZE)
    else
      Ok (Next (set_stacktop (popstack stack) (vch1 ++ vch2)) stateContext).

(** The case [OP_SPLIT]; [position] is a [size_t], so the second range
    test only repeats the upper bound. *)
Definition op_SPLIT (stack : list valtype)
    (stateContext : ScriptStateContext) : asserted (result outcome) :=
  if (length stack <? 2)%nat then
    Holds (Ok (Error ScriptError.INVALID_STACK_OPERATION))
  else
    match stacktop_at stack 2, stacktop_at stack 1 with
    | Ok data, Ok vch =>
        match CScriptNum_of_bytes vch MAXIMUM_ITEM_SIZE with
        | Throw e => Holds (Throw e)
        | Ok n =>
            if (CScriptNum_value n <? 0)
               || (Z.of_nat (length data) <? CScriptNum_value n) then
              Holds (Ok (Error ScriptError.INVALID_SPLIT_RANGE))
            else
              match getSizeType n with
              | AssertionFailed => AssertionFailed
              | Holds position =>
                  if Z.of_nat (length data) <? position then
                    Holds (Ok (Error ScriptError.INVALID_SPLIT_RANGE))
                  else
                    let n1 := firstn (Z.to_nat position) data in
                    let n2 := skipn (Z.to_nat position) data in
                    Holds (Ok (Next (popstack (popstack stack) ++ [n1; n2])
                                 stateContext))
              end
        end
    | Throw e, _ | _, Throw e => Holds (Throw e)
    end.

(** The case [OP_EQUAL], [OP_EQUALVERIFY]: below two elements it reads
    [stacktop(-1)] before it returns the error. *)
Definition OP_EQUALVERIFY : Z := 0x88.

Definition op_EQUAL (opcode : Z) (stack : list valtype)
    (stateContext : ScriptStateContext) : result outcome :=
  if (length stack <? 2)%nat then
    _ <-- stacktop_at stack 1 ;;
    Ok (Error ScriptError.INVALID_STACK_OPERATION)
  else
    vch1 <-- stacktop_at stack 2 ;;
    vch2 <-- stacktop_at stack 1 ;;
    let fEqual :=
      if list_eq_dec Byte.byte_eq_dec vch1 vch2 then true else false in
    let stack :=
      popstack (popstack stack) ++ [if fEqual then vchTrue else vchFalse] in
    if opcode =? OP_EQUALVERIFY then
      if fEqual then Ok (Next (popstack stack) stateContext)
      else Ok (Error ScriptError.EQUALVERIFY)
    else Ok (Next stack stateContext).

(* ------------------------------------------------------------------ *)
(** ** interpreter.cpp: [LShift], [RShift] and the shift opcodes

    The [int] indices of the two functions are integers here: they are
    exact for vectors and shift counts below [2^31]. *)

(** A value of a [uint8_t] object after an assignment. *)
Definition u8 (z : Z) : Z := z mod 256.

Definition make_rshift_mask (n : Z) : Z :=
  nth (Z.to_nat n) [0xFF; 0xFE; 0xFC; 0xF8; 0xF0; 0xE0; 0xC0; 0x80] 0.

Definition make_lshift_mask (n : Z) : Z :=
  nth (Z.to_nat n) [0xFF; 0x7F; 0x3F; 0x1F; 0x0F; 0x07; 0x03; 0x01] 0.

(** [result[k] |= val] *)
Definition or_at (result : list byte) (k : Z) (val : Z) : list byte :=
  assign_at result (Z.to_nat k)
    (z2b (Z.lor (b2z (nth (Z.to_nat k) result x00)) val)).

(** The body of the loop of [RShift], for the index [i]. *)
Definition RShift_body (x : list byte)
    (bit_shift byte_shift mask overflow_mask : Z)
    (result : list byte) (i : nat) : list byte :=
  let size := Z.of_nat (length x) in
  let k := Z.of_nat i + byte_shift in
  let result :=
    if k <? size then
      let val := Z.land (b2z (nth i x x00)) mask in
      let val := u8 (Z.shiftr val bit_shift) in
      or_at result k val
    else result in
  if k + 1 <? size then
    let carryval := Z.land (b2z (nth i x x00)) overflow_mask in
    let carryval := u8 (Z.shiftl carryval (8 - bit_shift)) in
    or_at result (k + 1) carryval
  else result.

(** [RShift(x, n)]: the loop runs over [i = 0, ..., x.size() - 1]. *)
Definition RShift (x : list byte) (n : Z) : list byte :=
  let bit_shift := Z.rem n 8 in
  let byte_shift := Z.quot n 8 in
  let mask := make_rshift_mask bit_shift in
  let overflow_mask := u8 (Z.lnot mask) in
  fold_left (RShift_body x bit_shift byte_shift mask overflow_mask)
    (seq 0 (length x)) (repeat x00 (length x)).

(** The body of the loop of [LShift], for the index [i]. *)
Definition LShift_body (x : list byte)
    (bit_shift byte_shift mask overflow_mask : Z)
    (result : list byte) (i : nat) : list byte :=
  let k := Z.of_nat i - byte_shift in
  let result :=
    if 0 <=? k then
      let val := Z.land (b2z (nth i x x00)) mask in
      let val := u8 (Z.shiftl val bit_shift) in
      or_at result k val
    else result in
  if 0 <=? k - 1 then
    let carryval := Z.land (b2z (nth i x x00)) overflow_mask in
    let carryval := u8 (Z.shiftr carryval (8 - bit_shift)) in
    or_at result (k - 1) carryval
  else result.

(** [LShift(x, n)]: the loop runs over [i = x.size() - 1, ..., 0]. *)
Definition LShift (x : list byte) (n : Z) : list byte :=
  let bit_shift := Z.rem n 8 in
  let byte_shift := Z.quot n 8 in
  let mask := make_lshift_mask bit_shift in
  let overflow_mask := u8 (Z.lnot mask) in
  fold_left (LShift_body x bit_shift byte_shift mask overflow_mask)
    (rev (seq 0 (length x))) (repeat x00 (length x)).

Definition bitsPerByte : Z := 8.

(** [do { values = Shift(values, n.getint()); n -= INT32_MAX; }
    while (n > 0)]: every turn takes [INT32_MAX] off [n], which is the
    fuel. *)
Fixpoint shift_loop (Shift : list byte -> Z -> list byte) (fuel : nat)
    (values : list byte) (n : Z) : list byte :=
  match fuel with
  | O => values
  | S fuel' =>
      let values := Shift values (getint (BigNum n)) in
      let n := n - INT32_MAX in
      if 0 <? n then shift_loop Shift fuel' values n else values
  end.

(** The cases [OP_LSHIFT] (with [LShift]) and [OP_RSHIFT] (with
    [RShift]). *)
Definition op_SHIFT (Shift : list byte -> Z -> list byte)
    (stack : list valtype) (stateContext : ScriptStateContext)
  : result outcome :=
  if (length stack <? 2)%nat then
    Ok (Error ScriptError.INVALID_STACK_OPERATION)
  else
    vch1 <-- stacktop_at stack 2 ;;
    vch <-- stacktop_at stack 1 ;;
    n <-- CScriptNum_of_bytes vch MAXIMUM_ITEM_SIZE ;;
    let n := CScriptNum_value n in
    if n <? 0 then Ok (Error ScriptError.INVALID_NUMBER_RANGE)
    else
      let stack := removelast (removelast stack) in
      let values :=
        if Z.of_nat (length vch1) * bitsPerByte <=? n then
          repeat x00 (length vch1)
        else
          shift_loop Shift (S (Z.to_nat (n / INT32_MAX))) vch1 n in
      Ok (Next (stack ++ [values]) stateContext).

Definition op_LSHIFT := op_SHIFT LShift.
Definition op_RSHIFT := op_SHIFT RShift.

(** The byte of a vector at an index, as a number ([0] outside). *)
Definition byte_at (r : list byte) (p : nat) : Z := b2z (nth p r x00).

(** The byte [p] of the result of [RShift] once the loop has run over the
    indices below [j]. *)
Definition RShift_byte (x : list byte) (bit_shift byte_shift j p : Z) : Z :=
  Z.lor
    (if (byte_shift <=? p) && (p - byte_shift <? j)
     then byte_at x (Z.to_nat (p - byte_shift)) / 2 ^ bit_shift else 0)
    (if (byte_shift + 1 <=? p) && (p - byte_shift - 1 <? j)
     then (byte_at x (Z.to_nat (p - byte_shift - 1)) mod 2 ^ bit_shift)
          * 2 ^ (8 - bit_shift)
     else 0).

(** The byte [p] of the result of [LShift] once the loop has run over the
    indices from [j] on. *)
Definition LShift_byte (x : list byte) (bit_shift byte_shift j p : Z) : Z :=
  Z.lor
    (if j <=? p + byte_shift
     then (byte_at x (Z.to_nat (p + byte_shift)) * 2 ^ bit_shift) mod 256
     else 0)
    (if j <=? p + byte_shift + 1
     then byte_at x (Z.to_nat (p + byte_shift + 1)) / 2 ^ (8 - bit_shift)
     else 0).

(* ------------------------------------------------------------------ *)
(** ** interpreter.cpp: the small-integer opcodes *)

(** The cases [OP_1NEGATE], [OP_1], ..., [OP_16]: the argument of
    [CScriptNum bn((int)opcode - (int)(OP_1 - 1))] is an [int], which
    takes the [int64_t] constructor. *)
Definition op_small_integer (opcode : Z) (stack : list valtype)
    (stateContext : ScriptStateContext) : result outcome :=
  let bn := SmallNum (opcode - (OP_1 - 1)) in
  Ok (Next (stack ++ [getvch bn]) stateContext).

(* ------------------------------------------------------------------ *)
(** ** interpreter.cpp: the bitwise opcodes *)

Definition OP_INVERT : Z := 0x83.
Definition OP_AND : Z := 0x84.
Definition OP_OR : Z := 0x85.
Definition OP_XOR : Z := 0x86.

(** [for (size_t i = 0; i < vch1.size(); ++i) vch1[i] = f(vch1[i],
    vch2[i])], the result cut to a [uint8_t]. *)
Definition bitwise_loop (f : Z -> Z -> Z) (vch1 vch2 : list byte)
  : list byte :=
  fold_left
    (fun vch1 i =>
       assign_at vch1 i (z2b (f (b2z (nth i vch1 x00))
                                (b2z (nth i vch2 x00)))))
    (seq 0 (length vch1)) vch1.

(** [stacktop(-i) = v], the write through the reference. *)
Definition set_stacktop_at (stack : list valtype) (i : nat) (v : valtype)
  : list valtype :=
  assign_at stack (length stack - i) v.

(** The cases [OP_AND], [OP_OR] and [OP_XOR]. *)
Definition op_bitwise (opcode : Z) (stack : list valtype)
    (stateContext : ScriptStateContext) : result outcome :=
  if (length stack <? 2)%nat then
    Ok (Error ScriptError.INVALID_STACK_OPERATION)
  else
    vch1 <-- stacktop_at stack 2 ;;
    vch2 <-- stacktop_at stack 1 ;;
    if negb (length vch1 =? length vch2)%nat then
      Ok (Error ScriptError.INVALID_OPERAND_SIZE)
    else
      let vch1 :=
        if opcode =? OP_AND then bitwise_loop Z.land vch1 vch2
        else if opcode =? OP_OR then bitwise_loop Z.lor vch1 vch2
        else if opcode =? OP_XOR then bitwise_loop Z.lxor vch1 vch2
        else vch1 in
      let stack := set_stacktop_at stack 2 vch1 in
      Ok (Next (popstack stack) stateContext).

(** The case [OP_INVERT]: [vch1[i] = ~vch1[i]]. *)
Definition op_INVERT (stack : list valtype)
    (stateContext : ScriptStateContext) : result outcome :=
  if (length stack <? 1)%nat then
    Ok (Error ScriptError.INVALID_STACK_OPERATION)
  else
    vch1 <-- stacktop_at stack 1 ;;
    let vch1 := bitwise_loop (fun a _ => Z.lnot a) vch1 vch1 in
    Ok (Next (set_stacktop_at stack 1 vch1) stateContext).

(* ------------------------------------------------------------------ *)
(** ** interpreter.cpp: the numeric opcodes *)

Definition OP_1ADD : Z := 0x8b.
Definition OP_1SUB : Z := 0x8c.
Definition OP_NEGATE : Z := 0x8f.
Definition OP_ABS : Z := 0x90.
Definition OP_NOT : Z := 0x91.
Definition OP_0NOTEQUAL : Z := 0x92.
Definition OP_ADD : Z := 0x93.
Definition OP_SUB : Z := 0x94.
Definition OP_MUL : Z := 0x95.
Definition OP_DIV : Z := 0x96.
Definition OP_MOD : Z := 0x97.
Definition OP_BOOLAND : Z := 0x9a.
Definition OP_BOOLOR : Z := 0x9b.
Definition OP_NUMEQUAL : Z := 0x9c.
Definition OP_NUMEQUALVERIFY : Z := 0x9d.
Definition OP_NUMNOTEQUAL : Z := 0x9e.
Definition OP_LESSTHAN : Z := 0x9f.
Definition OP_GREATERTHAN : Z := 0xa0.
Definition OP_LESSTHANOREQUAL : Z := 0xa1.
Definition OP_GREATERTHANOREQUAL : Z := 0xa2.
Definition OP_MIN : Z := 0xa3.
Definition OP_MAX : Z := 0xa4.

(** [bn = b] for a [bool]: [CScriptNum::operator=(int64_t)]. *)
Definition CScriptNum_of_bool (b : bool) : CScriptNum :=
  SmallNum (if b then 1 else 0).

(** The inner [switch] of the one-operand case, on the integer [a] the
    operand holds.  The operand is built from bytes, so it holds a
    [bigint], and so do the sum, the difference and the negation. *)
Definition unary_arith (opcode a : Z) : CScriptNum :=
  if opcode =? OP_1ADD then BigNum (a + 1)
  else if opcode =? OP_1SUB then BigNum (a - 1)
  else if opcode =? OP_NEGATE then BigNum (- a)
  else if opcode =? OP_ABS then BigNum (if a <? 0 then - a else a)
  else if opcode =? OP_NOT then CScriptNum_of_bool (a =? 0)
  else if opcode =? OP_0NOTEQUAL then CScriptNum_of_bool (negb (a =? 0))
  else BigNum a.

(** The cases [OP_1ADD], [OP_1SUB], [OP_NEGATE], [OP_ABS], [OP_NOT] and
    [OP_0NOTEQUAL]. *)
Definition op_unary_arith (opcode : Z) (stack : list valtype)
    (stateContext : ScriptStateContext) : result outcome :=
  if (length stack <? 1)%nat then
    Ok (Error ScriptError.INVALID_STACK_OPERATION)
  else
    vch <-- stacktop_at stack 1 ;;
    bn <-- CScriptNum_of_bytes vch MAXIMUM_ITEM_SIZE ;;
    let bn := unary_arith opcode (CScriptNum_value bn) in
    let stack := popstack stack in
    Ok (Next (stack ++ [getvch bn]) stateContext).

(** The inner [switch] of the two-operand case, on the integers [a] and
    [b] the operands hold; [inl] is a [return set_error(...)].  Both
    operands hold a [bigint]; [BN_div] and [BN_mod] round the quotient
    towards zero; without a matching label [bn] stays the [CScriptNum()]
    it was declared as. *)
Definition binary_arith (opcode a b : Z) : ScriptError.t + CScriptNum :=
  if opcode =? OP_ADD then inr (BigNum (a + b))
  else if opcode =? OP_SUB then inr (BigNum (a - b))
  else if opcode =? OP_MUL then inr (BigNum (a * b))
  else if opcode =? OP_DIV then
    if b =? 0 then inl ScriptError.DIV_BY_ZERO
    else inr (BigNum (Z.quot a b))
  else if opcode =? OP_MOD then
    if b =? 0 then inl ScriptError.MOD_BY_ZERO
    else inr (BigNum (Z.rem a b))
  else if opcode =? OP_BOOLAND then
    inr (CScriptNum_of_bool (negb (a =? 0) && negb (b =? 0)))
  else if opcode =? OP_BOOLOR then
    inr (CScriptNum_of_bool (negb (a =? 0) || negb (b =? 0)))
  else if opcode =? OP_NUMEQUAL then inr (CScriptNum_of_bool (a =? b))
  else if opcode =? OP_NUMEQUALVERIFY then
    inr (CScriptNum_of_bool (a =? b))
  else if opcode =? OP_NUMNOTEQUAL then
    inr (CScriptNum_of_bool (negb (a =? b)))
  else if opcode =? OP_LESSTHAN then inr (CScriptNum_of_bool (a <? b))
  else if opcode =? OP_GREATERTHAN then inr (CScriptNum_of_bool (b <? a))
  else if opcode =? OP_LESSTHANOREQUAL then
    inr (CScriptNum_of_bool (negb (b <? a)))
  else if opcode =? OP_GREATERTHANOREQUAL then
    inr (CScriptNum_of_bool (negb (a <? b)))
  else if opcode =? OP_MIN then inr (BigNum (if a <? b then a else b))
  else if opcode =? OP_MAX then inr (BigNum (if b <? a then a else b))
  else inr (SmallNum 0).

(** The cases [OP_ADD], ..., [OP_MAX]. *)
Definition op_binary_arith (opcode : Z) (stack : list valtype)
    (stateContext : ScriptStateContext) : result outcome :=
  if (length stack <? 2)%nat then
    Ok (Error ScriptError.INVALID_STACK_OPERATION)
  else
    vch1 <-- stacktop_at stack 2 ;;
    bn1 <-- CScriptNum_of_bytes vch1 MAXIMUM_ITEM_SIZE ;;
    vch2 <-- stacktop_at stack 1 ;;
    bn2 <-- CScriptNum_of_bytes vch2 MAXIMUM_ITEM_SIZE ;;
    match binary_arith opcode (CScriptNum_value bn1) (CScriptNum_value bn2)
    with
    | inl serror => Ok (Error serror)
    | inr bn =>
        let stack := popstack (popstack stack) in
        let stack := stack ++ [getvch bn] in
        if opcode =? OP_NUMEQUALVERIFY then
          top <-- stacktop_at stack 1 ;;
          if CastToBool top then Ok (Next (popstack stack) stateContext)
          else Ok (Error ScriptError.NUMEQUALVERIFY)
        else Ok (Next stack stateContext)
    end.

(* ================================================================== *)
(** * Part II: properties *)
(* ================================================================== *)

(** ** Condition stack *)

Section ConditionStackFacts.
Import ConditionStack.

















Lemma naive_iter_push_nonempty n l :
  (0 < n)%N -> Naive.empty (N.iter n (Naive.push_back true) l) = false.
Proof.
  intro Hn. destruct n as [|p]; [lia|].
  replace (N.pos p) with (N.succ (N.pred (N.pos p))) by lia.
  rewrite N.iter_succ. unfold Naive.push_back.
  destruct (N.iter _ _ l); reflexivity.
Qed.




End ConditionStackFacts.

(** ** The verifier's verdict on the final stack *)

Section VerifierFacts.
Variable State : Type.
Variable EvalScript : list valtype -> CScript -> State -> EvalResult State.

(** C7. When the verifier's two evaluations (the push-only unlocking
    script, then the locking script) both complete without error, the
    verification succeeds iff the final stack is non-empty, its top
    casts to true and its depth is 1; an empty stack or a false top is
    [EVAL_FALSE], a true top at depth above 1 is [CLEANSTACK]. *)
Theorem C7_verify_final_stack_verdict scriptSig scriptPubKey st :
  IsPushOnly scriptSig = true ->
  ev_ok (EvalScript [] scriptSig st) = true ->
  ev_ok (eval_lock EvalScript scriptSig scriptPubKey st) = true ->
  let stack := ev_stack (eval_lock EvalScript scriptSig scriptPubKey st) in
  let out := VerifyScriptAvm EvalScript scriptSig scriptPubKey st in
  (vr_ok out = true <->
     stack <> [] /\ CastToBool (last stack []) = true
     /\ length stack = 1%nat)
  /\ (stack = [] \/ CastToBool (last stack []) = false ->
      vr_ok out = false /\ vr_serror out = ScriptError.EVAL_FALSE)
  /\ (stack <> [] -> CastToBool (last stack []) = true ->
      (1 < length stack)%nat ->
      vr_ok out = false /\ vr_serror out = ScriptError.CLEANSTACK).
Proof.
  intros Hpush H1 H2 stack out. subst out. unfold VerifyScriptAvm.
  rewrite Hpush, H1. cbn [negb].
  fold (eval_lock EvalScript scriptSig scriptPubKey st).
  rewrite H2. cbn [negb]. fold stack.
  destruct stack as [|v stack'] eqn:Es.
  - cbn. split; [|split].
    + split; [discriminate|]. intros (H & _); congruence.
    + auto.
    + intros H; congruence.
  - rewrite <- Es.
    assert (Hne : stack <> []) by (rewrite Es; discriminate).
    destruct (CastToBool (last stack [])) eqn:Ec; cbn [negb].
    + destruct (Nat.eqb_spec (length stack) 1) as [El|El]; cbn [negb].
      * cbn. split; [|split].
        -- split; auto.
        -- intros [H|H]; congruence.
        -- intros _ _ Hl. lia.
      * cbn. split; [|split].
        -- split; [discriminate|]. intros (_ & _ & H); congruence.
        -- intros [H|H]; congruence.
        -- auto.
    + cbn. split; [|split].
      * split; [discriminate|]. intros (_ & H & _); congruence.
      * auto.
      * intros _ H; congruence.
Qed.
End VerifierFacts.

Lemma C7_verify_final_stack_verdict_witness :
  vr_ok (VerifyScriptAvm sample_eval [] [x51] tt) = true /\
  vr_serror (VerifyScriptAvm sample_eval [] [x51; x51] tt)
    = ScriptError.OK.
Proof.
  pose proof (C7_verify_final_stack_verdict sample_eval [] [x51] tt
                eq_refl eq_refl eq_refl) as (H & _).
  split; [|reflexivity].
  apply H. cbn. repeat split; discriminate.
Defined.

(** ** The signature marker of an output script *)

(** From the sixth byte on the reads are guarded: a script of five bytes
    or more is read within its bounds. *)
Lemma IsSigOpReturn_in_bounds script :
  (5 <= length script)%nat -> exists r, IsSigOpReturn script = InBounds r.
Proof.
  intro H.
  destruct script as [|b0 [|b1 [|b2 [|b3 [|b4 r]]]]];
    cbn [length] in H; try lia.
  unfold IsSigOpReturn, hasSigMarker, deref.
  cbn [nth_error access_bind].
  destruct (negb (IsUnspendable _)); [eauto|].
  destruct (negb (b2z b1 =? 3)); [cbn; eauto|].
  destruct (negb (b2z b2 =? 115)); [cbn; eauto|].
  destruct (negb (b2z b3 =? 105)); [cbn; eauto|].
  cbn [access_bind].
  destruct (negb (b2z b4 =? 103)); [eauto|].
  destruct (GetOp _ 5) as [[[pc opcode] item]|]; [|eauto].
  destruct (OP_PUSHDATA4 <? opcode); eauto.
Qed.

(** C10. On the one-byte script [OP_RETURN] the marker test of
    [IsSigOpReturn] dereferences [begin() + 1], one past the last byte of
    the script, instead of returning [false]; [getAuthSig] makes that
    read for such an output of the transaction. *)
Theorem C10_IsSigOpReturn_reads_past_end :
  IsSigOpReturn [x6a] = OutOfBounds 1
  /\ getAuthSig short_return_context = OutOfBounds 1.
Proof. split; reflexivity. Qed.

(** ** Numbers: [avm::bigint], [CScriptNum] and their byte strings *)

(** ** Bytes *)

Lemma b2z_range b : 0 <= b2z b < 256.
Proof.
  unfold b2z. pose proof (Byte.to_N_bounded b). lia.
Qed.

Lemma b2z_z2b z : b2z (z2b z) = z mod 256.
Proof.
  unfold z2b, b2z.
  assert (H : 0 <= z mod 256 < 256) by (apply Z.mod_pos_bound; lia).
  destruct (Byte.of_N (Z.to_N (z mod 256))) as [b|] eqn:E.
  - apply Byte.to_of_N in E. rewrite E. lia.
  - apply Byte.of_N_None_iff in E. lia.
Qed.

Lemma z2b_b2z b : z2b (b2z b) = b.
Proof.
  unfold z2b, b2z. pose proof (Byte.to_N_bounded b).
  rewrite Z.mod_small by lia. rewrite N2Z.id, Byte.of_to_N. reflexivity.
Qed.

Lemma z2b_mod z : z2b (z mod 256) = z2b z.
Proof. unfold z2b. now rewrite Z.mod_mod by lia. Qed.

Lemma b2z_inj a b : b2z a = b2z b -> a = b.
Proof. intro H. rewrite <- (z2b_b2z a), <- (z2b_b2z b). now f_equal. Qed.

Lemma byte_bit7 b : (Z.land (b2z b) 0x80 =? 0) = (b2z b <? 128).
Proof. destruct b; reflexivity. Qed.

Lemma byte_low7 b : (Z.land (b2z b) 0x7f =? 0) = (b2z b mod 128 =? 0).
Proof. destruct b; reflexivity. Qed.

Lemma byte_or80 b : b2z b < 128 -> Z.lor (b2z b) 0x80 = b2z b + 128.
Proof. destruct b; cbv; intro H; try reflexivity; discriminate H. Qed.

(** ** Little-endian strings *)

Lemma length_le_bytes k a : length (le_bytes k a) = k.
Proof. revert a; induction k; intro a; simpl; auto. Qed.

Lemma le_value_range l : 0 <= le_value l < 256 ^ Z.of_nat (length l).
Proof.
  induction l as [|b r IH]; [simpl; lia|].
  cbn [le_value length]. rewrite Nat2Z.inj_succ, Z.pow_succ_r by lia.
  pose proof (b2z_range b).
  remember (256 ^ Z.of_nat (length r)) as X. lia.
Qed.

Lemma le_value_app l1 l2 :
  le_value (l1 ++ l2) = le_value l1 + 256 ^ Z.of_nat (length l1) * le_value l2.
Proof.
  induction l1 as [|b r IH].
  { cbn [app le_value length]. change (Z.of_nat 0) with 0.
    rewrite Z.pow_0_r. lia. }
  cbn [app le_value length]. rewrite IH, Nat2Z.inj_succ, Z.pow_succ_r by lia.
  ring.
Qed.

Lemma le_value_le_bytes k a :
  0 <= a -> le_value (le_bytes k a) = a mod 256 ^ Z.of_nat k.
Proof.
  revert a; induction k as [|k IH]; intros a Ha.
  - simpl. now rewrite Z.mod_1_r.
  - cbn [le_bytes le_value]. rewrite b2z_z2b, IH by (apply Z.div_pos; lia).
    rewrite Nat2Z.inj_succ, Z.pow_succ_r by lia.
    rewrite Z.rem_mul_r by lia. reflexivity.
Qed.

Lemma le_bytes_snoc k a :
  le_bytes (S k) a = le_bytes k a ++ [z2b (a / 256 ^ Z.of_nat k)].
Proof.
  revert a; induction k as [|k IH]; intro a.
  - simpl. now rewrite Z.div_1_r.
  - change (le_bytes (S (S k)) a) with (z2b a :: le_bytes (S k) (a / 256)).
    rewrite IH. cbn [le_bytes app]. do 3 f_equal.
    rewrite Nat2Z.inj_succ, Z.pow_succ_r, Z.div_div by lia. reflexivity.
Qed.

(** ** Position of the top byte *)

Lemma pow256 q : 0 <= q -> 256 ^ q = 2 ^ (8 * q).
Proof. intro. rewrite Z.pow_mul_r by lia. reflexivity. Qed.

Lemma top_index_split a :
  0 < a ->
  exists r, 0 <= r < 8 /\ 0 <= top_index a
            /\ 256 ^ top_index a * 2 ^ r <= a
            /\ a < 256 ^ top_index a * 2 ^ (r + 1)
            /\ Z.log2 a = 8 * top_index a + r.
Proof.
  intro Ha. unfold top_index.
  pose proof (Z.log2_nonneg a) as HL.
  destruct (Z.log2_spec a Ha) as [Hlo Hhi].
  set (L := Z.log2 a) in *.
  exists (L mod 8).
  pose proof (Z.mod_pos_bound L 8 ltac:(lia)) as Hr.
  pose proof (Z.div_mod L 8 ltac:(lia)) as Hd.
  assert (Hq : 0 <= L / 8) by (apply Z.div_pos; lia).
  repeat split; try lia.
  - rewrite pow256, <- Z.pow_add_r by lia.
    replace (8 * (L / 8) + L mod 8) with L by lia. exact Hlo.
  - rewrite pow256, <- Z.pow_add_r by lia.
    replace (8 * (L / 8) + (L mod 8 + 1)) with (Z.succ L) by lia. exact Hhi.
Qed.

Lemma top_index_bounds a :
  0 < a ->
  0 <= top_index a /\ 256 ^ top_index a <= a < 256 ^ (top_index a + 1).
Proof.
  intro Ha. destruct (top_index_split Ha) as (r & Hr & Hq & Hlo & Hhi & _).
  assert (HP : 0 < 256 ^ top_index a) by (apply Z.pow_pos_nonneg; lia).
  assert (H1 : 1 <= 2 ^ r) by (apply (Z.pow_le_mono_r 2 0 r); lia).
  assert (H2 : 2 ^ (r + 1) <= 2 ^ 8) by (apply Z.pow_le_mono_r; lia).
  change (2 ^ 8) with 256 in H2.
  rewrite Z.pow_add_r, Z.pow_1_r by lia.
  split; [exact Hq|]. split; nia.
Qed.

Lemma top_byte_range a :
  0 < a -> 1 <= a / 256 ^ top_index a < 256.
Proof.
  intro Ha. destruct (top_index_bounds Ha) as (Hq & Hlo & Hhi).
  assert (HP : 0 < 256 ^ top_index a) by (apply Z.pow_pos_nonneg; lia).
  rewrite Z.pow_add_r, Z.pow_1_r in Hhi by lia. split.
  - apply Z.div_le_lower_bound; lia.
  - apply Z.div_lt_upper_bound; lia.
Qed.

Lemma top_byte_ext a :
  0 < a ->
  (Z.land (Z.log2 a + 1) 7 =? 0) = (128 <=? a / 256 ^ top_index a).
Proof.
  intro Ha. destruct (top_index_split Ha) as (r & Hr & Hq & Hlo & Hhi & HL).
  assert (HP : 0 < 256 ^ top_index a) by (apply Z.pow_pos_nonneg; lia).
  change 7 with (Z.ones 3). rewrite Z.land_ones by lia.
  change (2 ^ 3) with 8. rewrite HL.
  replace (8 * top_index a + r + 1) with ((r + 1) + top_index a * 8) by lia.
  rewrite Z.mod_add by lia.
  destruct (Z.eq_dec r 7) as [->|Hn].
  - change ((7 + 1) mod 8) with 0. change (2 ^ 7) with 128 in Hlo.
    symmetry. apply Z.leb_le. apply Z.div_le_lower_bound; lia.
  - rewrite Z.mod_small by lia.
    destruct (Z.eqb_spec (r + 1) 0); [lia|]. symmetry. apply Z.leb_gt.
    apply Z.div_lt_upper_bound; [lia|].
    assert (H2 : 2 ^ (r + 1) <= 2 ^ 7) by (apply Z.pow_le_mono_r; lia).
    change (2 ^ 7) with 128 in H2. nia.
Qed.

Lemma num_bytes_top a : 0 < a -> (Z.log2 a + 1 + 7) / 8 = top_index a + 1.
Proof.
  intro Ha. unfold top_index.
  replace (Z.log2 a + 1 + 7) with (Z.log2 a + 1 * 8) by lia.
  rewrite Z.div_add by lia. reflexivity.
Qed.

Lemma bigint_serialize_canonical n : bigint_serialize n = sign_magnitude_le n.
Proof.
  unfold bigint_serialize, BN_bn2mpi, sign_magnitude_le, sign_tail,
    BN_bn2bin, BN_num_bytes, BN_num_bits.
  rewrite skipn_app, length_rev, length_le_bytes.
  rewrite skipn_all2 by (rewrite length_rev, length_le_bytes; lia).
  change (4 - 4)%nat with 0%nat. cbn [skipn app].
  destruct (Z.eqb_spec n 0) as [->|Hn]; [reflexivity|].
  assert (Ha : 0 < Z.abs n) by lia.
  pose proof (Z.log2_nonneg (Z.abs n)) as HL.
  destruct (Z.ltb_spec 0 (Z.log2 (Z.abs n) + 1)); [|lia]. cbn [andb].
  rewrite top_byte_ext, num_bytes_top by assumption.
  destruct (top_index_bounds Ha) as (Hq & _).
  pose proof (top_byte_range Ha) as Ht.
  replace (Z.to_nat (top_index (Z.abs n) + 1))
    with (S (Z.to_nat (top_index (Z.abs n)))) by lia.
  rewrite le_bytes_snoc, Z2Nat.id by lia.
  set (t := Z.abs n / 256 ^ top_index (Z.abs n)) in *.
  set (lo := le_bytes _ _).
  destruct (Z.leb_spec 128 t) as [Ht'|Ht']; destruct (Z.ltb_spec n 0).
  - cbn [app or_first rev]. rewrite rev_involutive, <- app_assoc.
    reflexivity.
  - cbn [app rev]. rewrite rev_involutive, <- app_assoc. reflexivity.
  - cbn [app]. rewrite rev_app_distr. cbn [rev app or_first].
    rewrite rev_involutive.
    rewrite byte_or80 by (rewrite b2z_z2b, Z.mod_small; lia).
    rewrite b2z_z2b, Z.mod_small by lia. reflexivity.
  - cbn [app]. rewrite rev_involutive. reflexivity.
Qed.

Lemma top_index_unique a q :
  0 <= q -> 256 ^ q <= a < 256 ^ (q + 1) -> top_index a = q.
Proof.
  intros Hq [Hlo Hhi].
  assert (Ha : 0 < a).
  { pose proof (Z.pow_pos_nonneg 256 q ltac:(lia) Hq). lia. }
  destruct (top_index_bounds Ha) as (Hq' & Hlo' & Hhi').
  destruct (Z.lt_trichotomy (top_index a) q) as [H|[H|H]]; [|exact H|].
  - assert (256 ^ (top_index a + 1) <= 256 ^ q)
      by (apply Z.pow_le_mono_r; lia). lia.
  - assert (256 ^ (q + 1) <= 256 ^ top_index a)
      by (apply Z.pow_le_mono_r; lia). lia.
Qed.

Lemma land_ff a : Z.land a 0xff = a mod 256.
Proof. change 0xff with (Z.ones 8). now rewrite Z.land_ones by lia. Qed.

Lemma shiftr_8 a : Z.shiftr a 8 = a / 256.
Proof. now rewrite Z.shiftr_div_pow2 by lia. Qed.

Lemma small_bit7 t : 0 <= t < 256 -> (Z.land t 0x80 =? 0) = (t <? 128).
Proof.
  intro Ht. rewrite <- (Z.mod_small t 256), <- b2z_z2b by lia.
  apply byte_bit7.
Qed.

Lemma small_or80 t : 0 <= t < 128 -> Z.lor t 0x80 = t + 128.
Proof.
  intro Ht. rewrite <- (Z.mod_small t 256), <- b2z_z2b by lia.
  apply byte_or80. rewrite b2z_z2b, Z.mod_small; lia.
Qed.

Lemma serialize_loop_canonical fuel : forall negative a,
  0 < a < 256 ^ Z.of_nat fuel ->
  serialize_loop fuel negative a =
    le_bytes (Z.to_nat (top_index a)) a
      ++ sign_tail negative (a / 256 ^ top_index a).
Proof.
  induction fuel as [|f IH]; intros negative a Ha.
  - change (256 ^ Z.of_nat 0) with 1 in Ha. lia.
  - cbn [serialize_loop]. destruct (Z.eqb_spec a 0); [lia|].
    rewrite land_ff, shiftr_8.
    destruct (Z.eqb_spec (a / 256) 0) as [E|E]; cbn [negb].
    + assert (Hs : 0 < a < 256).
      { split; [lia|]. destruct (Z.lt_ge_cases a 256); [assumption|].
        assert (1 <= a / 256) by (apply Z.div_le_lower_bound; lia). lia. }
      rewrite (@top_index_unique a 0) by (simpl; lia).
      change (256 ^ 0) with 1. rewrite Z.div_1_r, Z.mod_small by lia.
      cbn [Z.to_nat le_bytes app]. unfold sign_tail.
      rewrite small_bit7 by lia.
      destruct (Z.ltb_spec a 128); destruct (Z.leb_spec 128 a); try lia;
        cbn [negb]; [|reflexivity].
      destruct negative; [|reflexivity]. now rewrite small_or80 by lia.
    + assert (Hp : 0 < a / 256).
      { assert (0 <= a / 256) by (apply Z.div_pos; lia). lia. }
      assert (Hb : a / 256 < 256 ^ Z.of_nat f).
      { apply Z.div_lt_upper_bound; [lia|].
        rewrite Nat2Z.inj_succ, Z.pow_succ_r in Ha by lia. lia. }
      rewrite IH by lia.
      destruct (top_index_bounds Hp) as (Hq & Hlo & Hhi).
      set (q := top_index (a / 256)) in *.
      assert (Hq1 : top_index a = q + 1).
      { apply top_index_unique; [lia|].
        pose proof (Z.div_mod a 256 ltac:(lia)).
        pose proof (Z.mod_pos_bound a 256 ltac:(lia)).
        rewrite !(Z.pow_add_r _ _ 1), !Z.pow_1_r in * by lia. lia. }
      rewrite Hq1.
      replace (Z.to_nat (q + 1)) with (S (Z.to_nat q)) by lia.
      cbn [le_bytes app]. rewrite z2b_mod.
      rewrite Z.pow_add_r, Z.pow_1_r by lia.
      rewrite (Z.mul_comm (256 ^ q) 256), <- Z.div_div by
        (try lia; apply Z.pow_pos_nonneg; lia).
      reflexivity.
Qed.

Lemma avm_abs_int64 n :
  INT64_MIN <= n <= INT64_MAX -> avm_abs n = Z.abs n.
Proof.
  unfold INT64_MIN, INT64_MAX, avm_abs, u64. intro H.
  destruct (Z.ltb_spec n 0).
  - rewrite <- (Z.mod_add n 1) by lia. rewrite (Z.mod_small (n + _)) by lia.
    rewrite <- (Z.mod_add _ 1) by lia. rewrite Z.mod_small by lia. lia.
  - rewrite Z.mod_small by lia. lia.
Qed.

Lemma sign_magnitude_le_tail n :
  n <> 0 ->
  sign_magnitude_le n =
    le_bytes (Z.to_nat (top_index (Z.abs n))) (Z.abs n)
      ++ sign_tail (n <? 0) (Z.abs n / 256 ^ top_index (Z.abs n)).
Proof.
  intro Hn. unfold sign_magnitude_le.
  destruct (Z.eqb_spec n 0); [contradiction|]. reflexivity.
Qed.

Lemma serialize_int64_canonical n :
  INT64_MIN <= n <= INT64_MAX -> serialize_int64 n = sign_magnitude_le n.
Proof.
  intro H. unfold serialize_int64.
  destruct (Z.eqb_spec n 0) as [->|Hn]; [reflexivity|].
  rewrite avm_abs_int64, sign_magnitude_le_tail by assumption.
  apply serialize_loop_canonical.
  unfold INT64_MIN, INT64_MAX in H. change (256 ^ Z.of_nat 8) with
    18446744073709551616. lia.
Qed.

(** ** Decoding *)

Lemma clearbit_top a k :
  0 <= k -> 2 ^ k <= a < 2 ^ (k + 1) -> Z.clearbit a k = a - 2 ^ k.
Proof.
  intros Hk [Hlo Hhi].
  rewrite Z.clearbit_spec'.
  symmetry. apply Z.sub_nocarry_ldiff.
  apply Z.bits_inj'. intros m Hm.
  rewrite Z.ldiff_spec, Z.bits_0, Z.pow2_bits_eqb by lia.
  destruct (Z.eqb_spec k m) as [<-|]; [|reflexivity].
  cbn [andb]. apply negb_false_iff. apply Z.testbit_true; [lia|].
  assert (HP : 0 < 2 ^ k) by (apply Z.pow_pos_nonneg; lia).
  rewrite Z.pow_add_r, Z.pow_1_r in Hhi by lia.
  replace (a / 2 ^ k) with 1; [reflexivity|].
  apply Z.div_unique with (r := a - 2 ^ k); lia.
Qed.

Lemma size_bytes size :
  [z2b (Z.land (Z.shiftr size 24) 0xff);
   z2b (Z.land (Z.shiftr size 16) 0xff);
   z2b (Z.land (Z.shiftr size 8) 0xff);
   z2b (Z.land (Z.shiftr size 0) 0xff)] = rev (le_bytes 4 size).
Proof.
  cbn [le_bytes rev app]. rewrite !land_ff, !z2b_mod.
  rewrite !Z.shiftr_div_pow2 by lia.
  rewrite !Z.div_div by lia. change (2 ^ 0) with 1.
  rewrite Z.div_1_r. reflexivity.
Qed.

Lemma firstn_app_length {A} (l1 l2 : list A) n :
  length l1 = n -> firstn n (l1 ++ l2) = l1.
Proof.
  intros <-. rewrite firstn_app, Nat.sub_diag, firstn_all. cbn [firstn].
  apply app_nil_r.
Qed.

Lemma skipn_app_length {A} (l1 l2 : list A) n :
  length l1 = n -> skipn n (l1 ++ l2) = l2.
Proof.
  intros <-. rewrite skipn_app, Nat.sub_diag, skipn_all. reflexivity.
Qed.

Lemma BN_mpi2bn_framed body :
  body <> [] -> Z.of_nat (length body) < 2 ^ 31 ->
  BN_mpi2bn (rev (le_bytes 4 (Z.of_nat (length body))) ++ body) =
    Some (if Z.land (b2z (nth 0 body x00)) 0x80 =? 0
          then be_value body
          else - Z.clearbit (be_value body)
                   (BN_num_bits (be_value body) - 1)).
Proof.
  intros Hne Hlen. unfold BN_mpi2bn.
  set (size := Z.of_nat (length body)) in *.
  assert (Hsz : 0 < size).
  { unfold size. destruct body; [contradiction|]. simpl length. lia. }
  set (hd := rev (le_bytes 4 size)).
  assert (Hhd : length hd = 4%nat)
    by (unfold hd; now rewrite length_rev, length_le_bytes).
  rewrite length_app, Hhd.
  destruct (Nat.ltb_spec (4 + length body) 4); [lia|].
  assert (Hn0 : nth 0 (hd ++ body) x00 = z2b (size / 2 ^ 24)).
  { unfold hd. cbn [le_bytes rev app nth]. now rewrite !Z.div_div by lia. }
  rewrite Hn0, b2z_z2b, small_bit7 by (apply Z.mod_pos_bound; lia).
  assert (H24 : 0 <= size / 2 ^ 24 < 128).
  { split; [apply Z.div_pos; lia|]. apply Z.div_lt_upper_bound; lia. }
  rewrite Z.mod_small by lia.
  destruct (Z.ltb_spec (size / 2 ^ 24) 128); [|lia]. cbn [negb].
  rewrite (firstn_app_length hd body Hhd), (skipn_app_length hd body Hhd).
  unfold be_value at 1 2. unfold hd. rewrite rev_involutive.
  rewrite le_value_le_bytes by lia.
  change (256 ^ Z.of_nat 4) with (2 ^ 32). rewrite Z.mod_small by lia.
  replace (Z.of_nat (4 + length body)) with (size + 4)
    by (unfold size; lia).
  rewrite Z.eqb_refl. cbn [negb].
  destruct (Z.eqb_spec size 0); [lia|].
  destruct (Z.land (b2z (nth 0 body x00)) 128 =? 0); reflexivity.
Qed.

Lemma bigint_deserialize_value r x :
  Z.of_nat (length (r ++ [x])) < 2 ^ 31 ->
  bigint_deserialize (r ++ [x]) =
    Some (if b2z x <? 128 then le_value (r ++ [x])
          else - (le_value (r ++ [x]) - 2 ^ (8 * Z.of_nat (length r) + 7))).
Proof.
  intro Hlen. unfold bigint_deserialize.
  rewrite size_bytes, <- (length_rev (r ++ [x])).
  rewrite BN_mpi2bn_framed;
    [|rewrite rev_app_distr; discriminate|now rewrite length_rev].
  unfold be_value. rewrite rev_involutive.
  set (l := r ++ [x]) in *. unfold l at 1. rewrite rev_app_distr.
  cbn [rev app nth]. rewrite byte_bit7. f_equal.
  destruct (Z.ltb_spec (b2z x) 128) as [Hx|Hx]; [reflexivity|].
  f_equal.
  pose proof (le_value_range r) as Hr. pose proof (b2z_range x) as Hxr.
  assert (Hv : le_value l = le_value r + 256 ^ Z.of_nat (length r) * b2z x).
  { unfold l. rewrite le_value_app. cbn [le_value]. lia. }
  set (k := 8 * Z.of_nat (length r) + 7).
  assert (HP : 256 ^ Z.of_nat (length r) = 2 ^ (8 * Z.of_nat (length r)))
    by (apply pow256; lia).
  assert (HP0 : 0 < 2 ^ (8 * Z.of_nat (length r)))
    by (apply Z.pow_pos_nonneg; lia).
  assert (Hk : 2 ^ k <= le_value l < 2 ^ (k + 1)).
  { unfold k. rewrite !Z.pow_add_r by lia.
    change (2 ^ 7) with 128. change (2 ^ 1) with 2. rewrite Hv, HP in *.
    nia. }
  assert (Hl2 : Z.log2 (le_value l) = k).
  { apply Z.log2_unique; [unfold k; lia|].
    replace (Z.succ k) with (k + 1) by lia. exact Hk. }
  unfold BN_num_bits.
  assert (HPk : 0 < 2 ^ k) by (apply Z.pow_pos_nonneg; unfold k; lia).
  destruct (Z.eqb_spec (le_value l) 0) as [E0|_]; [lia|].
  rewrite Z.abs_eq, Hl2 by lia. replace (k + 1 - 1) with k by lia.
  apply clearbit_top; [unfold k; lia|exact Hk].
Qed.

(** ** Minimal encodings *)

Lemma IsMinimallyEncoded_one x cap :
  IsMinimallyEncoded [x] cap =
    negb (cap <? 1) && negb (b2z x mod 128 =? 0).
Proof.
  unfold IsMinimallyEncoded. cbn [length last].
  change (Z.of_nat 1) with 1. destruct (cap <? 1); [reflexivity|].
  cbn [negb andb Nat.ltb Nat.leb orb]. rewrite byte_low7.
  destruct (b2z x mod 128 =? 0); reflexivity.
Qed.

Lemma IsMinimallyEncoded_two r y x cap :
  IsMinimallyEncoded ((r ++ [y]) ++ [x]) cap =
    negb (cap <? Z.of_nat (length r) + 2)
    && (negb (b2z x mod 128 =? 0) || negb (b2z y <? 128)).
Proof.
  unfold IsMinimallyEncoded. rewrite last_last, !length_app.
  cbn [length]. replace (Z.of_nat (length r + 1 + 1))
    with (Z.of_nat (length r) + 2) by lia.
  destruct (cap <? Z.of_nat (length r) + 2); [reflexivity|].
  cbn [negb andb].
  destruct (Nat.ltb_spec 0 (length r + 1 + 1)); [|lia].
  destruct (Nat.leb_spec (length r + 1 + 1) 1); [lia|]. cbn [orb].
  replace (length r + 1 + 1 - 2)%nat with (length r) by lia.
  rewrite <- app_assoc. cbn [app]. rewrite nth_middle.
  rewrite byte_low7, byte_bit7.
  destruct (b2z x mod 128 =? 0); destruct (b2z y <? 128); reflexivity.
Qed.

Lemma le_value_split a q :
  0 <= a -> 0 <= q ->
  le_value (le_bytes (Z.to_nat q) a) + 256 ^ q * (a / 256 ^ q) = a.
Proof.
  intros Ha Hq. rewrite le_value_le_bytes, Z2Nat.id by lia.
  assert (0 < 256 ^ q) by (apply Z.pow_pos_nonneg; lia).
  symmetry. rewrite Z.add_comm. apply Z.div_mod. lia.
Qed.

(** Decoding the canonical form gives the number back, and the form is
    minimal. *)
Lemma of_bytes_sign_magnitude n cap :
  Z.of_nat (length (sign_magnitude_le n)) <= cap -> cap < 2 ^ 31 ->
  IsMinimallyEncoded (sign_magnitude_le n) cap = true
  /\ CScriptNum_of_bytes (sign_magnitude_le n) cap = Ok (BigNum n).
Proof.
  intros Hlen Hcap.
  destruct (Z.eq_dec n 0) as [->|Hn].
  { change (sign_magnitude_le 0) with (@nil byte) in *.
    unfold CScriptNum_of_bytes, IsMinimallyEncoded. cbn [length] in *.
    change (Z.of_nat 0) with 0 in *.
    destruct (Z.ltb_spec cap 0); [lia|]. split; reflexivity. }
  rewrite sign_magnitude_le_tail in * by assumption.
  assert (Ha : 0 < Z.abs n) by lia.
  destruct (top_index_bounds Ha) as (Hq & _).
  pose proof (top_byte_range Ha) as Ht.
  pose proof (@le_value_split (Z.abs n) (top_index (Z.abs n))
                ltac:(lia) Hq) as Hsplit.
  set (q := top_index (Z.abs n)) in *.
  set (t := Z.abs n / 256 ^ q) in *.
  set (lo := le_bytes (Z.to_nat q) (Z.abs n)) in *.
  assert (Hlo : Z.of_nat (length lo) = q)
    by (unfold lo; rewrite length_le_bytes; lia).
  assert (HP : 0 < 256 ^ q) by (apply Z.pow_pos_nonneg; lia).
  clearbody lo t q.
  assert (Hmin : IsMinimallyEncoded (lo ++ sign_tail (n <? 0) t) cap = true).
  { unfold sign_tail in *. destruct (Z.leb_spec 128 t).
    - change [z2b t; if n <? 0 then x80 else x00]
        with ([z2b t] ++ [if n <? 0 then x80 else x00]) in *.
      rewrite app_assoc in *. rewrite IsMinimallyEncoded_two.
      rewrite !length_app in Hlen. cbn [length] in Hlen.
      destruct (Z.ltb_spec cap (Z.of_nat (length lo) + 2)); [lia|].
      rewrite b2z_z2b, (Z.mod_small t 256) by lia.
      destruct (Z.ltb_spec t 128); [lia|]. now rewrite orb_true_r.
    - rewrite length_app in Hlen. cbn [length] in Hlen.
      assert (Hx : b2z (z2b (if n <? 0 then t + 128 else t)) mod 128 = t).
      { rewrite b2z_z2b. destruct (n <? 0).
        - rewrite (Z.mod_small (t + 128) 256) by lia.
          rewrite <- (Z.mod_add _ (-1)) by lia.
          replace (t + 128 + -1 * 128) with t by lia.
          apply Z.mod_small; lia.
        - rewrite (Z.mod_small t 256) by lia. apply Z.mod_small; lia. }
      destruct lo as [|b lo'] using rev_ind.
      + cbn [app]. rewrite IsMinimallyEncoded_one, Hx.
        destruct (Z.ltb_spec cap 1); [cbn in Hlen; lia|].
        destruct (Z.eqb_spec t 0); [lia|reflexivity].
      + rewrite IsMinimallyEncoded_two, Hx.
        rewrite length_app in Hlen. cbn [length] in Hlen.
        destruct (Z.ltb_spec cap (Z.of_nat (length lo') + 2)); [lia|].
        destruct (Z.eqb_spec t 0); [lia|reflexivity]. }
  split; [exact Hmin|].
  unfold CScriptNum_of_bytes. rewrite Hmin.
  destruct (Z.ltb_spec cap (Z.of_nat (length (lo ++ sign_tail (n <? 0) t))));
    [lia|]. cbn [negb].
  assert (Hd : bigint_deserialize (lo ++ sign_tail (n <? 0) t) = Some n).
  { unfold sign_tail in *. destruct (Z.leb_spec 128 t).
    - change [z2b t; if n <? 0 then x80 else x00]
        with ([z2b t] ++ [if n <? 0 then x80 else x00]) in *.
      rewrite app_assoc in *. rewrite bigint_deserialize_value by lia.
      f_equal. rewrite !le_value_app, length_app. cbn [length le_value].
      rewrite b2z_z2b, Z.mod_small by lia.
      replace (Z.of_nat (length lo + 1)) with (q + 1) by lia.
      rewrite Hlo.
      replace (8 * (q + 1) + 7) with (8 * q + 15) by lia.
      rewrite (Z.pow_add_r 2 (8 * q) 15), (Z.pow_add_r 256 q 1),
        <- (@pow256 q) by lia.
      change (2 ^ 15) with 32768. change (256 ^ 1) with 256.
      destruct (Z.ltb_spec n 0).
      + change (b2z x80) with 128. change (128 <? 128) with false.
        cbn match. lia.
      + change (b2z x00) with 0. change (0 <? 128) with true.
        cbn match. lia.
    - rewrite bigint_deserialize_value by lia.
      f_equal. rewrite le_value_app. cbn [le_value]. rewrite Hlo.
      rewrite b2z_z2b, (Z.pow_add_r 2 (8 * q) 7), <- (@pow256 q) by lia.
      change (2 ^ 7) with 128.
      destruct (Z.ltb_spec n 0).
      + rewrite (Z.mod_small (t + 128) 256) by lia.
        destruct (Z.ltb_spec (t + 128) 128); lia.
      + rewrite (Z.mod_small t 256) by lia.
        destruct (Z.ltb_spec t 128); lia. }
  rewrite Hd. destruct (lo ++ sign_tail (n <? 0) t) eqn:E; [|reflexivity].
  unfold sign_tail in E. destruct (128 <=? t);
    apply app_eq_nil in E; destruct E; discriminate.
Qed.

Lemma length_sign_magnitude_le n :
  n <> 0 ->
  top_index (Z.abs n) + 1 <= Z.of_nat (length (sign_magnitude_le n))
    <= top_index (Z.abs n) + 2.
Proof.
  intro Hn. rewrite sign_magnitude_le_tail by assumption.
  assert (Ha : 0 < Z.abs n) by lia.
  destruct (top_index_bounds Ha) as (Hq & _).
  rewrite length_app, length_le_bytes. unfold sign_tail.
  destruct (128 <=? _); cbn [length]; lia.
Qed.

Lemma le_bytes_of_value r c :
  0 <= c ->
  le_bytes (length r) (le_value r + 256 ^ Z.of_nat (length r) * c) = r.
Proof.
  intro Hc. induction r as [|b r IH]; [reflexivity|].
  cbn [length le_bytes le_value].
  rewrite Nat2Z.inj_succ, Z.pow_succ_r by lia.
  pose proof (b2z_range b) as Hb.
  replace (b2z b + 256 * le_value r + 256 * 256 ^ Z.of_nat (length r) * c)
    with (b2z b + (le_value r + 256 ^ Z.of_nat (length r) * c) * 256)
    by ring.
  rewrite <- z2b_mod, Z.mod_add, Z.mod_small, z2b_b2z by lia.
  rewrite Z.div_add, Z.div_small, Z.add_0_l by lia.
  now rewrite IH.
Qed.

Lemma byte_mod128_zero x :
  b2z x mod 128 = 0 -> x = x00 \/ x = x80.
Proof.
  destruct x; cbv; intro H; try discriminate H; auto.
Qed.

Lemma Ok_BigNum_inj a b : Ok (BigNum a) = Ok (BigNum b) -> a = b.
Proof. intro H. now injection H. Qed.

(** A minimally encoded string is the canonical form of its number. *)
Lemma sign_magnitude_of_bytes l cap n :
  cap < 2 ^ 31 ->
  CScriptNum_of_bytes l cap = Ok (BigNum n) -> sign_magnitude_le n = l.
Proof.
  intros Hcap. unfold CScriptNum_of_bytes.
  destruct (Z.ltb_spec cap (Z.of_nat (length l))) as [|Hlen]; [discriminate|].
  destruct (IsMinimallyEncoded l cap) eqn:Hmin; [|discriminate]. cbn [negb].
  destruct l as [|x r _] using rev_ind.
  { intro H; inversion H. reflexivity. }
  replace (match r ++ [x] with
           | [] => Ok (BigNum 0)
           | _ :: _ =>
               match bigint_deserialize (r ++ [x]) with
               | Some n => Ok (BigNum n)
               | None => Throw NullBignum
               end
           end)
    with (match bigint_deserialize (r ++ [x]) with
          | Some n => Ok (BigNum n)
          | None => Throw NullBignum
          end) by (destruct r; reflexivity).
  rewrite bigint_deserialize_value by lia.
  intro H. apply Ok_BigNum_inj in H. rename H into Hn.
  pose proof (b2z_range x) as Hx. pose proof (le_value_range r) as Hr.
  rewrite le_value_app in Hn. cbn [le_value] in Hn.
  rewrite Z.mul_0_r, Z.add_0_r in Hn.
  assert (HP : 0 < 256 ^ Z.of_nat (length r))
    by (apply Z.pow_pos_nonneg; lia).
  rewrite (Z.pow_add_r 2 (8 * Z.of_nat (length r)) 7),
    <- (@pow256 (Z.of_nat (length r))) in Hn by lia.
  change (2 ^ 7) with 128 in Hn.
  set (P := 256 ^ Z.of_nat (length r)) in *.
  destruct (Z.eq_dec (b2z x mod 128) 0) as [Hm|Hm].
  - (* the last byte carries the sign only *)
    destruct r as [|y r' _] using rev_ind.
    { cbn [app] in Hmin. rewrite IsMinimallyEncoded_one in Hmin.
      apply Z.eqb_eq in Hm. rewrite Hm in Hmin.
      now rewrite andb_false_r in Hmin. }
    rewrite IsMinimallyEncoded_two in Hmin.
    apply Z.eqb_eq in Hm. rewrite Hm in Hmin. cbn [negb orb] in Hmin.
    apply andb_true_iff in Hmin as [_ Hy]. apply negb_true_iff in Hy.
    apply Z.ltb_ge in Hy. apply Z.eqb_eq in Hm.
    pose proof (b2z_range y) as Hyr. pose proof (le_value_range r') as Hr'.
    unfold P in *. rewrite length_app in *. cbn [length] in *.
    rewrite le_value_app in *. cbn [le_value] in *.
    rewrite Z.mul_0_r, Z.add_0_r in *.
    replace (Z.of_nat (length r' + 1)) with (Z.of_nat (length r') + 1)
      in * by lia.
    rewrite (Z.pow_add_r 256 _ 1) in * by lia.
    change (256 ^ 1) with 256 in *.
    assert (HQ : 0 < 256 ^ Z.of_nat (length r'))
      by (apply Z.pow_pos_nonneg; lia).
    set (Q := 256 ^ Z.of_nat (length r')) in *.
    set (a := le_value r' + Q * b2z y) in *.
    assert (Ha : Q * 128 <= a < Q * 256) by (unfold a; nia).
    assert (Hnz : n <> 0 /\ Z.abs n = a /\ (n <? 0) = negb (b2z x <? 128)).
    { destruct (byte_mod128_zero x Hm) as [->| ->].
      - change (b2z x00) with 0 in *. change (0 <? 128) with true in *.
        cbv beta iota in Hn. cbn [negb]. subst n.
        split; [lia|]. split; [lia|]. apply Z.ltb_ge. lia.
      - change (b2z x80) with 128 in *. change (128 <? 128) with false in *.
        cbv beta iota in Hn. cbn [negb]. subst n.
        split; [lia|]. split; [lia|]. apply Z.ltb_lt. lia. }
    destruct Hnz as (Hnz & Habs & Hsgn).
    rewrite sign_magnitude_le_tail, Habs, Hsgn by assumption.
    assert (Hti : top_index a = Z.of_nat (length r')).
    { apply top_index_unique; [lia|].
      rewrite Z.pow_add_r by lia. change (256 ^ 1) with 256. fold Q. lia. }
    rewrite Hti, Nat2Z.id. fold Q.
    assert (Ht : a / Q = b2z y).
    { symmetry. apply Z.div_unique with (r := le_value r'); unfold a; lia. }
    rewrite Ht. unfold a, Q. rewrite le_bytes_of_value by lia.
    unfold sign_tail. destruct (Z.leb_spec 128 (b2z y)); [|lia].
    rewrite z2b_b2z, <- app_assoc. cbn [app]. do 3 f_equal.
    destruct (byte_mod128_zero x Hm) as [->| ->]; reflexivity.
  - (* the last byte carries magnitude bits *)
    set (m := b2z x mod 128) in *.
    pose proof (Z.mod_pos_bound (b2z x) 128 ltac:(lia)) as Hmr. fold m in Hmr.
    assert (Hxm : b2z x = if b2z x <? 128 then m else m + 128).
    { unfold m. destruct (Z.ltb_spec (b2z x) 128).
      - now rewrite Z.mod_small by lia.
      - rewrite <- (Z.mod_add _ (-1)) by lia.
        rewrite Z.mod_small by lia. lia. }
    set (a := le_value r + P * m) in *.
    assert (Ha : P <= a < P * 128) by (unfold a; nia).
    assert (Hnz : n <> 0 /\ Z.abs n = a /\ (n <? 0) = negb (b2z x <? 128)).
    { destruct (Z.ltb_spec (b2z x) 128); cbn [negb]; subst n.
      - rewrite Hxm. fold a. split; [lia|]. split; [lia|].
        apply Z.ltb_ge. lia.
      - rewrite Hxm. replace (le_value r + P * (m + 128) - P * 128)
          with a by (unfold a; ring).
        split; [lia|]. split; [lia|]. apply Z.ltb_lt. lia. }
    destruct Hnz as (Hnz & Habs & Hsgn).
    rewrite sign_magnitude_le_tail, Habs, Hsgn by assumption.
    assert (Hti : top_index a = Z.of_nat (length r)).
    { apply top_index_unique; [lia|].
      rewrite Z.pow_add_r by lia. change (256 ^ 1) with 256. fold P. lia. }
    rewrite Hti, Nat2Z.id. fold P.
    assert (Ht : a / P = m).
    { symmetry. apply Z.div_unique with (r := le_value r); unfold a; lia. }
    rewrite Ht. unfold a, P. rewrite le_bytes_of_value by lia.
    unfold sign_tail. destruct (Z.leb_spec 128 m); [lia|].
    do 2 f_equal. rewrite <- (z2b_b2z x) at 2. f_equal.
    destruct (b2z x <? 128); cbn [negb]; lia.
Qed.

Lemma getvch_canonical n :
  in_int64 n ->
  getvch n = sign_magnitude_le (match n with SmallNum z | BigNum z => z end).
Proof.
  destruct n as [z|z]; intro H; cbn [getvch].
  - now apply serialize_int64_canonical.
  - apply bigint_serialize_canonical.
Qed.

(** A number built from a stack byte string serializes to that string:
    its [getvch()] is within the cap the string passed. *)
Lemma getvch_of_bytes b n :
  CScriptNum_of_bytes b MAXIMUM_ITEM_SIZE = Ok n -> getvch n = b.
Proof.
  intro H.
  assert (Hb : exists z, n = BigNum z).
  { unfold CScriptNum_of_bytes in H.
    destruct (_ <? _); [discriminate|].
    destruct (negb _); [discriminate|].
    destruct b; [inversion H; eauto|].
    destruct (bigint_deserialize _); inversion H; eauto. }
  destruct Hb as [z ->]. cbn [getvch].
  rewrite bigint_serialize_canonical.
  apply (@sign_magnitude_of_bytes b MAXIMUM_ITEM_SIZE z);
    [reflexivity|exact H].
Qed.

(** C8 (as amended). For every [CScriptNum] whose [getvch()] is at most
    100000 bytes long (every [int64_t], every number built from a stack
    byte string under the cap, and the [bigint]s of that size),
    [getvch()] is minimally encoded and constructing a [CScriptNum] from
    it under the cap throws nothing and gives a number that compares
    equal. *)
Theorem C8_scriptnum_roundtrip_within_cap n :
  in_int64 n ->
  Z.of_nat (length (getvch n)) <= MAXIMUM_ITEM_SIZE ->
  IsMinimallyEncoded (getvch n) MAXIMUM_ITEM_SIZE = true
  /\ exists m,
       CScriptNum_of_bytes (getvch n) MAXIMUM_ITEM_SIZE = Ok m
       /\ CScriptNum_eqb m n = true.
Proof.
  intros Hr Hlen. rewrite getvch_canonical in * by assumption.
  destruct (@of_bytes_sign_magnitude
              (match n with SmallNum z | BigNum z => z end)
              MAXIMUM_ITEM_SIZE Hlen eq_refl) as [Hmin Hok].
  split; [exact Hmin|]. eexists. split; [exact Hok|].
  destruct n; cbn [CScriptNum_eqb]; apply Z.eqb_refl.
Qed.

Lemma C8_scriptnum_roundtrip_within_cap_witness :
  IsMinimallyEncoded (getvch (SmallNum (-255))) MAXIMUM_ITEM_SIZE = true
  /\ exists m,
       CScriptNum_of_bytes (getvch (SmallNum (-255))) MAXIMUM_ITEM_SIZE
         = Ok m
       /\ CScriptNum_eqb m (SmallNum (-255)) = true.
Proof.
  apply (C8_scriptnum_roundtrip_within_cap (SmallNum (-255))).
  - cbn. unfold INT64_MIN, INT64_MAX. lia.
  - vm_compute. discriminate.
Defined.

(** C8 (as stated) fails for a [bigint] beyond the cap: [2^800000], which
    [OP_MUL] can produce, serializes to 100001 bytes, and constructing a
    [CScriptNum] from them under the 100000-byte cap throws
    [ScriptnumOverflowException]. *)
Lemma C8_counterexample_bigint_beyond_cap :
  CScriptNum_of_bytes (getvch (BigNum (2 ^ 800000))) MAXIMUM_ITEM_SIZE
    = Throw ScriptnumOverflowException.
Proof.
  cbn [getvch]. rewrite bigint_serialize_canonical.
  generalize (Z.pow_pos_nonneg 2 800000 eq_refl (Zle_0_pos 800000)).
  generalize (Z.log2_pow2 800000 (Zle_0_pos 800000)).
  generalize (2 ^ 800000). intros N Hlog Hpos.
  assert (Hn : N <> 0) by lia.
  pose proof (length_sign_magnitude_le Hn) as [Hlo _].
  unfold top_index in Hlo. rewrite Z.abs_eq, Hlog in Hlo by lia.
  change (800000 / 8) with 100000 in Hlo.
  unfold CScriptNum_of_bytes.
  destruct (Z.ltb_spec MAXIMUM_ITEM_SIZE
              (Z.of_nat (length (sign_magnitude_le N)))) as [_|Hle];
    [reflexivity|].
  unfold MAXIMUM_ITEM_SIZE in Hle. lia.
Qed.

(** ** The contract state *)

(** ** Ordered maps *)

Section OmapFacts.
Variable V : Type.
Implicit Types (m : omap V) (k : string).

Lemma om_find_set k k' (v : V) m :
  om_find k (om_set k' v m) = if String.eqb k k' then Some v else om_find k m.
Proof.
  induction m as [|[k0 v0] r IH]; cbn [om_set om_find].
  - reflexivity.
  - destruct (String.eqb_spec k' k0) as [->|Hne]; cbn [om_find].
    + destruct (String.eqb k k0); reflexivity.
    + rewrite IH. destruct (String.eqb_spec k k0) as [->|]; [|reflexivity].
      destruct (String.eqb_spec k0 k'); [congruence|reflexivity].
Qed.

Lemma om_find_erase k k' m :
  om_find k (om_erase k' m) = if String.eqb k k' then None else om_find k m.
Proof.
  unfold om_erase. induction m as [|[k0 v0] r IH]; cbn [filter om_find fst].
  - destruct (String.eqb k k'); reflexivity.
  - destruct (String.eqb_spec k' k0) as [->|Hne]; cbn [negb om_find].
    + rewrite IH. destruct (String.eqb k k0); reflexivity.
    + rewrite IH. destruct (String.eqb_spec k k0) as [->|]; [|reflexivity].
      destruct (String.eqb_spec k0 k'); [congruence|reflexivity].
Qed.

Lemma om_contains_set k k' (v : V) m :
  om_contains k (om_set k' v m) = String.eqb k k' || om_contains k m.
Proof.
  unfold om_contains. rewrite om_find_set.
  destruct (String.eqb k k'); reflexivity.
Qed.

Lemma om_contains_erase k k' m :
  om_contains k (om_erase k' m) = negb (String.eqb k k') && om_contains k m.
Proof.
  unfold om_contains. rewrite om_find_erase.
  destruct (String.eqb k k'); reflexivity.
Qed.
End OmapFacts.

Section KeyspaceFacts.
Variable V : Type.
Implicit Types (m : omap (omap V)).

Lemma om_find_ensure ks K m :
  om_find ks (ensureKeyspaceExists m K) =
    if String.eqb ks K then Some (keyspace_node K m) else om_find ks m.
Proof.
  unfold ensureKeyspaceExists, keyspace_node.
  destruct (om_find K m) as [node|] eqn:E.
  - destruct (String.eqb_spec ks K) as [->|]; [exact E|reflexivity].
  - rewrite om_find_set. reflexivity.
Qed.

Lemma keyspace_node_modify ks K (f : omap V -> omap V) m :
  keyspace_node ks (om_modify K f (ensureKeyspaceExists m K)) =
    if String.eqb ks K then f (keyspace_node K m) else keyspace_node ks m.
Proof.
  unfold om_modify. rewrite (om_find_ensure K K m), String.eqb_refl.
  unfold keyspace_node at 1. rewrite om_find_set, om_find_ensure.
  destruct (String.eqb ks K); reflexivity.
Qed.

Lemma kv_has_modify ks kn K (f : omap V -> omap V) m :
  kv_has ks kn (om_modify K f (ensureKeyspaceExists m K)) =
    if String.eqb ks K then om_contains kn (f (keyspace_node K m))
    else kv_has ks kn m.
Proof.
  unfold kv_has. rewrite keyspace_node_modify.
  destruct (String.eqb ks K); reflexivity.
Qed.

Lemma om_find_cleanup_fold ks (l : list (string * omap V)) : forall m node,
  om_find ks
    (fold_left
       (fun (e : omap (omap V)) (kv : string * omap V) =>
          match snd kv with
          | [] => om_erase (fst kv) e
          | _ => e
          end) l m) = Some node ->
  om_find ks m = Some node.
Proof.
  induction l as [|[k v] r IH]; intros m node H; [exact H|].
  cbn [fold_left snd fst] in H. apply IH in H.
  destruct v; [|exact H].
  rewrite om_find_erase in H. destruct (String.eqb ks k); [discriminate|].
  exact H.
Qed.

Lemma kv_has_cleanup ks kn m :
  kv_has ks kn (cleanupKeyspaces m) = true -> kv_has ks kn m = true.
Proof.
  unfold kv_has, keyspace_node, cleanupKeyspaces.
  destruct (om_find ks (fold_left _ m m)) as [node|] eqn:E; [|discriminate].
  apply om_find_cleanup_fold in E. now rewrite E.
Qed.
End KeyspaceFacts.

Lemma kv_disjoint_put ks kn v st :
  kv_disjoint st -> kv_disjoint (contractStatePut ks kn v st).
Proof.
  intros Inv ks' kn'. unfold contractStatePut.
  cbn [with_kv _contractState _contractStateUpdates _contractStateDeletes].
  rewrite !kv_has_modify.
  destruct (String.eqb_spec ks' (HexStrWith00Null ks)) as [->|]; [|apply Inv].
  rewrite om_contains_erase, !om_contains_set.
  destruct (String.eqb kn' (HexStrWith00Null kn)); [discriminate|].
  cbn [negb andb orb]. apply Inv.
Qed.

Lemma kv_disjoint_delete ks kn st :
  kv_disjoint st -> kv_disjoint (contractStateDelete ks kn st).
Proof.
  intros Inv ks' kn'. unfold contractStateDelete.
  cbn [with_kv _contractState _contractStateUpdates _contractStateDeletes].
  rewrite !kv_has_modify.
  destruct (String.eqb_spec ks' (HexStrWith00Null ks)) as [->|]; [|apply Inv].
  rewrite om_contains_set, !om_contains_erase.
  destruct (String.eqb kn' (HexStrWith00Null kn)); [cbn; auto|].
  cbn [negb andb orb]. apply Inv.
Qed.

Lemma kv_disjoint_cleanup st :
  kv_disjoint st -> kv_disjoint (cleanupStateAndBalances st).
Proof.
  intros Inv ks kn H. cbn in H. apply kv_has_cleanup in H.
  destruct (Inv ks kn H) as [H1 H2]. cbn. split.
  - destruct (kv_has ks kn (cleanupKeyspaces (_contractState st))) eqn:E;
      [|reflexivity].
    apply kv_has_cleanup in E. congruence.
  - destruct (kv_has ks kn (cleanupKeyspaces (_contractStateUpdates st)))
      eqn:E; [|reflexivity].
    apply kv_has_cleanup in E. congruence.
Qed.

Lemma kv_disjoint_run ops : forall st,
  kv_disjoint st -> kv_disjoint (kv_run ops st).
Proof.
  induction ops as [|o r IH]; intros st Inv; [exact Inv|].
  cbn [kv_run]. apply IH. destruct o; cbn [kv_step].
  - now apply kv_disjoint_put.
  - now apply kv_disjoint_delete.
Qed.

(** What one call does to its own pair. *)
Lemma contractStatePut_effect ks kn v st :
  let st' := contractStatePut ks kn v st in
  let K := HexStrWith00Null ks in
  let N := HexStrWith00Null kn in
  kv_has K N (_contractState st') = true
  /\ kv_has K N (_contractStateUpdates st') = true
  /\ kv_has K N (_contractStateDeletes st') = false.
Proof.
  cbv zeta. unfold contractStatePut.
  cbn [with_kv _contractState _contractStateUpdates _contractStateDeletes].
  rewrite !kv_has_modify, !String.eqb_refl.
  rewrite !om_contains_set, om_contains_erase, !String.eqb_refl.
  repeat split.
Qed.

Lemma contractStateDelete_effect ks kn st :
  let st' := contractStateDelete ks kn st in
  let K := HexStrWith00Null ks in
  let N := HexStrWith00Null kn in
  kv_has K N (_contractState st') = false
  /\ kv_has K N (_contractStateUpdates st') = false
  /\ kv_has K N (_contractStateDeletes st') = true.
Proof.
  cbv zeta. unfold contractStateDelete.
  cbn [with_kv _contractState _contractStateUpdates _contractStateDeletes].
  rewrite !kv_has_modify, !String.eqb_refl.
  rewrite om_contains_set, !om_contains_erase, !String.eqb_refl.
  repeat split.
Qed.

(** C6. From the state the constructor builds (no updates, no delete
    markers), after every sequence of [contractStatePut] and
    [contractStateDelete] calls, as [OP_KV_PUT] and [OP_KV_DELETE] make
    them, and so at every intermediate state, no (keyspace, key) pair of
    [kvDeletes] is in [kv] or in [kvUpdates]; the same holds for the
    three maps emitted after [cleanupStateAndBalances].  A put leaves its
    pair in [kv] and [kvUpdates] and unmarked, a delete leaves it out of
    both and marked. *)
Theorem C6_kv_deletes_disjoint ftState ftIncoming nftState nftIncoming
    contractState (ops : list kv_op) :
  let st0 := ScriptStateContext_new ftState ftIncoming nftState
               nftIncoming contractState in
  (forall k, kv_disjoint (kv_run (firstn k ops) st0))
  /\ kv_disjoint (kv_run ops st0)
  /\ kv_disjoint (cleanupStateAndBalances (kv_run ops st0))
  /\ (forall ks kn v,
        let st' := contractStatePut ks kn v (kv_run ops st0) in
        kv_has (HexStrWith00Null ks) (HexStrWith00Null kn)
          (_contractState st') = true
        /\ kv_has (HexStrWith00Null ks) (HexStrWith00Null kn)
             (_contractStateUpdates st') = true
        /\ kv_has (HexStrWith00Null ks) (HexStrWith00Null kn)
             (_contractStateDeletes st') = false)
  /\ (forall ks kn,
        let st' := contractStateDelete ks kn (kv_run ops st0) in
        kv_has (HexStrWith00Null ks) (HexStrWith00Null kn)
          (_contractState st') = false
        /\ kv_has (HexStrWith00Null ks) (HexStrWith00Null kn)
             (_contractStateUpdates st') = false
        /\ kv_has (HexStrWith00Null ks) (HexStrWith00Null kn)
             (_contractStateDeletes st') = true).
Proof.
  intro st0.
  assert (H0 : kv_disjoint st0) by (intros ks kn H; discriminate H).
  split; [|split; [|split; [|split]]].
  - intro k. now apply kv_disjoint_run.
  - now apply kv_disjoint_run.
  - apply kv_disjoint_cleanup. now apply kv_disjoint_run.
  - intros ks kn v. apply contractStatePut_effect.
  - intros ks kn. apply contractStateDelete_effect.
Qed.

(** ** Hex strings *)

Lemma ParseHex_byte b r :
  ParseHex (String (hex_char (b2z b / 16))
              (String (hex_char (b2z b mod 16)) r)) = b :: ParseHex r.
Proof. destruct b; reflexivity. Qed.

Lemma ParseHex_HexStr l : ParseHex (HexStr l) = l.
Proof.
  induction l as [|b r IH]; [reflexivity|].
  cbn [HexStr]. rewrite ParseHex_byte. now rewrite IH.
Qed.

Lemma HexStrWith00Null_nonempty l :
  l <> [] -> HexStrWith00Null l = HexStr l.
Proof. destruct l; [contradiction|reflexivity]. Qed.

(** A pair put with non-empty keyspace, key and value is found again. *)
Lemma put_then_get_nonempty ks kn v st :
  ks <> [] -> kn <> [] -> v <> [] ->
  contractStateExists ks kn (contractStatePut ks kn v st) = true
  /\ contractStateGet ks kn [] (contractStatePut ks kn v st) = (true, v).
Proof.
  intros Hks Hkn Hv. unfold contractStateExists, contractStateGet,
    contractStatePut.
  cbn [with_kv _contractState].
  rewrite !HexStrWith00Null_nonempty by assumption.
  pose proof (keyspace_node_modify (HexStr ks) (HexStr ks)
                (om_set (HexStr kn) (HexStr v)) (_contractState st)) as H.
  rewrite String.eqb_refl in H. unfold keyspace_node at 1 in H.
  unfold om_modify in *. rewrite om_find_ensure, String.eqb_refl in *.
  rewrite om_find_set, String.eqb_refl. unfold om_contains.
  rewrite om_find_set, String.eqb_refl. cbn [app].
  now rewrite ParseHex_HexStr.
Qed.

(** C5. A value put under the empty keyspace is not found again:
    [contractStatePut] files it under the key ["00"]
    ([HexStrWith00Null]), [contractStateExists] and [contractStateGet]
    look under the empty string ([HexStr]). *)
Theorem C5_put_empty_keyspace_not_found :
  contractStateExists [] [x6b]
    (contractStatePut [] [x6b] [x01] sample_state) = false
  /\ contractStateGet [] [x6b] []
       (contractStatePut [] [x6b] [x01] sample_state) = (false, [])
  /\ EvalScript_catch
       (op_KV_EXISTS sample_context [[]; [x6b]]
          (contractStatePut [] [x6b] [x01] sample_state))
     = Next [vchFalse] (contractStatePut [] [x6b] [x01] sample_state).
Proof. repeat split. Qed.

(** An empty value comes back as the one byte [00]. *)
Lemma put_empty_value_reads_zero_byte :
  contractStateGet [x6e] [x6b] []
    (contractStatePut [x6e] [x6b] [] sample_state) = (true, [x00]).
Proof. reflexivity. Qed.

(** ** Withdrawals *)

Lemma of_bytes_BigNum b cap n :
  CScriptNum_of_bytes b cap = Ok n -> exists z, n = BigNum z.
Proof.
  unfold CScriptNum_of_bytes.
  destruct (_ <? _); [discriminate|].
  destruct (negb _); [discriminate|].
  destruct b; [intro H; inversion H; eauto|].
  destruct (bigint_deserialize _); intro H; inversion H; eauto.
Qed.

(** A number of 36 bytes is beyond every [int]. *)
Lemma getint_of_36_bytes vch sn :
  length vch = 36%nat ->
  CScriptNum_of_bytes vch MAXIMUM_ITEM_SIZE = Ok sn ->
  getint sn = INT_MAX \/ getint sn = INT_MIN.
Proof.
  intros Hlen H. destruct (of_bytes_BigNum _ _ H) as [z ->].
  apply (@sign_magnitude_of_bytes vch MAXIMUM_ITEM_SIZE z eq_refl) in H.
  assert (Hz : z <> 0) by (intros ->; subst vch; discriminate Hlen).
  pose proof (length_sign_magnitude_le Hz) as [_ Hhi].
  rewrite H, Hlen in Hhi.
  assert (Ha : 0 < Z.abs z) by lia.
  destruct (top_index_bounds Ha) as (Hq & Hlo & _).
  assert (Hp : 256 ^ 34 <= 256 ^ top_index (Z.abs z))
    by (apply Z.pow_le_mono_r; lia).
  change (256 ^ 34) with
    7588550360256754183279148073529370729071901715047420004889892225542594864082845696
    in Hp.
  unfold getint, INT_MAX, INT_MIN.
  destruct (Z.ltb_spec 2147483647 z); [now left|].
  destruct (Z.ltb_spec z (-2147483648)); [now right|]. lia.
Qed.

(** [OP_NFT_WITHDRAW] tests the size of the element below the top, the
    output index, against 36, so it succeeds on no stack and no state. *)
Lemma op_NFT_WITHDRAW_never_succeeds ctx stack st stack' st' :
  Z.of_nat (length (vout (tx ctx))) <= INT_MAX ->
  EvalScript_catch (op_NFT_WITHDRAW (Some ctx) stack st) <> Next stack' st'.
Proof.
  intro Hout. unfold op_NFT_WITHDRAW.
  destruct (length stack <? 2)%nat; [discriminate|].
  destruct (stacktop_at stack 2) as [vch1|e]; [|destruct e; discriminate].
  destruct (stacktop_at stack 1) as [vch2|e]; [|destruct e; discriminate].
  cbn [bind].
  destruct (Nat.eqb_spec (length vch1) 36) as [Hlen|]; [|discriminate].
  cbn [negb].
  destruct (CScriptNum_of_bytes vch1 MAXIMUM_ITEM_SIZE) as [sn|e] eqn:E;
    [|destruct e; discriminate].
  cbn [bind].
  destruct (getint_of_36_bytes vch1 Hlen E) as [-> | ->].
  - replace (Z.of_nat (length (vout (tx ctx))) <=? u64 INT_MAX) with true.
    + rewrite orb_true_r. discriminate.
    + symmetry. apply Z.leb_le. exact Hout.
  - discriminate.
Qed.

(** C2. With the output index 0 below a 36-byte token identifier that
    the NFT state holds, and one output in the transaction,
    [OP_NFT_WITHDRAW] fails with [INVALID_ATOMICAL_REF_SIZE]: it is the
    index element whose size is compared with 36. *)
Theorem C2_nft_withdraw_rejects_valid_operands :
  length sample_id = 36%nat
  /\ om_contains (GetHex sample_id) (_nftState sample_state) = true
  /\ EvalScript_catch
       (op_NFT_WITHDRAW sample_context [[]; sample_id] sample_state)
     = Error ScriptError.INVALID_ATOMICAL_REF_SIZE.
Proof. repeat split. Qed.

(** C4. Two successful withdrawals of the same token to the same output,
    of 5 and then of 3 units out of 10: the balance goes to 2, and the
    withdraw map still says 5 for that output. *)
Theorem C4_ft_withdraw_second_intent_lost :
  exists st1 st2,
    EvalScript_catch
      (op_FT_WITHDRAW sample_context [[x05]; []; sample_id] sample_state)
      = Next [] st1
    /\ EvalScript_catch
         (op_FT_WITHDRAW sample_context [[x03]; []; sample_id] st1)
       = Next [] st2
    /\ om_find (GetHex sample_id) (_ftState st2) = Some 2
    /\ om_find (GetHex sample_id) (_ftBalancesUpdates st2) = Some 2
    /\ _ftWithdrawMap st2 = [(sample_id, [(0, 5)])].
Proof. do 2 eexists. repeat split. Qed.

(** ** The state hash *)

Lemma u64_nonneg z : (u64 z <? 0) = false.
Proof.
  apply Z.ltb_ge. unfold u64. apply Z.mod_pos_bound. reflexivity.
Qed.

Lemma u32_nonneg z : (u32 z <? 0) = false.
Proof.
  apply Z.ltb_ge. unfold u32. apply Z.mod_pos_bound. reflexivity.
Qed.

Lemma u64_idem z : u64 (u64 z) = u64 z.
Proof. unfold u64. apply Z.mod_mod. discriminate. Qed.

Lemma u32_idem z : u32 (u32 z) = u32 z.
Proof. unfold u32. apply Z.mod_mod. discriminate. Qed.

Lemma OnlyStrings_node (node : omap string) acc :
  GetStateDataVectorOnlyStrings
    (JObject (map (fun kv => (fst kv, JString (snd kv))) node)) acc
  = Ok (acc ++ flat_map (fun kv => ParseHex (fst kv) ++ ParseHex (snd kv))
                 node).
Proof.
  revert acc. induction node as [|[k v] r IH]; intro acc.
  - cbn. now rewrite app_nil_r.
  - cbn [GetStateDataVectorOnlyStrings map fst snd flat_map] in *.
    rewrite IH, !app_assoc. reflexivity.
Qed.

Lemma OnlyStrings_cons_object key inner rest acc :
  GetStateDataVectorOnlyStrings (JObject ((key, JObject inner) :: rest)) acc
  = bind (GetStateDataVectorOnlyStrings (JObject inner)
            (acc ++ ParseHex key))
      (fun acc' => GetStateDataVectorOnlyStrings (JObject rest) acc').
Proof. reflexivity. Qed.

Lemma OnlyStrings_kv (m : omap (omap string)) acc :
  GetStateDataVectorOnlyStrings (json_of_kv m) acc
  = Ok (acc ++ kv_serialization m).
Proof.
  unfold json_of_kv, kv_serialization. revert acc.
  induction m as [|[ks node] r IH]; intro acc.
  - cbn. now rewrite app_nil_r.
  - cbn [map fst snd flat_map].
    rewrite OnlyStrings_cons_object, OnlyStrings_node. cbn [bind].
    rewrite IH, !app_assoc. reflexivity.
Qed.

Lemma BooleanValue_keys (m : omap bool) acc :
  GetStateDataVectorStringKeyBooleanValue (json_of_nft m) acc
  = Ok (acc ++ keys_serialization m).
Proof.
  unfold GetStateDataVectorStringKeyBooleanValue, json_of_nft,
    keys_serialization, items.
  revert acc. induction m as [|[k v] r IH]; intro acc.
  - cbn. now rewrite app_nil_r.
  - cbn [map fst snd flat_map StringKeyBooleanValue_loop].
    rewrite IH, app_assoc. reflexivity.
Qed.

Lemma IntValue_keys (m : omap Z) acc :
  GetStateDataVectorStringKeyIntValue (json_of_ft m) acc
  = Ok (acc ++ keys_serialization m).
Proof.
  unfold GetStateDataVectorStringKeyIntValue, json_of_ft,
    keys_serialization, items.
  revert acc. induction m as [|[k v] r IH]; intro acc.
  - cbn. now rewrite app_nil_r.
  - cbn [map fst snd flat_map StringKeyIntValue_loop is_number_integer
           json_number negb orb].
    rewrite u64_nonneg, IH, app_assoc. reflexivity.
Qed.

Lemma NftWithdraws_bytes (m : omap Z) acc :
  NftWithdraws_loop (items (json_of_nftWithdraws m)) acc
  = Ok (acc ++ nftWithdraws_serialization m).
Proof.
  unfold json_of_nftWithdraws, nftWithdraws_serialization, items.
  revert acc. induction m as [|[k v] r IH]; intro acc.
  - cbn. now rewrite app_nil_r.
  - cbn [map fst snd flat_map NftWithdraws_loop is_number_integer
           json_number negb orb].
    rewrite u32_nonneg, IH. unfold SerializeUint32_t.
    rewrite u32_idem, !app_assoc. reflexivity.
Qed.

Lemma FtWithdraws_inner_bytes (node : omap Z) acc :
  FtWithdraws_inner (items (json_of_ft node)) acc
  = Ok (acc ++ flat_map (fun out =>
                           le_bytes 8 (u64 (atoi (fst out)))
                           ++ le_bytes 8 (u64 (snd out))) node).
Proof.
  unfold json_of_ft, items.
  revert acc. induction node as [|[k v] r IH]; intro acc.
  - cbn. now rewrite app_nil_r.
  - cbn [map fst snd flat_map FtWithdraws_inner is_number_integer
           json_number negb].
    rewrite IH. unfold SerializeUint64_t.
    rewrite u64_idem, !app_assoc. reflexivity.
Qed.

Lemma FtWithdraws_bytes (m : omap (omap Z)) acc :
  FtWithdraws_loop (items (json_of_ftWithdraws m)) acc
  = Ok (acc ++ ftWithdraws_serialization m).
Proof.
  unfold json_of_ftWithdraws, ftWithdraws_serialization.
  cbn [items]. revert acc. induction m as [|[k node] r IH]; intro acc.
  - cbn. now rewrite app_nil_r.
  - cbn [map fst snd flat_map FtWithdraws_loop].
    rewrite FtWithdraws_inner_bytes. cbn [bind].
    rewrite IH, !app_assoc. reflexivity.
Qed.

Lemma TwoLevelBoolean_inner_bytes (node : omap bool) acc :
  TwoLevelBoolean_inner (map (fun kv => (fst kv, JBool (snd kv))) node) acc
  = Ok (acc ++ flat_map (fun kv => ParseHex (fst kv)) node).
Proof.
  revert acc. induction node as [|[k v] r IH]; intro acc.
  - cbn. now rewrite app_nil_r.
  - cbn [map fst snd flat_map TwoLevelBoolean_inner].
    rewrite IH, app_assoc. reflexivity.
Qed.

Lemma TwoLevelBoolean_bytes (m : omap (omap bool)) acc :
  GetStateDataVectorOnly2LevelStringKeysBooleanValue (json_of_deletes m) acc
  = Ok (acc ++ kvDeletes_serialization m).
Proof.
  unfold GetStateDataVectorOnly2LevelStringKeysBooleanValue, json_of_deletes,
    kvDeletes_serialization.
  cbn [items]. revert acc. induction m as [|[k node] r IH]; intro acc.
  - cbn. now rewrite app_nil_r.
  - cbn [map fst snd flat_map TwoLevelBoolean_loop].
    rewrite TwoLevelBoolean_inner_bytes. cbn [bind].
    rewrite IH, !app_assoc. reflexivity.
Qed.

Section StateHashFacts.
Variable SHA256 : list byte -> list byte.

(** C1. After a run that verified, the emitted state hash is SHA-256 of
    the previous hash followed by the eleven inner hashes, in the order
    nftIncoming, ftIncoming, kvFinal, kvUpdates, kvDeletes, nftFinal,
    ftFinal, nftUpdates, ftUpdates, nftWithdraws, ftWithdraws, each the
    SHA-256 of the serialization of the emitted map. *)
Theorem C1_state_commitment prevStateHash ftStateIncoming nftStateIncoming
    stateContext :
  exists e,
    emit_results SHA256 prevStateHash ftStateIncoming nftStateIncoming
      stateContext = Ok e
    /\ stateHash e
       = state_commitment SHA256 prevStateHash nftStateIncoming
           ftStateIncoming e
    /\ stateFinal e = _contractState stateContext
    /\ stateUpdates e = _contractStateUpdates stateContext
    /\ stateDeletes e = _contractStateDeletes stateContext
    /\ ftBalancesResult e = _ftState stateContext
    /\ ftBalancesUpdatesResult e = _ftBalancesUpdates stateContext
    /\ nftBalancesResult e = _nftState stateContext
    /\ nftBalancesUpdatesResult e = _nftBalancesUpdates stateContext
    /\ ftWithdraws e = getFtWithdrawsResult stateContext
    /\ nftWithdraws e = getNftWithdrawsResult stateContext.
Proof.
  unfold emit_results, CalculateStateHash, GetStateDataHashState,
    GetStateDataHashDeletes, GetStateDataHashNftBalanceHash,
    GetStateDataHashFtBalanceHash, GetStateDataHashNftWithdraws,
    GetStateDataHashFtWithdraws.
  rewrite !OnlyStrings_kv, TwoLevelBoolean_bytes, !BooleanValue_keys,
    !IntValue_keys, NftWithdraws_bytes, FtWithdraws_bytes.
  cbn [bind app]. eexists. split; [reflexivity|].
  cbn [stateHash stateFinal stateUpdates stateDeletes ftBalancesResult
       ftBalancesUpdatesResult nftBalancesResult nftBalancesUpdatesResult
       ftWithdraws nftWithdraws].
  unfold state_commitment.
  cbn [stateHash stateFinal stateUpdates stateDeletes ftBalancesResult
       ftBalancesUpdatesResult nftBalancesResult nftBalancesUpdatesResult
       ftWithdraws nftWithdraws].
  rewrite <- !app_assoc. repeat split.
Qed.
End StateHashFacts.

(** The amount of a withdrawal goes through [getint]: asking for
    4000000000 units withdraws [INT_MAX] of them. *)
Lemma ft_withdraw_amount_saturates :
  getvch (BigNum 4000000000) = [x00; x28; x6b; xee; x00]
  /\ exists st,
       EvalScript_catch
         (op_FT_WITHDRAW rich_context
            [[x00; x28; x6b; xee; x00]; []; sample_id] rich_state)
       = Next [] st
       /\ om_find (GetHex sample_id) (_ftState st) = Some 2852516353
       /\ _ftWithdrawMap st = [(sample_id, [(0, 2147483647)])].
Proof. split; [reflexivity|]. eexists. repeat split. Qed.

(** ** Authorization *)

Section AuthorizationFacts.
Variable SHA256 : list byte -> list byte.
Variable VerifySchnorr : list byte -> list byte -> list byte -> bool.
Variable VerifyECDSA : list byte -> list byte -> list byte -> bool.
Variable CheckDataSignatureEncoding : valtype -> bool.
Variable CheckPubKeyEncoding : valtype -> bool.

(** With a signature found in the outputs and a public key given on the
    call, both well encoded, [OP_CHECKAUTHSIG] and [OP_CHECKAUTHSIGVERIFY]
    alike verify the signature against SHA-256 of the auth message, by
    Schnorr iff the signature has 64 bytes and by ECDSA otherwise; on
    success both push the public key and leave it on the stack, on
    failure both fail with [INVALID_AVM_CHECKAUTHSIGNULL]. *)
Lemma op_CHECKAUTHSIG_pushes_pubkey opcode ctx stack st
    vchSig vchPubKey vchMessage :
  getAuthSig ctx = InBounds (Some vchSig) ->
  getAuthPubKey ctx = Some vchPubKey ->
  CheckDataSignatureEncoding vchSig = true ->
  CheckPubKeyEncoding vchPubKey = true ->
  getAuthMessage ctx = InBounds vchMessage ->
  op_CHECKAUTHSIG SHA256 VerifySchnorr VerifyECDSA
    CheckDataSignatureEncoding CheckPubKeyEncoding opcode ctx stack st
  = InBounds
      (if (if (length vchSig =? 64)%nat
           then VerifySchnorr vchPubKey (SHA256 vchMessage) vchSig
           else VerifyECDSA vchPubKey (SHA256 vchMessage) vchSig)
       then Next (stack ++ [vchPubKey]) st
       else Error ScriptError.INVALID_AVM_CHECKAUTHSIGNULL).
Proof.
  intros Hsig Hkey Hes Hek Hmsg. unfold op_CHECKAUTHSIG.
  rewrite Hsig, Hkey. cbn [access_bind]. rewrite Hes, Hek. cbn [negb orb].
  rewrite Hmsg. cbn [access_bind]. unfold VerifySignature.
  destruct (length vchSig =? 64)%nat;
    [destruct (VerifySchnorr _ _ _)|destruct (VerifyECDSA _ _ _)];
    reflexivity.
Qed.
End AuthorizationFacts.

(** C3. With a signature in the first [OP_RETURN "sig"] output and a
    public key on the call, with checks of the encodings and of the
    signature that accept them, [OP_CHECKAUTHSIGVERIFY] on the empty
    stack ends with the public key on the stack, exactly as
    [OP_CHECKAUTHSIG] does: the key is pushed and not popped, so that the
    stack is not left unchanged. *)
Theorem C3_checkauthsigverify_leaves_pubkey :
  getAuthSig auth_context = InBounds (Some [xaa])
  /\ getAuthPubKey auth_context = Some [x02]
  /\ op_CHECKAUTHSIG toy_hash accept accept well_encoded well_encoded
       OP_CHECKAUTHSIGVERIFY auth_context [] sample_state
     = InBounds (Next [[x02]] sample_state)
  /\ op_CHECKAUTHSIG toy_hash accept accept well_encoded well_encoded
       OP_CHECKAUTHSIG auth_context [] sample_state
     = InBounds (Next [[x02]] sample_state).
Proof. repeat split. Qed.

(* ================================================================== *)
(** * Part III: further properties of the code *)
(* ================================================================== *)

(** ** Parsing the scripts that [operator<<] builds *)

Lemma slice_app_offset (script tail : CScript) pc n :
  slice (script ++ tail) (length script + pc) n = slice tail pc n.
Proof.
  unfold slice. rewrite skipn_app.
  rewrite skipn_all2 by lia.
  replace (length script + pc - length script)%nat with pc by lia.
  reflexivity.
Qed.

Lemma nth_app_offset (script tail : CScript) pc :
  nth (length script + pc) (script ++ tail) x00 = nth pc tail x00.
Proof.
  rewrite app_nth2 by lia. f_equal. lia.
Qed.

(** Parsing at an offset reads only what follows the offset. *)
Lemma GetScriptOp_app_offset (script tail : CScript) pc :
  GetScriptOp (script ++ tail) (length script + pc) =
    match GetScriptOp tail pc with
    | Some (pc', opcode, data) =>
        Some ((length script + pc')%nat, opcode, data)
    | None => None
    end.
Proof.
  unfold GetScriptOp. rewrite length_app.
  replace (length script + length tail <=? length script + pc)%nat
    with (length tail <=? pc)%nat
    by (destruct (Nat.leb_spec (length tail) pc),
          (Nat.leb_spec (length script + length tail) (length script + pc));
        lia || reflexivity).
  destruct (length tail <=? pc)%nat; [reflexivity|].
  replace (length script + length tail - (length script + pc))%nat
    with (length tail - pc)%nat by lia.
  destruct (length tail - pc <? 1)%nat; [reflexivity|].
  rewrite nth_app_offset.
  replace (S (length script + pc)) with (length script + S pc)%nat by lia.
  destruct (b2z (nth pc tail x00) <=? OP_PUSHDATA4); [|reflexivity].
  replace (length script + length tail - (length script + S pc))%nat
    with (length tail - S pc)%nat by lia.
  rewrite nth_app_offset, !slice_app_offset.
  replace (S (length script + S pc)) with (length script + S (S pc))%nat
    by lia.
  replace (length script + S pc + 2)%nat
    with (length script + (S pc + 2))%nat by lia.
  replace (length script + S pc + 4)%nat
    with (length script + (S pc + 4))%nat by lia.
  set (sized :=
         if b2z (nth pc tail x00) <? OP_PUSHDATA1
         then Some (b2z (nth pc tail x00), S pc)
         else if b2z (nth pc tail x00) =? OP_PUSHDATA1
         then if (length tail - S pc <? 1)%nat then None
              else Some (b2z (nth (S pc) tail x00), S (S pc))
         else if b2z (nth pc tail x00) =? OP_PUSHDATA2
         then if (length tail - S pc <? 2)%nat then None
              else Some (le_value (slice tail (S pc) 2), (S pc + 2)%nat)
         else if (length tail - S pc <? 4)%nat then None
              else Some (le_value (slice tail (S pc) 4), (S pc + 4)%nat)).
  match goal with
  | |- match ?s with _ => _ end = _ =>
      assert (Hs : s = match sized with
                       | Some (nSize, p) => Some (nSize, (length script + p)%nat)
                       | None => None
                       end)
  end.
  { subst sized.
    destruct (b2z (nth pc tail x00) <? OP_PUSHDATA1); [reflexivity|].
    destruct (b2z (nth pc tail x00) =? OP_PUSHDATA1).
    { destruct (length tail - S pc <? 1)%nat; reflexivity. }
    destruct (b2z (nth pc tail x00) =? OP_PUSHDATA2).
    { destruct (length tail - S pc <? 2)%nat; reflexivity. }
    destruct (length tail - S pc <? 4)%nat; reflexivity. }
  rewrite Hs. clear Hs. clearbody sized.
  destruct sized as [[nSize p]|]; [|reflexivity].
  replace (length script + length tail - (length script + p))%nat
    with (length tail - p)%nat by lia.
  destruct (Z.of_nat (length tail - p) <? nSize); [reflexivity|].
  rewrite slice_app_offset. do 3 f_equal. lia.
Qed.

Ltac split_tests :=
  repeat match goal with
    | |- context [(?a <=? ?b)%nat] => destruct (Nat.leb_spec a b); try lia
    | |- context [(?a <? ?b)%nat] => destruct (Nat.ltb_spec a b); try lia
    | |- context [(?a =? ?b)%nat] => destruct (Nat.eqb_spec a b); try lia
    | |- context [?a <=? ?b] => destruct (Z.leb_spec a b); try lia
    | |- context [?a <? ?b] => destruct (Z.ltb_spec a b); try lia
    | |- context [?a =? ?b] => destruct (Z.eqb_spec a b); try lia
    end.

(** The opcode that [operator<<] writes for a vector of this size. *)
Lemma GetScriptOp_push_head (b rest : list byte) :
  Z.of_nat (length b) < 2 ^ 32 ->
  exists opcode,
    GetScriptOp (operator_shl_vector [] b ++ rest) 0 =
      Some (length (operator_shl_vector [] b), opcode, b)
    /\ 0 <= opcode <= OP_PUSHDATA4
    /\ (Z.of_nat (length b) <= 75 -> opcode = Z.of_nat (length b))
    /\ (75 < Z.of_nat (length b) <= 255 -> opcode = OP_PUSHDATA1)
    /\ (255 < Z.of_nat (length b) <= 65535 -> opcode = OP_PUSHDATA2).
Proof.
  intro Hlen. unfold operator_shl_vector. cbn [app].
  set (size := Z.of_nat (length b)) in *.
  assert (Hsz : 0 <= size) by (subst size; lia).
  assert (Hid : Z.to_nat size = length b) by (subst size; lia).
  unfold OP_PUSHDATA1, OP_PUSHDATA2, OP_PUSHDATA4.
  destruct (Z.ltb_spec size 76) as [H1|H1].
  { exists size. unfold GetScriptOp.
    cbn [app length nth]. rewrite length_app.
    rewrite b2z_z2b, Z.mod_small by lia.
    unfold OP_PUSHDATA4, OP_PUSHDATA1.
    split_tests; rewrite Hid; unfold slice; cbn [skipn];
      rewrite firstn_app_length by reflexivity;
      repeat split; try lia. }
  destruct (Z.leb_spec size 255) as [H2|H2].
  { exists 76. unfold GetScriptOp.
    cbn [app length nth]. rewrite length_app.
    rewrite !b2z_z2b. change (76 mod 256) with 76.
    rewrite (Z.mod_small size 256) by lia.
    unfold OP_PUSHDATA4, OP_PUSHDATA1.
    split_tests; rewrite Hid; unfold slice; cbn [skipn];
      rewrite firstn_app_length by reflexivity;
      repeat split; try lia. }
  assert (Hslice : forall k op,
             length (le_bytes k size) = k ->
             firstn (length b)
               (skipn (1 + k) (z2b op :: le_bytes k size ++ b ++ rest)) = b).
  { intros k op Hk. cbn [Nat.add skipn].
    rewrite skipn_app_length by exact Hk.
    apply firstn_app_length. reflexivity. }
  destruct (Z.leb_spec size 65535) as [H3|H3].
  { exists 77. unfold GetScriptOp.
    assert (Hl2 : length (le_bytes 2 size) = 2%nat)
      by apply length_le_bytes.
    assert (Hv : le_value
                   (slice (z2b 77 :: le_bytes 2 size ++ b ++ rest) 1 2)
                 = size).
    { unfold slice. cbn [skipn].
      rewrite firstn_app_length by exact Hl2.
      rewrite le_value_le_bytes by lia.
      change (256 ^ Z.of_nat 2) with 65536. apply Z.mod_small. lia. }
    cbn [app]. rewrite <- app_assoc. cbn [length nth].
    rewrite !length_app, Hl2, Hv.
    rewrite !b2z_z2b. change (77 mod 256) with 77.
    unfold OP_PUSHDATA4, OP_PUSHDATA1, OP_PUSHDATA2.
    split_tests; rewrite Hid; unfold slice;
      rewrite (Hslice 2%nat 77 Hl2); repeat split; try lia. }
  { exists 78. unfold GetScriptOp.
    assert (Hl4 : length (le_bytes 4 size) = 4%nat)
      by apply length_le_bytes.
    assert (Hv : le_value
                   (slice (z2b 78 :: le_bytes 4 size ++ b ++ rest) 1 4)
                 = size).
    { unfold slice. cbn [skipn].
      rewrite firstn_app_length by exact Hl4.
      rewrite le_value_le_bytes by lia.
      change (256 ^ Z.of_nat 4) with (2 ^ 32). apply Z.mod_small. lia. }
    cbn [app]. rewrite <- app_assoc. cbn [length nth].
    rewrite !length_app, Hl4, Hv.
    rewrite !b2z_z2b. change (78 mod 256) with 78.
    unfold OP_PUSHDATA4, OP_PUSHDATA1, OP_PUSHDATA2.
    split_tests; rewrite Hid; unfold slice;
      rewrite (Hslice 4%nat 78 Hl4); repeat split; try lia. }
Qed.

Lemma operator_shl_vector_app script b :
  operator_shl_vector script b = script ++ operator_shl_vector [] b.
Proof. reflexivity. Qed.

Lemma GetScriptOp_push (script b rest : list byte) :
  Z.of_nat (length b) < 2 ^ 32 ->
  exists opcode,
    GetScriptOp (operator_shl_vector script b ++ rest) (length script) =
      Some (length (operator_shl_vector script b), opcode, b)
    /\ 0 <= opcode <= OP_PUSHDATA4
    /\ (Z.of_nat (length b) <= 75 -> opcode = Z.of_nat (length b))
    /\ (75 < Z.of_nat (length b) <= 255 -> opcode = OP_PUSHDATA1)
    /\ (255 < Z.of_nat (length b) <= 65535 -> opcode = OP_PUSHDATA2).
Proof.
  intro Hlen.
  destruct (GetScriptOp_push_head b rest Hlen) as (opcode & Hg & Hrest).
  exists opcode. split; [|exact Hrest].
  rewrite operator_shl_vector_app, <- app_assoc.
  rewrite <- (Nat.add_0_r (length script)) at 1.
  rewrite GetScriptOp_app_offset, Hg, length_app. reflexivity.
Qed.
(** X1. A byte vector appended to a script with [operator<<] is read back
    by [GetScriptOp] at the place it was appended: the parse returns the
    same bytes, a push opcode, and the position right after the push,
    whatever follows in the script. *)
Theorem X1_push_parse_roundtrip (script b rest : list byte) :
  Z.of_nat (length b) < 2 ^ 32 ->
  exists opcode,
    GetScriptOp (operator_shl_vector script b ++ rest) (length script) =
      Some (length (operator_shl_vector script b), opcode, b)
    /\ 0 <= opcode <= OP_PUSHDATA4.
Proof.
  intro Hlen.
  destruct (GetScriptOp_push script b rest Hlen) as (opcode & Hg & Ho & _).
  exists opcode. auto.
Qed.

Lemma X1_push_parse_roundtrip_witness :
  Z.of_nat (length [xaa; xbb]) < 2 ^ 32
  /\ exists opcode,
       GetScriptOp (operator_shl_vector [x51] [xaa; xbb] ++ [x87])
         (length [x51]) =
         Some (length (operator_shl_vector [x51] [xaa; xbb]), opcode,
               [xaa; xbb])
       /\ 0 <= opcode <= OP_PUSHDATA4.
Proof.
  split; [reflexivity|].
  exact (X1_push_parse_roundtrip [x51] [xaa; xbb] [x87] eq_refl).
Defined.

(** [CheckMinimalPush] on the push that [operator<<] writes. *)
Lemma CheckMinimalPush_push (script b rest : list byte) pc' opcode data :
  Z.of_nat (length b) < 2 ^ 32 ->
  GetScriptOp (operator_shl_vector script b ++ rest) (length script) =
    Some (pc', opcode, data) ->
  (CheckMinimalPush data opcode = false <->
   exists v, b = [v] /\ (1 <= b2z v <= 16 \/ b2z v = 0x81)).
Proof.
  intros Hlen Hg.
  destruct (GetScriptOp_push script b rest Hlen)
    as (opcode' & Hg' & Ho & H75 & H255 & H65535).
  rewrite Hg' in Hg. injection Hg as _ <- <-.
  unfold CheckMinimalPush.
  unfold OP_0, OP_PUSHDATA1, OP_PUSHDATA2, OP_PUSHDATA4 in *.
  destruct b as [|v [|w r]].
  - cbn [length] in *. change (Z.of_nat 0) with 0 in *.
    rewrite (H75 ltac:(lia)). cbn. split; [discriminate|].
    intros (v & H & _). discriminate H.
  - cbn [length nth] in *. change (Z.of_nat 1) with 1 in *.
    rewrite (H75 ltac:(lia)). change (1 =? 0) with false.
    change (1 =? 1) with true. cbn [andb].
    pose proof (b2z_range v).
    destruct (Z.leb_spec 1 (b2z v)), (Z.leb_spec (b2z v) 16),
      (Z.eqb_spec (b2z v) 129); cbn [andb];
      try (split; [intros _; exists v; split; [reflexivity|lia]|reflexivity]).
    all: split; [discriminate|].
    all: intros (v' & Hv & Hr); injection Hv as <-; lia.
  - split.
    + intro H. exfalso. revert H.
      set (size := Z.of_nat (length (v :: w :: r))) in *.
      assert (2 <= size) by (subst size; cbn [length]; lia).
      replace (size =? 0) with false by (symmetry; apply Z.eqb_neq; lia).
      replace (size =? 1) with false by (symmetry; apply Z.eqb_neq; lia).
      cbn [andb].
      destruct (Z.leb_spec size 75).
      { rewrite (H75 ltac:(lia)), Z.eqb_refl. discriminate. }
      destruct (Z.leb_spec size 255).
      { rewrite (H255 ltac:(lia)). discriminate. }
      destruct (Z.leb_spec size 65535).
      { rewrite (H65535 ltac:(lia)). discriminate. }
      discriminate.
    + intros (v' & Hv & _). discriminate Hv.
Qed.

(** X2. The push that [operator<<] writes for a byte vector passes
    [CheckMinimalPush] unless the vector is a single byte that a small
    integer opcode stands for: a byte from 1 to 16, or 0x81. *)
Theorem X2_built_push_minimal (script b rest : list byte) pc' opcode data :
  Z.of_nat (length b) < 2 ^ 32 ->
  GetScriptOp (operator_shl_vector script b ++ rest) (length script) =
    Some (pc', opcode, data) ->
  (CheckMinimalPush data opcode = false <->
   exists v, b = [v] /\ (1 <= b2z v <= 16 \/ b2z v = 0x81)).
Proof. exact (@CheckMinimalPush_push script b rest pc' opcode data). Qed.

Lemma X2_built_push_minimal_witness :
  CheckMinimalPush [x05] 1 = false.
Proof.
  apply (X2_built_push_minimal [] [x05] [] (pc' := 2%nat)
           eq_refl eq_refl).
  exists x05. split; [reflexivity|]. left. cbv. split; discriminate.
Defined.

Lemma GetScriptOp_progress (script : CScript) pc pc' opcode data :
  GetScriptOp script pc = Some (pc', opcode, data) ->
  (pc < pc' <= length script)%nat
  /\ opcode = b2z (nth pc script x00)
  /\ (pc + 1 + length data <= pc')%nat
  /\ data = slice script (pc' - length data) (length data).
Proof.
  unfold GetScriptOp.
  destruct (Nat.leb_spec (length script) pc) as [|Hpc]; [discriminate|].
  destruct (Nat.ltb_spec (length script - pc) 1) as [|_]; [discriminate|].
  set (opcode0 := b2z (nth pc script x00)).
  destruct (opcode0 <=? OP_PUSHDATA4).
  2:{ intro Hq. injection Hq as <- <- <-. cbn [length].
      repeat split; try lia. }
  set (sized := if opcode0 <? OP_PUSHDATA1 then _ else _).
  assert (Hsized : forall nSize p, sized = Some (nSize, p) ->
                     (pc < p <= length script)%nat).
  { subst sized. intros nSize p.
    destruct (opcode0 <? OP_PUSHDATA1).
    { intro Hq. injection Hq as _ <-. lia. }
    destruct (opcode0 =? OP_PUSHDATA1).
    { destruct (Nat.ltb_spec (length script - S pc) 1); [discriminate|].
      intro Hq. injection Hq as _ <-. lia. }
    destruct (opcode0 =? OP_PUSHDATA2).
    { destruct (Nat.ltb_spec (length script - S pc) 2); [discriminate|].
      intro Hq. injection Hq as _ <-. lia. }
    destruct (Nat.ltb_spec (length script - S pc) 4); [discriminate|].
    intro Hq. injection Hq as _ <-. lia. }
  destruct sized as [[nSize p]|]; [|discriminate].
  destruct (Hsized nSize p eq_refl) as (Hp & Hp').
  destruct (Z.ltb_spec (Z.of_nat (length script - p)) nSize) as [|Hn];
    [discriminate|].
  intro Hq. injection Hq as <- <- <-.
  assert (Hl : length (slice script p (Z.to_nat nSize)) = Z.to_nat nSize).
  { unfold slice. rewrite length_firstn, length_skipn. lia. }
  rewrite Hl. repeat split; try lia.
  f_equal. lia.
Qed.

(** X3. A successful [GetScriptOp] moves the position forward and stays
    inside the script: the opcode is the byte at the old position, and the
    data returned are bytes of the script that end at the new position. *)
Theorem X3_GetScriptOp_progress (script : CScript) pc pc' opcode data :
  GetScriptOp script pc = Some (pc', opcode, data) ->
  (pc < pc' <= length script)%nat
  /\ opcode = b2z (nth pc script x00)
  /\ (pc + 1 + length data <= pc')%nat
  /\ data = slice script (pc' - length data) (length data).
Proof. exact (@GetScriptOp_progress script pc pc' opcode data). Qed.

Lemma X3_GetScriptOp_progress_witness :
  (0 < 3 <= length [x02; xaa; xbb; x51])%nat
  /\ 2 = b2z (nth 0 [x02; xaa; xbb; x51] x00).
Proof.
  destruct (X3_GetScriptOp_progress [x02; xaa; xbb; x51] 0
              (pc' := 3%nat) (opcode := 2) (data := [xaa; xbb]) eq_refl)
    as (H1 & H2 & _).
  exact (conj H1 H2).
Defined.

(** ** Scripts made of pushes *)

Lemma push_all_app items : forall script,
  push_all script items = script ++ push_all [] items.
Proof.
  induction items as [|b items IH]; intro script.
  - cbn. now rewrite app_nil_r.
  - cbn [push_all fold_left]. fold (push_all (operator_shl_vector script b) items).
    fold (push_all (operator_shl_vector [] b) items).
    rewrite (IH (operator_shl_vector script b)).
    rewrite (IH (operator_shl_vector [] b)).
    rewrite operator_shl_vector_app, app_assoc. reflexivity.
Qed.

Lemma length_operator_shl_vector script b :
  (length script + 1 + length b <= length (operator_shl_vector script b))%nat.
Proof.
  unfold operator_shl_vector. rewrite !length_app.
  destruct (_ <? _); [cbn [length]; lia|].
  destruct (_ <=? _); [cbn [length]; lia|].
  destruct (_ <=? _); cbn [length]; lia.
Qed.

Lemma length_push_all items : forall script,
  (length script + length items <= length (push_all script items))%nat.
Proof.
  induction items as [|b items IH]; intro script; cbn [push_all fold_left].
  - cbn [length]. lia.
  - fold (push_all (operator_shl_vector script b) items).
    pose proof (IH (operator_shl_vector script b)).
    pose proof (length_operator_shl_vector script b).
    cbn [length]. lia.
Qed.

Lemma IsPushOnly_from_push_all items : forall script fuel,
  Forall (fun b => Z.of_nat (length b) < 2 ^ 32) items ->
  (length items <= fuel)%nat ->
  IsPushOnly_from fuel (push_all script items) (length script) = true.
Proof.
  induction items as [|b items IH]; intros script fuel Hall Hfuel.
  - cbn [push_all fold_left]. destruct fuel; cbn [IsPushOnly_from];
      now rewrite Nat.leb_refl.
  - inversion Hall as [|? ? Hb Hall']; subst.
    destruct fuel as [|fuel]; [cbn [length] in Hfuel; lia|].
    cbn [push_all fold_left].
    fold (push_all (operator_shl_vector script b) items).
    cbn [IsPushOnly_from].
    pose proof (length_push_all items (operator_shl_vector script b)) as Hl.
    pose proof (length_operator_shl_vector script b) as Hl'.
    destruct (Nat.leb_spec
                (length (push_all (operator_shl_vector script b) items))
                (length script)) as [Hc|_]; [lia|].
    unfold GetOp.
    rewrite (push_all_app items (operator_shl_vector script b)).
    destruct (GetScriptOp_push script b (push_all [] items) Hb)
      as (opcode & Hg & Ho & _).
    rewrite Hg.
    unfold OP_PUSHDATA4 in Ho. unfold OP_16.
    destruct (Z.ltb_spec 96 opcode); [lia|].
    rewrite <- (push_all_app items (operator_shl_vector script b)).
    apply IH; [assumption|cbn [length] in Hfuel; lia].
Qed.

(** X4. A script built only by appending byte vectors with [operator<<]
    is push-only, so the verifier never rejects it as an unlocking script
    with [SIG_PUSHONLY]. *)
Theorem X4_pushes_are_push_only (items : list (list byte)) :
  Forall (fun b => Z.of_nat (length b) < 2 ^ 32) items ->
  IsPushOnly (push_all [] items) = true.
Proof.
  intro Hall. unfold IsPushOnly.
  apply (@IsPushOnly_from_push_all items [] _ Hall).
  apply (length_push_all items []).
Qed.

Lemma X4_pushes_are_push_only_witness :
  IsPushOnly (push_all [] [[xaa; xbb]; []; [x01]]) = true.
Proof.
  apply X4_pushes_are_push_only.
  repeat constructor.
Defined.

(** ** The authorization signature of a transaction *)

Lemma IsSigOpReturn_sig_return_script sig rest :
  Z.of_nat (length sig) < 2 ^ 32 ->
  IsSigOpReturn (sig_return_script sig ++ rest) = InBounds (Some sig).
Proof.
  intro Hlen. unfold sig_return_script.
  set (head := operator_shl_vector [z2b OP_RETURN] sig_marker).
  assert (Hhead : head = [x6a; x03; x73; x69; x67]) by reflexivity.
  destruct (GetScriptOp_push head sig rest Hlen) as (opcode & Hg & Ho & _).
  rewrite operator_shl_vector_app in *. rewrite Hhead in *.
  unfold IsSigOpReturn.
  cbn [app IsUnspendable hasSigMarker deref nth_error access_bind negb].
  change (b2z x6a =? OP_RETURN) with true.
  change (b2z x03 =? 3) with true. change (b2z x73 =? 115) with true.
  change (b2z x69 =? 105) with true. change (b2z x67 =? 103) with true.
  cbn [negb]. unfold GetOp.
  cbn [app length] in Hg. rewrite Hg.
  destruct (Z.ltb_spec OP_PUSHDATA4 opcode); [lia|]. reflexivity.
Qed.

Lemma IsSigOpReturn_spendable script :
  IsUnspendable script = false -> IsSigOpReturn script = InBounds None.
Proof. intro H. unfold IsSigOpReturn. now rewrite H. Qed.

(** X5. [getAuthSig] returns the signature of the first output whose
    script is [OP_RETURN "sig" <signature>], when the outputs before it
    are spendable (do not begin with [OP_RETURN]); the outputs after it
    are not read. *)
Theorem X5_getAuthSig_finds_signature ctx pre post v sig :
  Forall (fun o => IsUnspendable (scriptPubKey o) = false) pre ->
  Z.of_nat (length sig) < 2 ^ 32 ->
  vout (tx ctx) =
    pre ++ {| nValue := v; scriptPubKey := sig_return_script sig |} :: post ->
  getAuthSig ctx = InBounds (Some sig).
Proof.
  intros Hpre Hlen Hout. unfold getAuthSig. rewrite Hout. clear Hout.
  induction Hpre as [|o pre Ho Hpre IH]; cbn [app getAuthSig_from].
  - cbn [scriptPubKey].
    rewrite <- (app_nil_r (sig_return_script sig)).
    rewrite (IsSigOpReturn_sig_return_script sig [] Hlen). reflexivity.
  - rewrite (IsSigOpReturn_spendable _ Ho). cbn [access_bind]. exact IH.
Qed.

Lemma X5_getAuthSig_finds_signature_witness :
  getAuthSig auth_context = InBounds (Some [xaa]).
Proof.
  apply (@X5_getAuthSig_finds_signature auth_context
           [{| nValue := 100; scriptPubKey := [x51] |}] [] 0 [xaa]).
  - repeat constructor.
  - reflexivity.
  - reflexivity.
Defined.

Lemma getAuthMessage_outputs_sig pre post v v' sig sig' :
  Z.of_nat (length sig) < 2 ^ 32 ->
  Z.of_nat (length sig') < 2 ^ 32 ->
  getAuthMessage_outputs
    (pre ++ {| nValue := v; scriptPubKey := sig_return_script sig |} :: post)
  = getAuthMessage_outputs
      (pre ++ {| nValue := v'; scriptPubKey := sig_return_script sig' |}
           :: post).
Proof.
  intros Hlen Hlen'.
  induction pre as [|o pre IH]; cbn [app getAuthMessage_outputs].
  - cbn [scriptPubKey].
    rewrite <- (app_nil_r (sig_return_script sig)).
    rewrite <- (app_nil_r (sig_return_script sig')).
    rewrite (IsSigOpReturn_sig_return_script sig [] Hlen).
    rewrite (IsSigOpReturn_sig_return_script sig' [] Hlen').
    reflexivity.
  - rewrite IH. reflexivity.
Qed.

(** X6. The message that the authorization signature signs does not
    contain the signature: replacing the signature bytes (and the value)
    of the [OP_RETURN "sig"] output leaves [getAuthMessage] unchanged,
    whatever the other inputs and outputs are. *)
Theorem X6_auth_message_excludes_signature
    version inputs locktime full pubKey pre post v v' sig sig' :
  Z.of_nat (length sig) < 2 ^ 32 ->
  Z.of_nat (length sig') < 2 ^ 32 ->
  let ctx v sig :=
    {| tx := {| nVersion := version; vin := inputs;
                vout := pre ++ {| nValue := v;
                                  scriptPubKey := sig_return_script sig |}
                            :: post;
                nLockTime := locktime |};
       _fullScript := full; _pubKey := pubKey |} in
  getAuthMessage (ctx v sig) = getAuthMessage (ctx v' sig').
Proof.
  intros Hlen Hlen' ctx. unfold getAuthMessage, ctx. cbn [tx vin vout].
  destruct inputs as [|input inputs']; [reflexivity|].
  rewrite (@getAuthMessage_outputs_sig pre post v v' sig sig' Hlen Hlen').
  reflexivity.
Qed.

Lemma X6_auth_message_excludes_signature_witness :
  getAuthMessage auth_context =
  getAuthMessage
    {| tx := {| nVersion := 2; vin := vin auth_tx;
                vout := [{| nValue := 100; scriptPubKey := [x51] |};
                         {| nValue := 7;
                            scriptPubKey := sig_return_script [xbb; xcc] |}];
                nLockTime := 0 |};
       _fullScript := [xc1]; _pubKey := [x02] |}.
Proof.
  exact (@X6_auth_message_excludes_signature 2 (vin auth_tx) 0 [xc1] [x02]
           [{| nValue := 100; scriptPubKey := [x51] |}] [] 0 7
           [xaa] [xbb; xcc] eq_refl eq_refl).
Defined.

(** ** The interpreter loop on data pushes *)

(** The vectors [CheckMinimalPush] accepts behind the push opcode that
    [operator<<] writes. *)
Lemma CheckMinimalPush_built (script b rest : list byte) pc' opcode data :
  Z.of_nat (length b) < 2 ^ 32 ->
  (forall v, b = [v] -> ~ (1 <= b2z v <= 16 \/ b2z v = 0x81)) ->
  GetScriptOp (operator_shl_vector script b ++ rest) (length script) =
    Some (pc', opcode, data) ->
  CheckMinimalPush data opcode = true.
Proof.
  intros Hlen Hsmall Hg.
  destruct (CheckMinimalPush data opcode) eqn:E; [reflexivity|].
  apply (@CheckMinimalPush_push script b rest _ _ _ Hlen Hg) in E.
  destruct E as (v & Hv & Hr). exfalso. exact (Hsmall v Hv Hr).
Qed.

Lemma u32_small_counter z : 0 <= z < 2 ^ 32 -> u32 z = z.
Proof. intro H. unfold u32. apply Z.mod_small. exact H. Qed.

Section LoopOnPushes.
Variable exec_switch : Z -> bool -> Machine -> switch_exit.

Lemma EvalScript_loop_pushes items :
  forall script fuel nOpCount opCounter op_num stack alt vf st,
  Forall (fun b =>
            Z.of_nat (length b) <= MAX_SCRIPT_ELEMENT_SIZE
            /\ forall v, b = [v] -> ~ (1 <= b2z v <= 16 \/ b2z v = 0x81))
    items ->
  (length items <= fuel)%nat ->
  ConditionStack.all_true vf = true ->
  0 <= opCounter -> opCounter + Z.of_nat (length items) < 2 ^ 32 ->
  Z.of_nat (length stack + length items + length alt) <= MAX_STACK_SIZE ->
  EvalScript_loop exec_switch fuel (push_all script items) (length script)
    nOpCount opCounter op_num (mkMachine stack alt vf st)
  = let m := mkMachine (stack ++ items) alt vf st in
    let n := match items with
             | [] => op_num
             | _ => opCounter + Z.of_nat (length items) - 1
             end in
    if negb (ConditionStack.empty vf)
    then eval_return m ScriptError.UNBALANCED_CONDITIONAL n
    else eval_return m ScriptError.OK n.
Proof.
  induction items as [|b items IH];
    intros script fuel nOpCount opCounter op_num stack alt vf st
      Hall Hfuel Hvf Hc0 Hc Hstack.
  - cbn [push_all fold_left]. rewrite app_nil_r.
    destruct fuel; cbn [EvalScript_loop]; rewrite Nat.leb_refl;
      reflexivity.
  - inversion Hall as [|? ? (Hb & Hsmall) Hall']; subst.
    destruct fuel as [|fuel]; [cbn [length] in Hfuel; lia|].
    cbn [length] in Hc, Hstack, Hfuel.
    cbn [push_all fold_left].
    fold (push_all (operator_shl_vector script b) items).
    pose proof (length_push_all items (operator_shl_vector script b)) as Hl.
    pose proof (length_operator_shl_vector script b) as Hl'.
    assert (Hlen : Z.of_nat (length b) < 2 ^ 32)
      by (unfold MAX_SCRIPT_ELEMENT_SIZE in Hb; lia).
    destruct (GetScriptOp_push script b (push_all [] items) Hlen)
      as (opcode & Hg & Ho & _).
    pose proof (@CheckMinimalPush_built script b (push_all [] items)
                  _ _ _ Hlen Hsmall Hg) as Hmin.
    rewrite <- (push_all_app items (operator_shl_vector script b)) in Hg.
    cbn [EvalScript_loop].
    destruct (Nat.leb_spec
                (length (push_all (operator_shl_vector script b) items))
                (length script)) as [Hx|_]; [lia|].
    unfold GetOp. rewrite Hg.
    destruct (Z.ltb_spec MAX_SCRIPT_ELEMENT_SIZE (Z.of_nat (length b)))
      as [Hx|_]; [lia|].
    unfold OP_PUSHDATA4 in Ho.
    replace (OP_16 <? opcode) with false
      by (symmetry; apply Z.ltb_ge; unfold OP_16; lia).
    cbn [andb].
    replace (IsOpcodeDisabled opcode) with false
      by (unfold IsOpcodeDisabled, OP_2MUL, OP_2DIV;
          destruct (Z.eqb_spec opcode 141), (Z.eqb_spec opcode 142);
          lia || reflexivity).
    cbn [m_vfExec m_stack m_altstack m_state]. rewrite Hvf.
    replace (0 <=? opcode) with true by (symmetry; apply Z.leb_le; lia).
    replace (opcode <=? OP_PUSHDATA4) with true
      by (symmetry; apply Z.leb_le; unfold OP_PUSHDATA4; lia).
    cbn [andb]. rewrite Hmin. cbn [negb].
    unfold over_size_limits. cbn [m_stack m_altstack].
    rewrite length_app. cbn [length].
    destruct (Z.ltb_spec MAX_STACK_SIZE
                (Z.of_nat (length stack + 1 + length alt)))
      as [Hx|_]; [lia|].
    rewrite u32_small_counter by lia.
    rewrite IH; [|assumption|lia|assumption|lia|lia|].
    2:{ rewrite length_app. cbn [length]. lia. }
    cbv zeta. rewrite <- app_assoc. cbn [app].
    replace (match items with
             | [] => opCounter
             | _ :: _ => opCounter + 1 + Z.of_nat (length items) - 1
             end)
      with (opCounter + Z.of_nat (S (length items)) - 1)
      by (destruct items; cbn [length]; lia).
    reflexivity.
Qed.
End LoopOnPushes.

(** X7. Evaluating a script that was built by appending byte vectors
    with [operator<<] pushes exactly these vectors, in order, on top of
    the stack and succeeds, without reaching the opcode switch and
    without touching the state, provided each vector is a minimal push
    of at most 4000 bytes and the script and stack limits are kept. *)
Theorem X7_EvalScript_pushes
    (exec_switch : Z -> bool -> Machine -> switch_exit)
    (stack items : list valtype) (st : ScriptStateContext) :
  Forall (fun b =>
            Z.of_nat (length b) <= MAX_SCRIPT_ELEMENT_SIZE
            /\ forall v, b = [v] -> ~ (1 <= b2z v <= 16 \/ b2z v = 0x81))
    items ->
  Z.of_nat (length (push_all [] items)) <= MAX_SCRIPT_SIZE ->
  Z.of_nat (length stack + length items) <= MAX_STACK_SIZE ->
  EvalScript_stateContext exec_switch stack (push_all [] items) st =
    Returned true
      (mkMachine (stack ++ items) [] ConditionStack.init st)
      ScriptError.OK (Z.of_nat (length items - 1)).
Proof.
  intros Hall Hsize Hstack. unfold EvalScript_stateContext.
  destruct (Z.ltb_spec MAX_SCRIPT_SIZE
              (Z.of_nat (length (push_all [] items)))) as [Hx|_]; [lia|].
  pose proof (length_push_all items []) as Hl. cbn [length] in Hl.
  unfold MAX_SCRIPT_SIZE, MAX_STACK_SIZE in *.
  assert (Hs : Z.of_nat (length stack + length items + length (@nil valtype))
               <= 1000) by (cbn [length]; lia).
  pose proof (@EvalScript_loop_pushes exec_switch items [] _ 0 0 0 stack []
                ConditionStack.init st Hall Hl eq_refl ltac:(lia)
                ltac:(lia) Hs) as Hloop.
  cbn [length] in Hloop. rewrite Hloop. clear Hloop.
  cbv zeta. change (ConditionStack.empty ConditionStack.init) with true.
  cbn [negb]. unfold eval_return. f_equal.
  clear. destruct items as [|b items]; [reflexivity|].
  cbn [length]. unfold valtype. lia.
Qed.

Lemma X7_EvalScript_pushes_witness :
  EvalScript_stateContext (fun _ _ m => Break m) []
    (push_all [] [[xaa; xbb]; []]) sample_state =
  Returned true
    (mkMachine [[xaa; xbb]; []] [] ConditionStack.init sample_state)
    ScriptError.OK 1.
Proof.
  apply (@X7_EvalScript_pushes (fun _ _ m => Break m) []
           [[xaa; xbb]; []] sample_state).
  - repeat constructor; cbv; try discriminate.
    all: intros v H; discriminate H.
  - cbv. discriminate.
  - cbv. discriminate.
Defined.

(** ** Minimal encoding of numbers *)

Lemma assign_at_app_last {A} (r : list A) (x y : A) :
  assign_at (r ++ [x]) (length r) y = r ++ [y].
Proof. induction r as [|a r IH]; cbn; [reflexivity|now rewrite IH]. Qed.

Lemma firstn_assign_at {A} (v : list A) i (x : A) :
  firstn i (assign_at v i x) = firstn i v.
Proof.
  revert i; induction v as [|a v IH]; intros [|i]; cbn; try reflexivity.
  now rewrite IH.
Qed.

Lemma firstn_S_assign_at {A} (v : list A) i (x : A) :
  (i < length v)%nat ->
  firstn (S i) (assign_at v i x) = firstn i v ++ [x].
Proof.
  revert i; induction v as [|a v IH]; intros [|i] H; cbn [length] in H;
    try lia.
  - cbn. reflexivity.
  - cbn [assign_at]. rewrite !firstn_cons. rewrite IH by lia. reflexivity.
Qed.

Lemma firstn_S_nth (r : list byte) i :
  (i < length r)%nat -> firstn (S i) r = firstn i r ++ [nth i r x00].
Proof.
  revert i; induction r as [|a r IH]; intros [|i] H; cbn [length] in H;
    try lia.
  - reflexivity.
  - rewrite !firstn_cons. rewrite IH by lia. reflexivity.
Qed.

Lemma sign_byte_cases x :
  Z.land (b2z x) 0x7f = 0 -> b2z x = 0 \/ b2z x = 128.
Proof. destruct x; cbv; intro H; auto; discriminate H. Qed.

Lemma lor_sign d x :
  0 <= d < 128 -> x = 0 \/ x = 128 -> Z.lor d x = d + x.
Proof.
  intros Hd [->| ->].
  - rewrite Z.lor_0_r. lia.
  - apply small_or80. exact Hd.
Qed.

Lemma bigint_deserialize_nil : bigint_deserialize [] = Some 0.
Proof. reflexivity. Qed.

(** The number a byte string whose last byte is [00] or [80] stands
    for. *)
Lemma bigint_deserialize_signed r x :
  Z.of_nat (length (r ++ [x])) < 2 ^ 31 ->
  b2z x = 0 \/ b2z x = 128 ->
  bigint_deserialize (r ++ [x]) =
    Some (if b2z x <? 128 then le_value r else - le_value r).
Proof.
  intros Hlen Hx. rewrite bigint_deserialize_value by exact Hlen.
  rewrite le_value_app. cbn [le_value]. f_equal.
  rewrite (Z.pow_add_r 2 (8 * Z.of_nat (length r)) 7) by lia.
  rewrite <- (@pow256 (Z.of_nat (length r))) by lia.
  set (P := 256 ^ Z.of_nat (length r)).
  destruct Hx as [-> | ->].
  - change (0 <? 128) with true. cbv iota. lia.
  - change (128 <? 128) with false. cbv iota. change (2 ^ 7) with 128. lia.
Qed.

Lemma firstn_app_le {A} (r t : list A) i :
  (i <= length r)%nat -> firstn i (r ++ t) = firstn i r.
Proof.
  intro H. rewrite firstn_app.
  replace (i - length r)%nat with 0%nat by lia.
  cbn [firstn]. apply app_nil_r.
Qed.

(** What the loop of [MinimallyEncode] leaves, for a string whose last
    byte [x] is [00] or [80]: a minimal encoding of the number that the
    bytes before [x] and the sign in [x] stand for. *)
Lemma MinimallyEncode_loop_props r x :
  Z.of_nat (length r) + 1 < 2 ^ 31 ->
  b2z x = 0 \/ b2z x = 128 ->
  forall i, (i <= length r)%nat ->
  let out := MinimallyEncode_loop (r ++ [x]) x i in
  bigint_deserialize out =
    Some (if b2z x <? 128 then le_value (firstn i r)
          else - le_value (firstn i r))
  /\ (forall cap, Z.of_nat (length out) <= cap ->
                  IsMinimallyEncoded out cap = true)
  /\ (length out <= S i)%nat
  /\ ((1 <= i)%nat -> b2z (nth (i - 1) r x00) < 128 ->
      (length out <= i)%nat).
Proof.
  intros Hlen Hx. induction i as [|i IH]; intro Hi; cbv zeta.
  - cbn [MinimallyEncode_loop firstn le_value length].
    rewrite bigint_deserialize_nil.
    repeat split; try lia.
    + destruct (b2z x <? 128); reflexivity.
    + intros cap Hcap. unfold IsMinimallyEncoded. cbn [length].
      destruct (Z.ltb_spec cap (Z.of_nat 0)); [lia|reflexivity].
  - specialize (IH ltac:(lia)). cbv zeta in IH.
    destruct IH as (IHv & IHm & IHl & _).
    cbn [MinimallyEncode_loop].
    rewrite (app_nth1 r [x] x00) by lia.
    set (y := nth i r x00). pose proof (b2z_range y) as Hy.
    assert (Hs : firstn (S i) r = firstn i r ++ [y])
      by (apply firstn_S_nth; lia).
    assert (Hls : length (firstn i r) = i)
      by (rewrite length_firstn; lia).
    rewrite byte_bit7.
    replace (S i - 1)%nat with i by lia. fold y.
    destruct (Z.eqb_spec (b2z y) 0) as [Hz|Hnz]; cbn [negb].
    { (* a zero byte: the loop goes on *)
      rewrite Hs, le_value_app. cbn [le_value]. rewrite Hz.
      replace (le_value (firstn i r)
               + 256 ^ Z.of_nat (length (firstn i r)) * (0 + 256 * 0))
        with (le_value (firstn i r)) by lia.
      repeat split; auto; lia. }
    destruct (Z.ltb_spec (b2z y) 128) as [Hsmall|Hbig]; cbn [negb].
    { (* the sign goes into the byte *)
      rewrite firstn_S_assign_at by (rewrite length_app; cbn [length]; lia).
      rewrite firstn_app_le by lia.
      assert (Hor : b2z (z2b (Z.lor (b2z y) (b2z x))) = b2z y + b2z x).
      { rewrite b2z_z2b, lor_sign by (auto; lia).
        apply Z.mod_small. destruct Hx as [-> | ->]; lia. }
      split; [|split; [|split]].
      - rewrite bigint_deserialize_value
          by (rewrite length_app, Hls; cbn [length]; lia).
        rewrite Hor, Hs, !le_value_app, Hls. cbn [le_value].
        rewrite Hor. f_equal.
        rewrite (Z.pow_add_r 2 (8 * Z.of_nat i) 7) by lia.
        rewrite <- (@pow256 (Z.of_nat i)) by lia.
        set (P := 256 ^ Z.of_nat i). change (2 ^ 7) with 128.
        destruct Hx as [-> | ->].
        + replace (b2z y + 0 <? 128) with true
            by (symmetry; apply Z.ltb_lt; lia).
          change (0 <? 128) with true. cbv iota. lia.
        + replace (b2z y + 128 <? 128) with false
            by (symmetry; apply Z.ltb_ge; lia).
          change (128 <? 128) with false. cbv iota. lia.
      - intros cap Hcap. rewrite length_app, Hls in Hcap.
        cbn [length] in Hcap.
        assert (Hm : (b2z (z2b (Z.lor (b2z y) (b2z x))) mod 128 =? 0)
                     = false).
        { rewrite Hor. apply Z.eqb_neq.
          destruct Hx as [-> | ->].
          - rewrite Z.add_0_r, Z.mod_small by lia. exact Hnz.
          - replace (b2z y + 128) with (b2z y + 1 * 128) by lia.
            rewrite Z.mod_add, Z.mod_small by lia. exact Hnz. }
        destruct i as [|i'].
        + cbn [firstn app]. rewrite IsMinimallyEncoded_one, Hm.
          destruct (Z.ltb_spec cap 1); [lia|reflexivity].
        + rewrite (@firstn_S_nth r i') by lia.
          rewrite IsMinimallyEncoded_two, Hm.
          rewrite length_firstn.
          destruct (Z.ltb_spec cap
                      (Z.of_nat (Nat.min i' (length r)) + 2)); [lia|].
          reflexivity.
      - rewrite length_app, Hls. cbn [length]. lia.
      - intros _ _. rewrite length_app, Hls. cbn [length]. lia. }
    { (* the sign needs a byte of its own *)
      rewrite firstn_S_assign_at by (rewrite length_app; cbn [length]; lia).
      rewrite firstn_app_le by lia. rewrite Hs.
      split; [|split; [|split]].
      - rewrite <- Hs.
        apply bigint_deserialize_signed; [|exact Hx].
        rewrite length_app, length_firstn. cbn [length]. lia.
      - intros cap Hcap. rewrite !length_app, Hls in Hcap.
        cbn [length] in Hcap.
        rewrite IsMinimallyEncoded_two, Hls.
        destruct (Z.ltb_spec cap (Z.of_nat i + 2)); [lia|].
        destruct (Z.ltb_spec (b2z y) 128); [lia|].
        cbn [negb andb]. apply orb_true_r.
      - rewrite !length_app, Hls. cbn [length]. lia.
      - intros _ H. lia. }
Qed.

Lemma MinimallyEncode_props data cap :
  Z.of_nat (length data) <= cap -> cap < 2 ^ 31 ->
  IsMinimallyEncoded (snd (MinimallyEncode data)) cap = true
  /\ bigint_deserialize (snd (MinimallyEncode data)) = bigint_deserialize data
  /\ (fst (MinimallyEncode data) = false -> snd (MinimallyEncode data) = data)
  /\ (fst (MinimallyEncode data) = true ->
      (length (snd (MinimallyEncode data)) < length data)%nat).
Proof.
  intros Hcap Hcap'. unfold MinimallyEncode.
  destruct data as [|a data'] using rev_ind.
  { cbn. repeat split; try discriminate.
    unfold IsMinimallyEncoded. cbn [length].
    destruct (Z.ltb_spec cap (Z.of_nat 0)); [lia|reflexivity]. }
  clear IHdata'. rename data' into r, a into x.
  rewrite length_app in *. cbn [length] in *.
  replace (length r + 1 =? 0)%nat with false
    by (symmetry; apply Nat.eqb_neq; lia).
  rewrite last_last.
  assert (Hmin_def : forall l : list byte,
             IsMinimallyEncoded (l ++ [x]) cap =
             if cap <? Z.of_nat (length l + 1) then false
             else if Z.land (b2z x) 0x7f =? 0 then
               if (length l + 1 <=? 1)%nat
                  || (Z.land (b2z (nth (length l + 1 - 2) (l ++ [x]) x00))
                        0x80 =? 0)
               then false else true
             else true).
  { intro l. unfold IsMinimallyEncoded. rewrite length_app, last_last.
    cbn [length].
    replace (0 <? length l + 1)%nat with true
      by (symmetry; apply Nat.ltb_lt; lia).
    reflexivity. }
  destruct (Z.eqb_spec (Z.land (b2z x) 0x7f) 0) as [Hx|Hx]; cbn [negb].
  2:{ cbn [fst snd]. repeat split; try discriminate.
      rewrite Hmin_def.
      destruct (Z.ltb_spec cap (Z.of_nat (length r + 1))); [lia|].
      destruct (Z.eqb_spec (Z.land (b2z x) 0x7f) 0); [lia|reflexivity]. }
  pose proof (sign_byte_cases x Hx) as Hx'.
  destruct (Nat.eqb_spec (length r + 1) 1) as [H1|H1].
  { cbn [fst snd]. destruct r; [|cbn [length] in H1; lia].
    repeat split; try discriminate.
    - unfold IsMinimallyEncoded. cbn [length].
      destruct (Z.ltb_spec cap (Z.of_nat 0)); [lia|reflexivity].
    - change ([] ++ [x]) with (@nil byte ++ [x]).
      rewrite bigint_deserialize_signed by (cbn [app length]; auto; lia).
      cbn [le_value]. destruct (b2z x <? 128); reflexivity.
    - cbn [app length]. lia. }
  destruct r as [|b r'] using rev_ind; [cbn [length] in H1; lia|].
  clear IHr'. rename r' into s, b into y.
  rewrite length_app in *. cbn [length] in *.
  replace (length s + 1 + 1 - 2)%nat with (length s) by lia.
  rewrite (app_nth1 (s ++ [y]) [x] x00)
    by (rewrite length_app; cbn [length]; lia).
  rewrite (app_nth2 s [y] x00) by lia.
  rewrite Nat.sub_diag. cbn [nth]. rewrite byte_bit7.
  destruct (Z.ltb_spec (b2z y) 128) as [Hy|Hy]; cbn [negb].
  2:{ cbn [fst snd]. repeat split; try discriminate.
      rewrite IsMinimallyEncoded_two.
      destruct (Z.ltb_spec cap (Z.of_nat (length s) + 2)); [lia|].
      destruct (Z.ltb_spec (b2z y) 128); [lia|].
      cbn [negb andb]. apply orb_true_r. }
  cbn [fst snd].
  replace (length s + 1 + 1 - 1)%nat with (length (s ++ [y]))
    by (rewrite length_app; cbn [length]; lia).
  destruct (@MinimallyEncode_loop_props (s ++ [y]) x
              ltac:(rewrite length_app; cbn [length]; lia) Hx'
              (length (s ++ [y])) (le_n _)) as (Hv & Hm & Hl & Hl').
  rewrite firstn_all in Hv.
  assert (Hshort : (length (MinimallyEncode_loop ((s ++ [y]) ++ [x]) x
                              (length (s ++ [y])))
                    <= length (s ++ [y]))%nat).
  { apply Hl'.
    - rewrite length_app. cbn [length]. lia.
    - rewrite length_app. cbn [length].
      replace (length s + 1 - 1)%nat with (length s) by lia.
      rewrite (app_nth2 s [y] x00) by lia.
      rewrite Nat.sub_diag. exact Hy. }
  pose proof (length_app s [y]) as Hls. cbn [length] in Hls.
  repeat split; try discriminate.
  - apply Hm. lia.
  - rewrite Hv. symmetry. apply bigint_deserialize_signed; [|exact Hx'].
    rewrite !length_app. cbn [length]. lia.
  - intros _. lia.
Qed.

Lemma MinimallyEncode_canonical data :
  Z.of_nat (length data) < 2 ^ 31 ->
  exists v,
    bigint_deserialize data = Some v
    /\ snd (MinimallyEncode data) = bigint_serialize v
    /\ (fst (MinimallyEncode data) = false <->
        snd (MinimallyEncode data) = data).
Proof.
  intro Hlen.
  assert (Hcap : exists cap, Z.of_nat (length data) <= cap < 2 ^ 31)
    by (exists (Z.of_nat (length data)); lia).
  destruct Hcap as (cap & Hcap1 & Hcap2).
  destruct (@MinimallyEncode_props data cap Hcap1 Hcap2)
    as (Hm & Hv & Hsame & Hshort).
  assert (Hof : exists v,
             CScriptNum_of_bytes (snd (MinimallyEncode data)) cap
             = Ok (BigNum v)
             /\ bigint_deserialize (snd (MinimallyEncode data)) = Some v).
  { revert Hm. generalize (snd (MinimallyEncode data)) as out.
    intros out Hm. unfold CScriptNum_of_bytes. rewrite Hm. cbn [negb].
    assert (Hle : Z.of_nat (length out) <= cap).
    { unfold IsMinimallyEncoded in Hm.
      destruct (Z.ltb_spec cap (Z.of_nat (length out)));
        [discriminate|lia]. }
    destruct (Z.ltb_spec cap (Z.of_nat (length out))); [lia|].
    destruct out as [|x r _] using rev_ind.
    - exists 0. split; reflexivity.
    - rewrite length_app in Hle. cbn [length] in Hle.
      rewrite bigint_deserialize_value
        by (rewrite length_app; cbn [length]; lia).
      destruct (r ++ [x]) eqn:E; [destruct r; discriminate|].
      eexists. split; reflexivity. }
  destruct Hof as (v & Hof & Hv').
  exists v. split; [congruence|]. split.
  - rewrite bigint_serialize_canonical.
    symmetry. apply (@sign_magnitude_of_bytes _ cap v); [lia|exact Hof].
  - split; [exact Hsame|].
    intro E. destruct (fst (MinimallyEncode data)); [|reflexivity].
    specialize (Hshort eq_refl). rewrite E in Hshort. lia.
Qed.

(** X8. [MinimallyEncode] turns every byte string into the serialization
    of the number that the string stands for (as [bigint::deserialize]
    reads it), so equal numbers get equal bytes; it returns [false]
    exactly when the string is left as it was. *)
Theorem X8_MinimallyEncode_canonical data :
  Z.of_nat (length data) < 2 ^ 31 ->
  exists v,
    bigint_deserialize data = Some v
    /\ snd (MinimallyEncode data) = bigint_serialize v
    /\ (fst (MinimallyEncode data) = false <->
        snd (MinimallyEncode data) = data).
Proof. exact (@MinimallyEncode_canonical data). Qed.

Lemma X8_MinimallyEncode_canonical_witness :
  exists v,
    bigint_deserialize [x05; x00; x00; x80] = Some v
    /\ snd (MinimallyEncode [x05; x00; x00; x80]) = bigint_serialize v
    /\ (fst (MinimallyEncode [x05; x00; x00; x80]) = false <->
        snd (MinimallyEncode [x05; x00; x00; x80])
        = [x05; x00; x00; x80]).
Proof.
  exact (@X8_MinimallyEncode_canonical [x05; x00; x00; x80] eq_refl).
Defined.

(** ** [OP_BIN2NUM] and [OP_NUM2BIN] *)

Lemma stacktop_at_last stack v : stacktop_at (stack ++ [v]) 1 = Ok v.
Proof.
  unfold stacktop_at, stacktop. rewrite length_app. cbn [length].
  destruct (Nat.ltb_spec (length stack + 1) 1); [lia|].
  rewrite nth_error_app2 by lia.
  replace (length stack + 1 - 1 - length stack)%nat with 0%nat by lia.
  reflexivity.
Qed.

Lemma set_stacktop_last stack v w :
  set_stacktop (stack ++ [v]) w = stack ++ [w].
Proof. unfold set_stacktop. now rewrite removelast_last. Qed.

Lemma op_BIN2NUM_value stack data st v :
  Z.of_nat (length data) <= MAXIMUM_ITEM_SIZE ->
  bigint_deserialize data = Some v ->
  op_BIN2NUM (stack ++ [data]) st =
    Ok (Next (stack ++ [bigint_serialize v]) st).
Proof.
  intros Hlen Hv. unfold op_BIN2NUM.
  rewrite length_app. cbn [length].
  destruct (Nat.ltb_spec (length stack + 1) 1); [lia|].
  rewrite stacktop_at_last. cbn [bind].
  unfold MAXIMUM_ITEM_SIZE in *.
  destruct (@MinimallyEncode_props data 100000 Hlen eq_refl)
    as (Hm & _ & _ & _).
  rewrite Hm. cbn [negb]. rewrite set_stacktop_last.
  destruct (@MinimallyEncode_canonical data ltac:(lia))
    as (v' & Hv' & Hs & _).
  rewrite Hs. rewrite Hv in Hv'. injection Hv' as ->. reflexivity.
Qed.

(** X9. On a top element of at most 100000 bytes [OP_BIN2NUM] never
    fails: it replaces the element by the serialization of the number
    the element stands for.  On an empty stack it is
    [INVALID_STACK_OPERATION]. *)
Theorem X9_BIN2NUM_normalizes stack data st :
  Z.of_nat (length data) <= MAXIMUM_ITEM_SIZE ->
  (exists v,
     bigint_deserialize data = Some v
     /\ op_BIN2NUM (stack ++ [data]) st =
          Ok (Next (stack ++ [bigint_serialize v]) st))
  /\ op_BIN2NUM [] st = Ok (Error ScriptError.INVALID_STACK_OPERATION).
Proof.
  intro Hlen. split; [|reflexivity].
  destruct (@MinimallyEncode_canonical data
              ltac:(unfold MAXIMUM_ITEM_SIZE in Hlen; lia))
    as (v & Hv & _).
  exists v. split; [exact Hv|].
  apply op_BIN2NUM_value; assumption.
Qed.

Lemma X9_BIN2NUM_normalizes_witness :
  exists v,
    bigint_deserialize [x05; x00; x80] = Some v
    /\ op_BIN2NUM ([[x01]] ++ [[x05; x00; x80]]) sample_state =
         Ok (Next ([[x01]] ++ [bigint_serialize v]) sample_state).
Proof.
  exact (proj1 (@X9_BIN2NUM_normalizes [[x01]] [x05; x00; x80]
                  sample_state ltac:(cbv; discriminate))).
Defined.

Lemma byte_land7f x : Z.land (b2z x) 0x7f = b2z x mod 128.
Proof. destruct x; reflexivity. Qed.

Lemma byte_land80 x :
  Z.land (b2z x) 0x80 = if b2z x <? 128 then 0 else 128.
Proof. destruct x; reflexivity. Qed.

Lemma le_value_zeros k : le_value (repeat x00 k) = 0.
Proof. induction k as [|k IH]; cbn [repeat le_value]; [|rewrite IH]; reflexivity. Qed.

Lemma repeat_snoc {A} (a : A) k : repeat a (S k) = repeat a k ++ [a].
Proof. induction k as [|k IH]; [reflexivity|]. cbn [repeat app] in *. now rewrite <- IH. Qed.

(** The script number of a size the interpreter accepts. *)
Lemma of_bytes_size size :
  0 <= size <= MAX_SCRIPT_ELEMENT_SIZE ->
  CScriptNum_of_bytes (bigint_serialize size) MAXIMUM_ITEM_SIZE
  = Ok (BigNum size).
Proof.
  intro Hs. rewrite bigint_serialize_canonical.
  apply of_bytes_sign_magnitude; [|reflexivity].
  destruct (Z.eq_dec size 0) as [->|Hnz]; [cbv; discriminate|].
  pose proof (@length_sign_magnitude_le size Hnz) as (_ & Hl).
  unfold top_index in Hl. rewrite Z.abs_eq in Hl by lia.
  assert (Z.log2 size <= Z.log2 4000)
    by (apply Z.log2_le_mono; unfold MAX_SCRIPT_ELEMENT_SIZE in Hs; lia).
  change (Z.log2 4000) with 11 in *.
  pose proof (Z.log2_nonneg size).
  assert (Z.log2 size / 8 < 2)
    by (apply Z.div_lt_upper_bound; lia).
  unfold MAXIMUM_ITEM_SIZE. lia.
Qed.

(** The vector [OP_NUM2BIN] leaves for a minimal encoding [enc] that is
    shorter than [size]. *)
Lemma NUM2BIN_padding enc size v :
  Z.of_nat (length enc) < size -> size < 2 ^ 31 ->
  bigint_deserialize enc = Some v ->
  let signbit :=
    if (0 <? length enc)%nat
    then Z.land (b2z (last enc x00)) 0x80 else 0x00 in
  let rawnum :=
    if (0 <? length enc)%nat
    then assign_at enc (length enc - 1)
           (z2b (Z.land (b2z (last enc x00)) 0x7f))
    else enc in
  let resized := rawnum ++ repeat x00 (Z.to_nat size - length rawnum) in
  let p := assign_at resized (length resized - 1) (z2b signbit) in
  Z.of_nat (length p) = size /\ bigint_deserialize p = Some v.
Proof.
  intros Hlen Hsize Hv.
  destruct enc as [|x r _] using rev_ind.
  - cbn [length Nat.ltb Nat.leb app]. cbv zeta.
    rewrite Nat.sub_0_r.
    rewrite bigint_deserialize_nil in Hv. injection Hv as <-.
    cbn [length] in Hlen.
    destruct (Z.to_nat size) as [|k] eqn:Ek; [lia|].
    rewrite repeat_snoc, length_app, repeat_length. cbn [length].
    replace (k + 1 - 1)%nat with (length (repeat x00 k))
      by (rewrite repeat_length; lia).
    rewrite assign_at_app_last. rewrite length_app, repeat_length.
    cbn [length]. split; [lia|].
    rewrite bigint_deserialize_signed.
    + rewrite le_value_zeros. reflexivity.
    + rewrite length_app, repeat_length. cbn [length]. lia.
    + left. reflexivity.
  - rewrite length_app in *. cbn [length] in *.
    replace (0 <? length r + 1)%nat with true
      by (symmetry; apply Nat.ltb_lt; lia).
    cbv zeta. rewrite last_last.
    replace (length r + 1 - 1)%nat with (length r) by lia.
    rewrite assign_at_app_last.
    set (x' := z2b (Z.land (b2z x) 0x7f)).
    rewrite length_app. cbn [length].
    destruct (Z.to_nat size - (length r + 1))%nat as [|k] eqn:Ek; [lia|].
    rewrite repeat_snoc, app_assoc.
    set (body := (r ++ [x']) ++ repeat x00 k).
    assert (Hlb : length body = (length r + 1 + k)%nat).
    { subst body. rewrite !length_app, repeat_length. reflexivity. }
    rewrite length_app, Hlb. cbn [length].
    replace (length r + 1 + k + 1 - 1)%nat with (length body) by lia.
    rewrite assign_at_app_last, length_app, Hlb. cbn [length].
    split; [lia|].
    pose proof (b2z_range x) as Hx.
    assert (Hsb : b2z (z2b (Z.land (b2z x) 0x80))
                  = if b2z x <? 128 then 0 else 128).
    { rewrite b2z_z2b, byte_land80.
      destruct (b2z x <? 128); reflexivity. }
    rewrite bigint_deserialize_signed.
    + rewrite bigint_deserialize_value in Hv
        by (rewrite length_app; cbn [length]; lia).
      rewrite <- Hv. f_equal. rewrite Hsb.
      subst body. rewrite !le_value_app, le_value_zeros. cbn [le_value].
      subst x'. rewrite b2z_z2b, byte_land7f.
      rewrite (Z.mod_small (b2z x mod 128) 256)
        by (pose proof (Z.mod_pos_bound (b2z x) 128); lia).
      rewrite (Z.pow_add_r 2 (8 * Z.of_nat (length r)) 7) by lia.
      rewrite <- (@pow256 (Z.of_nat (length r))) by lia.
      set (P := 256 ^ Z.of_nat (length r)). change (2 ^ 7) with 128.
      destruct (Z.ltb_spec (b2z x) 128).
      * change (0 <? 128) with true. cbv iota.
        rewrite Z.mod_small by lia. lia.
      * change (128 <? 128) with false. cbv iota.
        replace (b2z x mod 128) with (b2z x - 128)
          by (apply (Z.mod_unique_pos _ _ 1); lia).
        lia.
    + rewrite length_app, Hlb. cbn [length]. lia.
    + rewrite Hsb. destruct (b2z x <? 128); auto.
Qed.

Lemma length_assign_at {A} (v : list A) i (x : A) :
  length (assign_at v i x) = length v.
Proof.
  revert i; induction v as [|a v IH]; intros [|i]; cbn [assign_at length];
    try reflexivity.
  now rewrite IH.
Qed.

(** X10. [OP_NUM2BIN] pads the number under the top to the size on the
    top, whenever its minimal encoding fits that size (at most 4000);
    the result has exactly that many bytes, and [OP_BIN2NUM] brings it
    back to the serialization of the same number. *)
Theorem X10_NUM2BIN_then_BIN2NUM stack data size st v :
  Z.of_nat (length data) <= MAXIMUM_ITEM_SIZE ->
  bigint_deserialize data = Some v ->
  Z.of_nat (length (bigint_serialize v)) <= size <= MAX_SCRIPT_ELEMENT_SIZE ->
  exists p,
    op_NUM2BIN (stack ++ [data; bigint_serialize size]) st =
      Ok (Next (stack ++ [p]) st)
    /\ Z.of_nat (length p) = size
    /\ op_BIN2NUM (stack ++ [p]) st =
         Ok (Next (stack ++ [bigint_serialize v]) st).
Proof.
  intros Hlen Hv Hsize.
  unfold MAXIMUM_ITEM_SIZE, MAX_SCRIPT_ELEMENT_SIZE in *.
  destruct (@MinimallyEncode_canonical data ltac:(lia))
    as (v' & Hv' & Henc & _).
  rewrite Hv in Hv'. injection Hv' as <-.
  destruct (@MinimallyEncode_props data 100000 Hlen eq_refl)
    as (_ & Hval & _ & _).
  rewrite Henc, Hv in Hval.
  assert (Hstep : forall p,
             Z.of_nat (length p) = size ->
             bigint_deserialize p = Some v ->
             op_BIN2NUM (stack ++ [p]) st =
               Ok (Next (stack ++ [bigint_serialize v]) st)).
  { intros p Hp Hpv. apply op_BIN2NUM_value; [|exact Hpv].
    unfold MAXIMUM_ITEM_SIZE. lia. }
  unfold op_NUM2BIN.
  change (stack ++ [data; bigint_serialize size])
    with (stack ++ [data] ++ [bigint_serialize size]).
  rewrite app_assoc.
  rewrite length_app. cbn [length].
  destruct (Nat.ltb_spec (length (stack ++ [data]) + 1) 2) as [Hx|_].
  { rewrite length_app in Hx. cbn [length] in Hx. lia. }
  rewrite stacktop_at_last. cbn [bind].
  rewrite of_bytes_size
    by (unfold MAX_SCRIPT_ELEMENT_SIZE; lia).
  cbn [bind CScriptNum_value].
  unfold INT32_MAX, MAX_SCRIPT_ELEMENT_SIZE.
  destruct (Z.ltb_spec size 0); [lia|].
  destruct (Z.ltb_spec 2147483647 size); [lia|]. cbn [orb].
  destruct (Z.ltb_spec 4000 size); [lia|].
  rewrite removelast_last, stacktop_at_last. cbn [bind].
  rewrite Henc.
  destruct (Z.ltb_spec size (Z.of_nat (length (bigint_serialize v))));
    [lia|].
  destruct (Z.eqb_spec (Z.of_nat (length (bigint_serialize v))) size)
    as [He|Hne].
  { exists (bigint_serialize v). rewrite set_stacktop_last.
    split; [reflexivity|]. split; [exact He|].
    apply Hstep; assumption. }
  destruct (@NUM2BIN_padding (bigint_serialize v) size v
              ltac:(lia) ltac:(lia) Hval) as (Hpl & Hpv).
  cbv zeta in Hpl, Hpv.
  set (rawnum :=
         if (0 <? length (bigint_serialize v))%nat
         then assign_at (bigint_serialize v)
                (length (bigint_serialize v) - 1)
                (z2b (Z.land (b2z (last (bigint_serialize v) x00)) 127))
         else bigint_serialize v) in *.
  assert (Hlr : length rawnum = length (bigint_serialize v)).
  { subst rawnum. destruct (0 <? length (bigint_serialize v))%nat;
      [|reflexivity].
    apply length_assign_at. }
  rewrite Hlr.
  destruct (Z.ltb_spec (Z.of_nat (length (bigint_serialize v))) size);
    [|lia].
  rewrite set_stacktop_last.
  eexists. split; [reflexivity|].
  rewrite Hlr in Hpl, Hpv.
  split; [exact Hpl|]. apply Hstep; assumption.
Qed.

Lemma X10_NUM2BIN_then_BIN2NUM_witness :
  exists p,
    op_NUM2BIN ([] ++ [[x05; x80]; bigint_serialize 4]) sample_state =
      Ok (Next ([] ++ [p]) sample_state)
    /\ Z.of_nat (length p) = 4
    /\ op_BIN2NUM ([] ++ [p]) sample_state =
         Ok (Next ([] ++ [bigint_serialize (-5)]) sample_state).
Proof.
  apply (@X10_NUM2BIN_then_BIN2NUM [] [x05; x80] 4 sample_state (-5)).
  - cbv. discriminate.
  - reflexivity.
  - split; cbv; discriminate.
Defined.

(** ** Token balances *)

Lemma std_set_contains_insert id s :
  std_set_contains id (std_set_insert id s) = true.
Proof.
  unfold std_set_insert.
  destruct (std_set_contains id s) eqn:E; [exact E|].
  unfold std_set_contains. rewrite existsb_app. cbn [existsb].
  unfold uint288_eqb. rewrite String.eqb_refl. cbn [orb].
  apply orb_true_r.
Qed.

(** X11. A successful [contractFtBalanceAdd] credits the whole incoming
    amount of the token, modulo 2^64, to its balance and to the balance
    updates, leaves the other balances and the incoming table as they
    were, and can not be repeated: a second call for the token returns
    [false] and changes nothing. *)
Theorem X11_ft_balance_add_once ftId st st' :
  contractFtBalanceAdd ftId st = (true, st') ->
  (exists amount,
     om_find (GetHex ftId) (_ftStateIncoming st) = Some amount
     /\ 0 < amount
     /\ contractFtBalance ftId st' = u64 (contractFtBalance ftId st + amount)
     /\ om_find (GetHex ftId) (_ftBalancesUpdates st')
        = Some (u64 (contractFtBalance ftId st + amount)))
  /\ (forall other, GetHex other <> GetHex ftId ->
        contractFtBalance other st' = contractFtBalance other st)
  /\ _ftStateIncoming st' = _ftStateIncoming st
  /\ contractFtBalanceAdd ftId st' = (false, st').
Proof.
  unfold contractFtBalanceAdd, allowedFtBalanceAdd, performFtBalanceAdd.
  destruct (om_find (GetHex ftId) (_ftStateIncoming st)) as [amount|] eqn:Ei;
    [|discriminate].
  destruct (std_set_contains ftId (_ftAddsSet st)) eqn:Es; cbn [negb];
    [discriminate|].
  destruct (Z.leb_spec amount 0) as [|Hpos]; [discriminate|].
  cbn [with_ft_adds _ftStateIncoming _ftState _ftBalancesUpdates
       _ftWithdrawMap].
  rewrite Ei.
  destruct (Z.ltb_spec amount amount) as [|_]; [lia|].
  intro H. injection H as <-.
  cbn [with_ft with_ft_adds _ftStateIncoming _ftState _ftBalancesUpdates
       _ftAddsSet].
  unfold contractFtBalance.
  cbn [with_ft with_ft_adds _ftStateIncoming _ftState _ftBalancesUpdates
       _ftAddsSet].
  repeat split.
  - exists amount. rewrite !om_find_set, String.eqb_refl.
    repeat split; auto.
  - intros other Hne. rewrite om_find_set.
    destruct (String.eqb_spec (GetHex other) (GetHex ftId)); [contradiction|].
    reflexivity.
  - rewrite Ei, std_set_contains_insert. reflexivity.
Qed.

Lemma X11_ft_balance_add_once_witness :
  exists st',
    contractFtBalanceAdd sample_id
      (ScriptStateContext_new [] [(GetHex sample_id, 7)] [] [] [])
    = (true, st')
    /\ contractFtBalance sample_id st' = 7
    /\ contractFtBalanceAdd sample_id st' = (false, st').
Proof.
  eexists. split; [reflexivity|].
  destruct (@X11_ft_balance_add_once sample_id
              (ScriptStateContext_new [] [(GetHex sample_id, 7)] [] [] [])
              _ eq_refl) as (_ & _ & _ & H).
  split; [reflexivity|exact H].
Defined.

(** X12. A successful [contractNftPut] makes the token exist in the
    contract and marks it in the balance updates, and can not be
    repeated for the token. *)
Theorem X12_nft_put_once nftId st st' :
  contractNftPut nftId st = Ok (true, st') ->
  om_find (GetHex nftId) (_nftStateIncoming st) = Some true
  /\ contractNftExists nftId st' = true
  /\ om_find (GetHex nftId) (_nftBalancesUpdates st') = Some true
  /\ (forall other, GetHex other <> GetHex nftId ->
        contractNftExists other st' = contractNftExists other st)
  /\ contractNftPut nftId st' = Ok (false, st').
Proof.
  unfold contractNftPut, allowedNftPut, performNftPut.
  destruct (om_find (GetHex nftId) (_nftStateIncoming st)) as [allowed|]
    eqn:Ei; [|discriminate].
  destruct (std_set_contains nftId (_nftPutsSet st)) eqn:Es; cbn [negb];
    [discriminate|].
  destruct allowed; cbn [negb]; [|discriminate].
  unfold om_contains.
  cbn [with_nft_puts _nftStateIncoming _nftState _nftBalancesUpdates
       _nftWithdrawMap].
  rewrite Ei. cbn [negb].
  intro H. injection H as <-.
  unfold contractNftExists, om_contains.
  cbn [with_nft with_nft_puts _nftStateIncoming _nftState
       _nftBalancesUpdates _nftPutsSet].
  repeat split.
  - rewrite om_find_set, String.eqb_refl. reflexivity.
  - rewrite om_find_set, String.eqb_refl. reflexivity.
  - intros other Hne. rewrite om_find_set.
    destruct (String.eqb_spec (GetHex other) (GetHex nftId)); [contradiction|].
    reflexivity.
  - rewrite Ei, std_set_contains_insert. reflexivity.
Qed.

Lemma X12_nft_put_once_witness :
  exists st',
    contractNftPut sample_id
      (ScriptStateContext_new [] [] [] [(GetHex sample_id, true)] [])
    = Ok (true, st')
    /\ contractNftExists sample_id st' = true
    /\ contractNftPut sample_id st' = Ok (false, st').
Proof.
  eexists. split; [reflexivity|].
  destruct (@X12_nft_put_once sample_id
              (ScriptStateContext_new [] [] [] [(GetHex sample_id, true)] [])
              _ eq_refl) as (_ & H1 & _ & _ & H2).
  split; [exact H1|exact H2].
Defined.

(** X13. [contractWithdrawFt] succeeds exactly when the amount is
    positive and at most the balance of a token the contract holds;
    then the balance decreases by the amount (the new balance is also
    recorded in the balance updates) and no other balance changes.
    When it fails the state is left as it was. *)
Theorem X13_ft_withdraw_conserves ftId index amount st :
  let r := contractWithdrawFt ftId index amount st in
  (fst r = true <->
     0 < amount
     /\ om_contains (GetHex ftId) (_ftState st) = true
     /\ amount <= contractFtBalance ftId st)
  /\ (fst r = true ->
        contractFtBalance ftId (snd r) + amount = contractFtBalance ftId st
        /\ om_find (GetHex ftId) (_ftBalancesUpdates (snd r))
           = Some (contractFtBalance ftId st - amount)
        /\ forall other, GetHex other <> GetHex ftId ->
             contractFtBalance other (snd r) = contractFtBalance other st)
  /\ (fst r = false -> snd r = st).
Proof.
  cbv zeta. unfold contractWithdrawFt, contractFtBalance, om_contains.
  destruct (Z.leb_spec amount 0) as [Hle|Hpos]; cbn [fst snd].
  { repeat split; try discriminate; try lia;
      try (intros (? & ? & ?); (lia || discriminate)). }
  destruct (om_find (GetHex ftId) (_ftState st)) as [bal|] eqn:Eb;
    cbn [fst snd].
  2:{ repeat split; try discriminate; try lia;
        try (intros (? & ? & ?); (lia || discriminate)). }
  destruct (Z.ltb_spec bal amount) as [Hlt|Hge]; cbn [fst snd].
  { repeat split; try discriminate; try lia;
      try (intros (? & ? & ?); (lia || discriminate)). }
  cbn [with_ft _ftState _ftBalancesUpdates].
  split; [split; auto; intros _; repeat split; auto|].
  split; [|discriminate].
  intros _. split; [|split].
  - destruct (Z.eqb_spec (bal - amount) 0) as [Hz|Hnz].
    + rewrite om_find_erase, String.eqb_refl. lia.
    + rewrite om_find_set, String.eqb_refl. lia.
  - rewrite om_find_set, String.eqb_refl. reflexivity.
  - intros other Hne.
    destruct (Z.eqb_spec (bal - amount) 0).
    + rewrite om_find_erase.
      destruct (String.eqb_spec (GetHex other) (GetHex ftId));
        [contradiction|reflexivity].
    + rewrite om_find_set.
      destruct (String.eqb_spec (GetHex other) (GetHex ftId));
        [contradiction|reflexivity].
Qed.

(** X14. [contractWithdrawNft] succeeds exactly when the token is in
    the contract's table; then the token no longer exists there, the
    balance updates record it as [false], and a further withdrawal of
    it fails.  When it fails the state is left as it was. *)
Theorem X14_nft_withdraw_once nftId index index' st :
  let r := contractWithdrawNft nftId index st in
  (fst r = om_contains (GetHex nftId) (_nftState st))
  /\ (fst r = true ->
        contractNftExists nftId (snd r) = false
        /\ om_find (GetHex nftId) (_nftBalancesUpdates (snd r)) = Some false
        /\ contractWithdrawNft nftId index' (snd r) = (false, snd r)
        /\ forall other, GetHex other <> GetHex nftId ->
             contractNftExists other (snd r) = contractNftExists other st)
  /\ (fst r = false -> snd r = st).
Proof.
  cbv zeta. unfold contractWithdrawNft, contractNftExists.
  destruct (om_contains (GetHex nftId) (_nftState st)) eqn:Ec;
    cbn [negb fst snd].
  2:{ repeat split; discriminate. }
  cbn [with_nft _nftState _nftBalancesUpdates].
  split; [reflexivity|]. split; [|discriminate].
  intros _. rewrite om_contains_erase, String.eqb_refl. cbn [negb andb].
  rewrite om_find_erase, om_find_set, String.eqb_refl.
  repeat split.
  intros other Hne. rewrite om_find_erase.
  destruct (String.eqb_spec (GetHex other) (GetHex nftId));
    [contradiction|reflexivity].
Qed.

(** ** The format of the key-value state *)

Lemma hex_pair_lower b :
  is_lower_hex_digit (hex_char (b2z b / 16)) = true
  /\ is_lower_hex_digit (hex_char (b2z b mod 16)) = true.
Proof. destruct b; split; reflexivity. Qed.

Lemma only_lower_hex_digits_HexStr v : only_lower_hex_digits (HexStr v) = true.
Proof.
  induction v as [|b v IH]; [reflexivity|].
  cbn [HexStr only_lower_hex_digits].
  destruct (hex_pair_lower b) as (-> & ->). exact IH.
Qed.

Lemma length_HexStr v : String.length (HexStr v) = (2 * length v)%nat.
Proof.
  induction v as [|b v IH]; [reflexivity|].
  cbn [HexStr String.length length]. rewrite IH. lia.
Qed.

Lemma isHexStr_HexStr v : isHexStr (HexStr v) = negb (length v =? 0)%nat.
Proof.
  unfold isHexStr. rewrite only_lower_hex_digits_HexStr, length_HexStr.
  rewrite Nat.mul_comm, Nat.Div0.mod_mul. cbn [andb Nat.eqb].
  destruct v; cbn [length]; [reflexivity|].
  destruct (Nat.leb_spec 2 (S (length v) * 2)); [reflexivity|lia].
Qed.

Lemma isHexStr_HexStrWith00Null v : isHexStr (HexStrWith00Null v) = true.
Proof.
  destruct v as [|b v]; [reflexivity|].
  cbn [HexStrWith00Null]. rewrite isHexStr_HexStr. reflexivity.
Qed.

Section OmapForall.
Variable V : Type.
Variable P : string * V -> Prop.

Lemma Forall_om_set k (v : V) (m : omap V) :
  Forall P m -> P (k, v) -> Forall P (om_set k v m).
Proof.
  intros Hm Hv. induction m as [|[k0 v0] r IH]; cbn [om_set].
  - constructor; [exact Hv|constructor].
  - inversion Hm as [|? ? H0 Hr]; subst.
    destruct (String.eqb_spec k k0) as [->|].
    + constructor; assumption.
    + constructor; [assumption|]. apply IH. assumption.
Qed.

Lemma Forall_om_erase k (m : omap V) : Forall P m -> Forall P (om_erase k m).
Proof.
  intro Hm. unfold om_erase. apply Forall_forall. intros x Hx.
  apply filter_In in Hx. destruct Hx as (Hx & _).
  revert x Hx. apply Forall_forall. exact Hm.
Qed.

Lemma om_find_In k (m : omap V) v :
  om_find k m = Some v -> In (k, v) m.
Proof.
  induction m as [|[k0 v0] r IH]; cbn [om_find]; [discriminate|].
  destruct (String.eqb_spec k k0) as [->|].
  - intro H. injection H as ->. left. reflexivity.
  - intro H. right. apply IH. exact H.
Qed.
End OmapForall.

Section KeyspaceForall.
Variable V : Type.
Variable Q : string * V -> Prop.

(** The format of a two-level map: hex keyspace names over nodes whose
    members satisfy [Q]. *)
Local Abbreviation good :=
  (fun ksn : string * omap V =>
     isHexStr (fst ksn) = true /\ Forall Q (snd ksn)).

Lemma good_ensure ks (m : omap (omap V)) :
  isHexStr ks = true -> Forall good m ->
  Forall good (ensureKeyspaceExists m ks).
Proof.
  intros Hks Hm. unfold ensureKeyspaceExists.
  destruct (om_find ks m); [exact Hm|].
  apply Forall_om_set; [exact Hm|]. split; [exact Hks|constructor].
Qed.

Lemma good_modify ks (f : omap V -> omap V) (m : omap (omap V)) :
  (forall node, Forall Q node -> Forall Q (f node)) ->
  Forall good m -> Forall good (om_modify ks f m).
Proof.
  intros Hf Hm. unfold om_modify.
  destruct (om_find ks m) as [node|] eqn:E; [|exact Hm].
  apply om_find_In in E.
  pose proof (proj1 (Forall_forall good m) Hm _ E) as (Hk & Hn).
  apply Forall_om_set; [exact Hm|]. split; [exact Hk|].
  apply Hf. exact Hn.
Qed.

End KeyspaceForall.

Import StateValidation.

Lemma State_keys_valid (node : omap string) : forall bc,
  Forall (fun kv => isHexStr (fst kv) = true /\ isHexStr (snd kv) = true)
    node <->
  exists n,
    State_keys (map (fun kv => (fst kv, JString (snd kv))) node) bc = Valid n.
Proof.
  induction node as [|[k v] r IH]; intro bc; cbn [map State_keys fst snd].
  - split; [intros _; eexists; reflexivity|constructor].
  - destruct (isHexStr k) eqn:Ek; cbn [negb].
    2:{ split; [|intros (n & H); discriminate H].
        intro H. inversion H as [|? ? (Hk & _) _]. cbn in Hk. congruence. }
    destruct (isHexStr v) eqn:Ev; cbn [negb].
    2:{ split; [|intros (n & H); discriminate H].
        intro H. inversion H as [|? ? (_ & Hv) _]. cbn in Hv. congruence. }
    rewrite <- IH. split.
    + intro H. inversion H. assumption.
    + intro H. constructor; [split; assumption|exact H].
Qed.

Lemma State_keyspaces_valid (m : omap (omap string)) : forall bc,
  Forall (fun ksn =>
            (isHexStr (fst ksn) = true
             /\ Forall (fun kv => isHexStr (fst kv) = true
                                  /\ isHexStr (snd kv) = true) (snd ksn))
            /\ snd ksn <> []) m <->
  exists n, State_keyspaces (items (json_of_kv m)) bc = Valid n.
Proof.
  unfold json_of_kv, items.
  induction m as [|[k node] r IH]; intro bc;
    cbn [map State_keyspaces fst snd].
  - split; [intros _; eexists; reflexivity|constructor].
  - destruct (isHexStr k) eqn:Ek; cbn [negb].
    2:{ split; [|intros (n & H); discriminate H].
        intro H. inversion H as [|? ? ((Hk & _) & _) _]. cbn in Hk.
        congruence. }
    destruct node as [|kv node'].
    { cbn [map]. split; [|intros (n & H); discriminate H].
      intro H. inversion H as [|? ? (_ & Hn) _]. cbn in Hn.
      contradiction. }
    set (node := kv :: node').
    assert (Hne : node <> []) by discriminate.
    change (map (fun kv0 : string * string => (fst kv0, JString (snd kv0)))
              (kv :: node'))
      with (map (fun kv0 : string * string => (fst kv0, JString (snd kv0)))
              node).
    destruct (map (fun kv0 : string * string => (fst kv0, JString (snd kv0)))
                node) as [|j js] eqn:Em.
    { destruct node; [contradiction|discriminate]. }
    rewrite <- Em. clear Em j js.
    pose proof (State_keys_valid node
                  (u32 (bc + Z.of_nat (String.length k / 2)))) as Hnode.
    destruct (State_keys _ _) as [bc'|e].
    + rewrite <- IH. split.
      * intro H. inversion H. assumption.
      * intro H. constructor; [|exact H]. cbn [fst snd].
        repeat split; auto. apply Hnode. eexists; reflexivity.
    + split; [|intros (n & H); discriminate H].
      intro H. inversion H as [|? ? ((_ & Hn) & _) _]. cbn in Hn.
      apply Hnode in Hn. destruct Hn as (n & Hn). discriminate Hn.
Qed.

Lemma StateDeletes_keys_valid (node : omap bool) : forall bc,
  Forall (fun kv => isHexStr (fst kv) = true /\ snd kv = true) node ->
  exists n,
    StateDeletes_keys (map (fun kv => (fst kv, JBool (snd kv))) node) bc
    = Valid n.
Proof.
  induction node as [|[k v] r IH]; intros bc H;
    cbn [map StateDeletes_keys fst snd].
  - eexists; reflexivity.
  - inversion H as [|? ? (Hk & Hv) Hr]; subst. cbn [fst snd] in *.
    rewrite Hk, Hv. cbn [negb]. apply IH. exact Hr.
Qed.

Lemma StateDeletes_keyspaces_valid (m : omap (omap bool)) : forall bc,
  Forall (fun ksn =>
            (isHexStr (fst ksn) = true
             /\ Forall (fun kv => isHexStr (fst kv) = true
                                  /\ snd kv = true) (snd ksn))
            /\ snd ksn <> []) m ->
  exists n, StateDeletes_keyspaces (items (json_of_deletes m)) bc = Valid n.
Proof.
  unfold json_of_deletes, items.
  induction m as [|[k node] r IH]; intros bc H;
    cbn [map StateDeletes_keyspaces fst snd].
  - eexists; reflexivity.
  - inversion H as [|? ? ((Hk & Hn) & Hne) Hr]; subst. cbn [fst snd] in *.
    rewrite Hk. cbn [negb].
    destruct (@StateDeletes_keys_valid node
                (u32 (bc + Z.of_nat (String.length k / 2))) Hn)
      as (n & Hv).
    destruct node as [|kv node']; [contradiction|].
    cbn [map] in *. rewrite Hv. apply IH. exact Hr.
Qed.

Local Abbreviation good_state :=
  (Forall (fun ksn : string * omap string =>
             isHexStr (fst ksn) = true
             /\ Forall (fun kv : string * string =>
                          isHexStr (fst kv) = true
                          /\ isHexStr (snd kv) = true) (snd ksn))).

Local Abbreviation good_deletes :=
  (Forall (fun ksn : string * omap bool =>
             isHexStr (fst ksn) = true
             /\ Forall (fun kv : string * bool =>
                          isHexStr (fst kv) = true /\ snd kv = true)
                  (snd ksn))).

Lemma kv_format_step o st :
  good_state (_contractState st) ->
  good_state (_contractStateUpdates st) ->
  good_deletes (_contractStateDeletes st) ->
  good_state (_contractState (kv_step o st))
  /\ good_state (_contractStateUpdates (kv_step o st))
  /\ good_deletes (_contractStateDeletes (kv_step o st)).
Proof.
  intros Hs Hu Hd.
  destruct o as [ks kn v|ks kn]; cbn [kv_step];
    unfold contractStatePut, contractStateDelete;
    cbn [with_kv _contractState _contractStateUpdates
         _contractStateDeletes];
    pose proof (isHexStr_HexStrWith00Null ks) as Hks;
    pose proof (isHexStr_HexStrWith00Null kn) as Hkn.
  - pose proof (isHexStr_HexStrWith00Null v) as Hv.
    repeat split.
    + apply good_modify; [|apply good_ensure; assumption].
      intros node Hn. apply Forall_om_set; [exact Hn|]. split; assumption.
    + apply good_modify; [|apply good_ensure; assumption].
      intros node Hn. apply Forall_om_set; [exact Hn|]. split; assumption.
    + apply good_modify; [|apply good_ensure; assumption].
      intros node Hn. apply Forall_om_erase. exact Hn.
  - repeat split.
    + apply good_modify; [|apply good_ensure; assumption].
      intros node Hn. apply Forall_om_erase. exact Hn.
    + apply good_modify; [|apply good_ensure; assumption].
      intros node Hn. apply Forall_om_erase. exact Hn.
    + apply good_modify; [|apply good_ensure; assumption].
      intros node Hn. apply Forall_om_set; [exact Hn|].
      split; [assumption|reflexivity].
Qed.

Lemma kv_format_run ops : forall st,
  good_state (_contractState st) ->
  good_state (_contractStateUpdates st) ->
  good_deletes (_contractStateDeletes st) ->
  good_state (_contractState (kv_run ops st))
  /\ good_state (_contractStateUpdates (kv_run ops st))
  /\ good_deletes (_contractStateDeletes (kv_run ops st)).
Proof.
  induction ops as [|o ops IH]; intros st Hs Hu Hd; cbn [kv_run].
  - auto.
  - destruct (@kv_format_step o st Hs Hu Hd) as (Hs' & Hu' & Hd').
    apply IH; assumption.
Qed.

(** X15. The key-value operations keep the contract state in the format
    the validation asks for, up to empty keyspaces.  If the validation
    accepted the initial contract state, then after any [OP_KV_PUT] and
    [OP_KV_DELETE] operations every selection of keyspaces of the state,
    of the updates and of the deletes that holds no empty keyspace
    passes its format validation; and the validation of the whole state,
    and of the whole updates, succeeds exactly when no keyspace in it is
    empty. *)
Theorem X15_kv_operations_keep_format
    ftState ftIncoming nftState nftIncoming contractState ops n0 :
  performValidateStateRestrictionsState (json_of_kv contractState)
    = Valid n0 ->
  let st := kv_run ops (ScriptStateContext_new ftState ftIncoming
                          nftState nftIncoming contractState) in
  (forall m : omap (omap string),
     incl m (_contractState st) ->
     Forall (fun ksn => snd ksn <> []) m ->
     exists n,
       performValidateStateRestrictionsState (json_of_kv m) = Valid n)
  /\ (forall m : omap (omap string),
        incl m (_contractStateUpdates st) ->
        Forall (fun ksn => snd ksn <> []) m ->
        exists n,
          performValidateStateRestrictionsState (json_of_kv m) = Valid n)
  /\ (forall m : omap (omap bool),
        incl m (_contractStateDeletes st) ->
        Forall (fun ksn => snd ksn <> []) m ->
        exists n,
          performValidateStateRestrictionsStateDeletes (json_of_deletes m)
          = Valid n)
  /\ ((exists n,
         performValidateStateRestrictionsState
           (json_of_kv (_contractState st)) = Valid n)
      <-> Forall (fun ksn => snd ksn <> []) (_contractState st))
  /\ ((exists n,
         performValidateStateRestrictionsState
           (json_of_kv (_contractStateUpdates st)) = Valid n)
      <-> Forall (fun ksn => snd ksn <> []) (_contractStateUpdates st)).
Proof.
  intros Hinit st.
  assert (H0 : good_state contractState).
  { unfold performValidateStateRestrictionsState in Hinit.
    pose proof (proj2 (State_keyspaces_valid contractState 0)
                  (ex_intro _ n0 Hinit)) as H.
    eapply Forall_impl; [|exact H]. intros a (Ha & _). exact Ha. }
  destruct (@kv_format_run ops
              (ScriptStateContext_new ftState ftIncoming nftState
                 nftIncoming contractState) H0
              (Forall_nil _) (Forall_nil _)) as (Hs & Hu & Hd).
  fold st in Hs, Hu, Hd.
  assert (Hstate : forall big m : omap (omap string),
            good_state big -> incl m big ->
            Forall (fun ksn => snd ksn <> []) m ->
            exists n,
              performValidateStateRestrictionsState (json_of_kv m)
              = Valid n).
  { intros big m Hbig Hin Hne.
    apply (proj1 (State_keyspaces_valid m 0)).
    apply Forall_forall. intros x Hx. split.
    - exact (proj1 (Forall_forall _ big) Hbig x (Hin x Hx)).
    - exact (proj1 (Forall_forall _ m) Hne x Hx). }
  assert (Hwhole : forall big : omap (omap string),
            good_state big ->
            (exists n,
               performValidateStateRestrictionsState (json_of_kv big)
               = Valid n)
            <-> Forall (fun ksn => snd ksn <> []) big).
  { intros big Hbig. split.
    - intro Hv. apply (proj2 (State_keyspaces_valid big 0)) in Hv.
      eapply Forall_impl; [|exact Hv]. intros a (_ & Ha). exact Ha.
    - intro Hne. apply (Hstate big big Hbig (incl_refl _) Hne). }
  split; [intros m; apply Hstate; exact Hs|].
  split; [intros m; apply Hstate; exact Hu|].
  split; [|split; [apply Hwhole; exact Hs|apply Hwhole; exact Hu]].
  intros m Hin Hne.
  apply (@StateDeletes_keyspaces_valid m 0).
  apply Forall_forall. intros x Hx. split.
  - exact (proj1 (Forall_forall _ _) Hd x (Hin x Hx)).
  - exact (proj1 (Forall_forall _ m) Hne x Hx).
Qed.

Lemma X15_kv_operations_keep_format_witness :
  (exists n,
     performValidateStateRestrictionsState
       (json_of_kv [("00"%string, [("6b"%string, "00"%string)])]) = Valid n)
  /\ ~ (exists n,
          performValidateStateRestrictionsState
            (json_of_kv
               (_contractState
                  (kv_run [KvPut [] [x6b] []; KvDelete [x01] [x02]]
                     sample_state))) = Valid n).
Proof.
  pose proof (@X15_kv_operations_keep_format [(GetHex sample_id, 10)] []
                [(GetHex sample_id, true)] []
                [] [KvPut [] [x6b] []; KvDelete [x01] [x02]] 0 eq_refl)
    as (Hparts & _ & _ & Hwhole & _).
  split.
  - apply Hparts.
    + intros x [<-|[]]. left. reflexivity.
    + repeat constructor. discriminate.
  - intro Hv. apply Hwhole in Hv. inversion Hv as [|? ? _ Hrest].
    inversion Hrest as [|? ? Hempty _]. apply Hempty. reflexivity.
Defined.

(** ** Laws of the key-value store *)

Lemma HexStr_inj a b : HexStr a = HexStr b -> a = b.
Proof.
  intro H. rewrite <- (ParseHex_HexStr a), <- (ParseHex_HexStr b).
  now rewrite H.
Qed.

Lemma om_find_modify_ensure {V} ks K (f : omap V -> omap V)
    (m : omap (omap V)) :
  om_find ks (om_modify K f (ensureKeyspaceExists m K)) =
    if String.eqb ks K then Some (f (keyspace_node K m)) else om_find ks m.
Proof.
  unfold om_modify. rewrite (om_find_ensure K K m), String.eqb_refl.
  rewrite om_find_set, om_find_ensure.
  destruct (String.eqb ks K); reflexivity.
Qed.

Lemma contractStateGet_put ks kn v ks' kn' st :
  ks <> [] -> kn <> [] ->
  contractStateGet ks' kn' [] (contractStatePut ks kn v st) =
    if String.eqb (HexStr ks') (HexStr ks)
       && String.eqb (HexStr kn') (HexStr kn)
    then (true, ParseHex (HexStrWith00Null v))
    else contractStateGet ks' kn' [] st.
Proof.
  intros Hks Hkn. unfold contractStateGet, contractStatePut.
  cbn [with_kv _contractState].
  rewrite !(HexStrWith00Null_nonempty Hks), !(HexStrWith00Null_nonempty Hkn).
  rewrite om_find_modify_ensure.
  destruct (String.eqb_spec (HexStr ks') (HexStr ks)) as [E|]; cbn [andb];
    [|reflexivity].
  rewrite om_find_set, E.
  destruct (String.eqb (HexStr kn') (HexStr kn)); [reflexivity|].
  unfold keyspace_node.
  destruct (om_find (HexStr ks) (_contractState st)); reflexivity.
Qed.

Lemma contractStateGet_delete ks kn ks' kn' st :
  ks <> [] -> kn <> [] ->
  contractStateGet ks' kn' [] (contractStateDelete ks kn st) =
    if String.eqb (HexStr ks') (HexStr ks)
       && String.eqb (HexStr kn') (HexStr kn)
    then (false, [])
    else contractStateGet ks' kn' [] st.
Proof.
  intros Hks Hkn. unfold contractStateGet, contractStateDelete.
  cbn [with_kv _contractState].
  rewrite !(HexStrWith00Null_nonempty Hks), !(HexStrWith00Null_nonempty Hkn).
  rewrite om_find_modify_ensure.
  destruct (String.eqb_spec (HexStr ks') (HexStr ks)) as [E|]; cbn [andb];
    [|reflexivity].
  rewrite om_find_erase, E.
  destruct (String.eqb (HexStr kn') (HexStr kn)); [reflexivity|].
  unfold keyspace_node.
  destruct (om_find (HexStr ks) (_contractState st)); reflexivity.
Qed.

Lemma contractStateExists_get ks kn st :
  contractStateExists ks kn st = fst (contractStateGet ks kn [] st).
Proof.
  unfold contractStateExists, contractStateGet, om_contains.
  destruct (om_find (HexStr ks) (_contractState st)) as [node|];
    [|reflexivity].
  destruct (om_find (HexStr kn) node); reflexivity.
Qed.

(** X16. For a non-empty keyspace and key, the key-value store behaves
    as a map.  A get after a put returns the value put (an empty value
    comes back as the single byte 00); after a delete the key is not
    found; and a put or delete of one key leaves the result of a get
    of every other key unchanged.  [contractStateExists] always agrees
    with the result of [contractStateGet]. *)
Theorem X16_kv_store_laws ks kn v ks' kn' st :
  ks <> [] -> kn <> [] ->
  contractStateGet ks kn [] (contractStatePut ks kn v st)
    = (true, match v with [] => [x00] | _ => v end)
  /\ contractStateGet ks kn [] (contractStateDelete ks kn st) = (false, [])
  /\ (ks' <> ks \/ kn' <> kn ->
      contractStateGet ks' kn' [] (contractStatePut ks kn v st)
        = contractStateGet ks' kn' [] st
      /\ contractStateGet ks' kn' [] (contractStateDelete ks kn st)
           = contractStateGet ks' kn' [] st)
  /\ contractStateExists ks' kn' (contractStatePut ks kn v st)
       = fst (contractStateGet ks' kn' [] (contractStatePut ks kn v st)).
Proof.
  intros Hks Hkn. repeat split.
  - rewrite contractStateGet_put by assumption.
    rewrite !String.eqb_refl. cbn [andb]. f_equal.
    destruct v; [reflexivity|].
    cbn [HexStrWith00Null]. apply ParseHex_HexStr.
  - rewrite contractStateGet_delete by assumption.
    rewrite !String.eqb_refl. reflexivity.
  - rewrite contractStateGet_put by assumption.
    destruct (String.eqb_spec (HexStr ks') (HexStr ks)) as [E1|];
      [|reflexivity].
    destruct (String.eqb_spec (HexStr kn') (HexStr kn)) as [E2|];
      [|reflexivity].
    apply HexStr_inj in E1. apply HexStr_inj in E2.
    destruct H; contradiction.
  - rewrite contractStateGet_delete by assumption.
    destruct (String.eqb_spec (HexStr ks') (HexStr ks)) as [E1|];
      [|reflexivity].
    destruct (String.eqb_spec (HexStr kn') (HexStr kn)) as [E2|];
      [|reflexivity].
    apply HexStr_inj in E1. apply HexStr_inj in E2.
    destruct H; contradiction.
  - apply contractStateExists_get.
Qed.

Lemma X16_kv_store_laws_witness :
  contractStateGet [x6e] [x6b] []
    (contractStatePut [x6e] [x6b] [] sample_state) = (true, [x00])
  /\ contractStateGet [x6e] [x6b] []
       (contractStateDelete [x6e] [x6b] sample_state) = (false, []).
Proof.
  destruct (@X16_kv_store_laws [x6e] [x6b] [] [] [] sample_state
              ltac:(discriminate) ltac:(discriminate))
    as (H1 & H2 & _).
  exact (conj H1 H2).
Defined.

(** ** The truth value of a stack element *)

Lemma byte_eqb_x00 b : Byte.eqb b x00 = (b2z b =? 0).
Proof. destruct b; reflexivity. Qed.

Lemma byte_eqb_x80 b : Byte.eqb b x80 = (b2z b =? 128).
Proof. destruct b; reflexivity. Qed.

Lemma CastToBool_snoc r x :
  CastToBool (r ++ [x]) =
    negb ((le_value r =? 0) && ((b2z x =? 0) || (b2z x =? 128))).
Proof.
  induction r as [|b r IH].
  - cbn [app CastToBool le_value]. rewrite byte_eqb_x00, byte_eqb_x80.
    destruct (b2z x =? 0); reflexivity.
  - cbn [app CastToBool le_value]. rewrite byte_eqb_x00.
    pose proof (b2z_range b). pose proof (le_value_range r).
    destruct (Z.eqb_spec (b2z b) 0) as [Hb|Hb].
    + rewrite IH, Hb.
      replace (0 + 256 * le_value r =? 0) with (le_value r =? 0)
        by (destruct (Z.eqb_spec (le_value r) 0),
              (Z.eqb_spec (0 + 256 * le_value r) 0); lia || reflexivity).
      reflexivity.
    + replace (b2z b + 256 * le_value r =? 0) with false
        by (symmetry; apply Z.eqb_neq; lia).
      destruct (r ++ [x]) eqn:E; [destruct r; discriminate|reflexivity].
Qed.

(** X17. [CastToBool] of a stack element is whether the number the
    element stands for, as [bigint::deserialize] reads it, is not zero;
    negative zero is false as well. *)
Theorem X17_CastToBool_is_nonzero vch :
  Z.of_nat (length vch) < 2 ^ 31 ->
  exists v,
    bigint_deserialize vch = Some v /\ CastToBool vch = negb (v =? 0).
Proof.
  intro Hlen. destruct vch as [|x r _] using rev_ind.
  - exists 0. split; reflexivity.
  - rewrite bigint_deserialize_value by exact Hlen.
    eexists. split; [reflexivity|].
    rewrite CastToBool_snoc, le_value_app. cbn [le_value].
    rewrite (Z.pow_add_r 2 (8 * Z.of_nat (length r)) 7) by lia.
    rewrite <- (@pow256 (Z.of_nat (length r))) by lia.
    change (2 ^ 7) with 128.
    assert (HP : 0 < 256 ^ Z.of_nat (length r))
      by (apply Z.pow_pos_nonneg; lia).
    set (P := 256 ^ Z.of_nat (length r)) in *.
    pose proof (b2z_range x). pose proof (le_value_range r) as Hr.
    fold P in Hr. f_equal.
    destruct (Z.ltb_spec (b2z x) 128).
    + destruct (Z.eqb_spec (le_value r) 0) as [E|E]; cbn [andb].
      * rewrite E.
        destruct (Z.eqb_spec (b2z x) 0), (Z.eqb_spec (b2z x) 128),
          (Z.eqb_spec (0 + P * (b2z x + 256 * 0)) 0);
          cbn [orb]; try reflexivity; nia.
      * symmetry. apply Z.eqb_neq. nia.
    + destruct (Z.eqb_spec (le_value r) 0) as [E|E]; cbn [andb].
      * rewrite E.
        destruct (Z.eqb_spec (b2z x) 0), (Z.eqb_spec (b2z x) 128),
          (Z.eqb_spec (- (0 + P * (b2z x + 256 * 0) - P * 128)) 0);
          cbn [orb]; try reflexivity; nia.
      * symmetry. apply Z.eqb_neq. nia.
Qed.

Lemma X17_CastToBool_is_nonzero_witness :
  exists v,
    bigint_deserialize [x00; x00; x80] = Some v
    /\ CastToBool [x00; x00; x80] = negb (v =? 0).
Proof.
  exact (@X17_CastToBool_is_nonzero [x00; x00; x80] eq_refl).
Defined.

(** ** [OP_CAT], [OP_SPLIT] and [OP_EQUAL] *)

Lemma stacktop_at_pair (stack : list valtype) (a b : valtype) :
  stacktop_at (stack ++ [a; b]) 2 = Ok a
  /\ stacktop_at (stack ++ [a; b]) 1 = Ok b.
Proof.
  split.
  - unfold stacktop_at, stacktop. rewrite length_app. cbn [length].
    destruct (Nat.ltb_spec (length stack + 2) 2); [lia|].
    rewrite nth_error_app2 by lia.
    replace (length stack + 2 - 2 - length stack)%nat with 0%nat by lia.
    reflexivity.
  - change (stack ++ [a; b]) with (stack ++ [a] ++ [b]).
    rewrite app_assoc. apply stacktop_at_last.
Qed.

Lemma popstack_pair (stack : list valtype) (a b : valtype) :
  popstack (stack ++ [a; b]) = stack ++ [a]
  /\ popstack (popstack (stack ++ [a; b])) = stack.
Proof.
  unfold popstack.
  change (stack ++ [a; b]) with (stack ++ [a] ++ [b]).
  rewrite app_assoc, !removelast_last. auto.
Qed.

Lemma op_CAT_pair (stack : list valtype) (x1 x2 : valtype) st :
  Z.of_nat (length x1 + length x2) <= MAX_SCRIPT_ELEMENT_SIZE ->
  op_CAT (stack ++ [x1; x2]) st = Ok (Next (stack ++ [x1 ++ x2]) st).
Proof.
  intro Hlen. unfold op_CAT. rewrite length_app. cbn [length].
  destruct (Nat.ltb_spec (length stack + 2) 2); [lia|].
  destruct (stacktop_at_pair stack x1 x2) as (-> & ->). cbn [bind].
  destruct (Z.ltb_spec MAX_SCRIPT_ELEMENT_SIZE
              (Z.of_nat (length x1 + length x2))); [lia|].
  destruct (popstack_pair stack x1 x2) as (-> & _).
  rewrite set_stacktop_last. reflexivity.
Qed.

Lemma op_SPLIT_at (stack : list valtype) (data : valtype) n st :
  0 <= n <= Z.of_nat (length data) -> n <= MAX_SCRIPT_ELEMENT_SIZE ->
  op_SPLIT (stack ++ [data; bigint_serialize n]) st =
    Holds (Ok (Next (stack ++ [firstn (Z.to_nat n) data;
                               skipn (Z.to_nat n) data]) st)).
Proof.
  intros Hn Hmax. unfold op_SPLIT. rewrite length_app. cbn [length].
  destruct (Nat.ltb_spec (length stack + 2) 2); [lia|].
  destruct (stacktop_at_pair stack data (bigint_serialize n)) as (H1 & H2).
  unfold valtype in *. rewrite H1, H2.
  rewrite of_bytes_size by lia.
  unfold getSizeType. cbn [CScriptNum_value].
  unfold MAX_SCRIPT_ELEMENT_SIZE, INT32_MAX in *.
  destruct (Z.ltb_spec n 0); [lia|].
  destruct (Z.ltb_spec (Z.of_nat (length data)) n); [lia|]. cbn [orb].
  destruct (Z.leb_spec 0 n); [|lia].
  destruct (Z.leb_spec n 2147483647); [|lia]. cbn [andb].
  destruct (popstack_pair stack data (bigint_serialize n)) as (_ & Hpop).
  unfold valtype in *. rewrite Hpop.
  destruct (Z.ltb_spec (Z.of_nat (length data)) n); [lia|]. reflexivity.
Qed.

(** X18. [OP_CAT] and [OP_SPLIT] are inverse to each other on elements
    within the 4000-byte limit: concatenating two elements and splitting
    the result at the length of the first gives the two elements back,
    and splitting an element at any position inside it and
    concatenating the parts gives the element back. *)
Theorem X18_CAT_SPLIT_inverse (stack : list valtype)
    (x1 x2 data : valtype) n st :
  Z.of_nat (length x1 + length x2) <= MAX_SCRIPT_ELEMENT_SIZE ->
  Z.of_nat (length data) <= MAX_SCRIPT_ELEMENT_SIZE ->
  0 <= n <= Z.of_nat (length data) ->
  (op_CAT (stack ++ [x1; x2]) st = Ok (Next (stack ++ [x1 ++ x2]) st)
   /\ op_SPLIT
        (stack ++ [x1 ++ x2; bigint_serialize (Z.of_nat (length x1))]) st
      = Holds (Ok (Next (stack ++ [x1; x2]) st)))
  /\ (exists p1 p2,
        op_SPLIT (stack ++ [data; bigint_serialize n]) st
          = Holds (Ok (Next (stack ++ [p1; p2]) st))
        /\ Z.of_nat (length p1) = n
        /\ op_CAT (stack ++ [p1; p2]) st = Ok (Next (stack ++ [data]) st)).
Proof.
  intros H12 Hdata Hn. split; [split|].
  - apply op_CAT_pair. exact H12.
  - rewrite op_SPLIT_at.
    + rewrite Nat2Z.id, firstn_app_length, skipn_app_length by reflexivity.
      reflexivity.
    + rewrite length_app. lia.
    + lia.
  - exists (firstn (Z.to_nat n) data), (skipn (Z.to_nat n) data).
    split; [apply op_SPLIT_at; lia|]. split.
    + rewrite length_firstn. lia.
    + rewrite op_CAT_pair.
      * now rewrite firstn_skipn.
      * rewrite <- length_app, firstn_skipn. exact Hdata.
Qed.

Lemma X18_CAT_SPLIT_inverse_witness :
  op_CAT ([] ++ [[xaa]; [xbb; xcc]]) sample_state
    = Ok (Next ([] ++ [[xaa] ++ [xbb; xcc]]) sample_state)
  /\ op_SPLIT
       ([] ++ [[xaa] ++ [xbb; xcc];
               bigint_serialize (Z.of_nat (length [xaa]))]) sample_state
     = Holds (Ok (Next ([] ++ [[xaa]; [xbb; xcc]]) sample_state)).
Proof.
  exact (proj1 (@X18_CAT_SPLIT_inverse [] [xaa] [xbb; xcc] [] 0
                  sample_state ltac:(cbv; discriminate)
                  ltac:(cbv; discriminate)
                  (conj (Z.le_refl 0) (Z.le_refl 0)))).
Defined.

(** X19. [OP_EQUAL] replaces the two top elements by [vchTrue] when
    they are the same bytes and by [vchFalse] otherwise;
    [OP_EQUALVERIFY] removes equal elements and fails with
    [EQUALVERIFY] on different ones.  With one element on the stack the
    error is [INVALID_STACK_OPERATION]; with none, the read of the top
    throws and the script ends with the error [UNKNOWN]. *)
Theorem X19_EQUAL_compares_bytes opcode (stack : list valtype)
    (a b v : valtype) st :
  op_EQUAL opcode (stack ++ [a; b]) st =
    (if opcode =? OP_EQUALVERIFY then
       if list_eq_dec Byte.byte_eq_dec a b
       then Ok (Next stack st) else Ok (Error ScriptError.EQUALVERIFY)
     else
       Ok (Next (stack ++ [if list_eq_dec Byte.byte_eq_dec a b
                           then vchTrue else vchFalse]) st))
  /\ EvalScript_catch (op_EQUAL opcode [v] st)
       = Error ScriptError.INVALID_STACK_OPERATION
  /\ EvalScript_catch (op_EQUAL opcode [] st) = Error ScriptError.UNKNOWN.
Proof.
  split; [|split; reflexivity].
  unfold op_EQUAL. rewrite length_app. cbn [length].
  destruct (Nat.ltb_spec (length stack + 2) 2); [lia|].
  destruct (stacktop_at_pair stack a b) as (-> & ->). cbn [bind].
  destruct (popstack_pair stack a b) as (_ & ->).
  destruct (opcode =? OP_EQUALVERIFY).
  - destruct (list_eq_dec Byte.byte_eq_dec a b); [|reflexivity].
    unfold popstack. rewrite removelast_last. reflexivity.
  - destruct (list_eq_dec Byte.byte_eq_dec a b); reflexivity.
Qed.

(** ** The two serializers and the constructor of [CScriptNum] *)

(** X20. The two alternatives of a [CScriptNum] serialize alike: for
    every value of an [int64_t], [avm::serialize] (the loop over the
    magnitude) and [bigint::serialize] (OpenSSL's MPI format, stripped
    and reversed) give the same bytes, and these bytes are a minimal
    encoding. *)
Theorem X20_serializers_agree z :
  INT64_MIN <= z <= INT64_MAX ->
  getvch (SmallNum z) = getvch (BigNum z)
  /\ IsMinimallyEncoded (getvch (SmallNum z)) MAXIMUM_ITEM_SIZE = true.
Proof.
  intro Hz. cbn [getvch].
  rewrite serialize_int64_canonical by exact Hz.
  rewrite bigint_serialize_canonical. split; [reflexivity|].
  apply of_bytes_sign_magnitude; [|reflexivity].
  destruct (Z.eq_dec z 0) as [->|Hnz]; [cbv; discriminate|].
  pose proof (@length_sign_magnitude_le z Hnz) as (_ & Hl).
  unfold top_index in Hl.
  assert (Habs : 0 < Z.abs z <= 2 ^ 63)
    by (unfold INT64_MIN, INT64_MAX in Hz; lia).
  assert (Z.log2 (Z.abs z) <= Z.log2 (2 ^ 63))
    by (apply Z.log2_le_mono; lia).
  rewrite Z.log2_pow2 in * by lia.
  pose proof (Z.log2_nonneg (Z.abs z)).
  assert (Z.log2 (Z.abs z) / 8 < 8)
    by (apply Z.div_lt_upper_bound; lia).
  unfold MAXIMUM_ITEM_SIZE. lia.
Qed.

Lemma X20_serializers_agree_witness :
  getvch (SmallNum (-255)) = getvch (BigNum (-255))
  /\ IsMinimallyEncoded (getvch (SmallNum (-255))) MAXIMUM_ITEM_SIZE = true.
Proof.
  apply (@X20_serializers_agree (-255)). split; cbv; discriminate.
Defined.

(** X21. The constructor of [CScriptNum] from bytes accepts exactly the
    minimal encodings within the size cap: a longer string throws
    [ScriptnumOverflowException], a non-minimal one
    [ScriptnumMinimalEncodingException], and an accepted string is the
    very serialization of the number it yields. *)
Theorem X21_CScriptNum_constructor b cap :
  0 <= cap < 2 ^ 31 ->
  (cap < Z.of_nat (length b) ->
     CScriptNum_of_bytes b cap = Throw ScriptnumOverflowException)
  /\ (Z.of_nat (length b) <= cap -> IsMinimallyEncoded b cap = false ->
        CScriptNum_of_bytes b cap = Throw ScriptnumMinimalEncodingException)
  /\ (IsMinimallyEncoded b cap = true ->
        exists v,
          CScriptNum_of_bytes b cap = Ok (BigNum v)
          /\ getvch (BigNum v) = b).
Proof.
  intro Hcap. unfold CScriptNum_of_bytes. repeat split.
  - intro H. destruct (Z.ltb_spec cap (Z.of_nat (length b))); [|lia].
    reflexivity.
  - intros H Hm. destruct (Z.ltb_spec cap (Z.of_nat (length b))); [lia|].
    rewrite Hm. reflexivity.
  - intro Hm.
    assert (Hle : Z.of_nat (length b) <= cap).
    { unfold IsMinimallyEncoded in Hm.
      destruct (Z.ltb_spec cap (Z.of_nat (length b))); [discriminate|lia]. }
    destruct (Z.ltb_spec cap (Z.of_nat (length b))); [lia|].
    rewrite Hm. cbn [negb].
    assert (Hv : exists v,
               match b with
               | [] => Ok (BigNum 0)
               | _ :: _ =>
                   match bigint_deserialize b with
                   | Some n => Ok (BigNum n)
                   | None => Throw NullBignum
                   end
               end = Ok (BigNum v)).
    { destruct b as [|x r _] using rev_ind; [eexists; reflexivity|].
      rewrite bigint_deserialize_value by lia.
      destruct (r ++ [x]) eqn:E.
      { apply app_eq_nil in E. destruct E as (_ & E). discriminate E. }
      eexists; reflexivity. }
    destruct Hv as (v & Hv). exists v. split; [exact Hv|].
    cbn [getvch]. rewrite bigint_serialize_canonical.
    apply (@sign_magnitude_of_bytes b cap v); [lia|].
    unfold CScriptNum_of_bytes.
    destruct (Z.ltb_spec cap (Z.of_nat (length b))); [lia|].
    rewrite Hm. exact Hv.
Qed.

Lemma X21_CScriptNum_constructor_witness :
  CScriptNum_of_bytes [xff; x00; x00] 4
  = Throw ScriptnumMinimalEncodingException.
Proof.
  destruct (@X21_CScriptNum_constructor [xff; x00; x00] 4
              (conj (Zle_0_pos 4) eq_refl)) as (_ & H & _).
  apply H; [cbv; discriminate|reflexivity].
Defined.

(* ------------------------------------------------------------------ *)
(** ** The bit shifts *)

Lemma shift_bit_cases bit :
  0 <= bit < 8 ->
  bit = 0 \/ bit = 1 \/ bit = 2 \/ bit = 3 \/ bit = 4 \/ bit = 5
  \/ bit = 6 \/ bit = 7.
Proof. lia. Qed.

Ltac each_bit H :=
  destruct (shift_bit_cases H) as [->|[->|[->|[->|[->|[->|[->| ->]]]]]]].

(** What the two masked shifts of [RShift] and of [LShift] compute on a
    byte. *)
Lemma rshift_val bit x :
  0 <= bit < 8 ->
  u8 (Z.shiftr (Z.land (b2z x) (make_rshift_mask bit)) bit)
  = b2z x / 2 ^ bit.
Proof. intro H. each_bit H; destruct x; vm_compute; reflexivity. Qed.

Lemma rshift_carry bit x :
  0 <= bit < 8 ->
  u8 (Z.shiftl (Z.land (b2z x) (u8 (Z.lnot (make_rshift_mask bit))))
        (8 - bit))
  = (b2z x mod 2 ^ bit) * 2 ^ (8 - bit).
Proof. intro H. each_bit H; destruct x; vm_compute; reflexivity. Qed.

Lemma lshift_val bit x :
  0 <= bit < 8 ->
  u8 (Z.shiftl (Z.land (b2z x) (make_lshift_mask bit)) bit)
  = (b2z x * 2 ^ bit) mod 256.
Proof. intro H. each_bit H; destruct x; vm_compute; reflexivity. Qed.

Lemma lshift_carry bit x :
  0 <= bit < 8 ->
  u8 (Z.shiftr (Z.land (b2z x) (u8 (Z.lnot (make_lshift_mask bit))))
        (8 - bit))
  = b2z x / 2 ^ (8 - bit).
Proof. intro H. each_bit H; destruct x; vm_compute; reflexivity. Qed.

Lemma nth_assign_at {A} (v : list A) i (x d : A) p :
  (i < length v)%nat ->
  nth p (assign_at v i x) d = if (p =? i)%nat then x else nth p v d.
Proof.
  revert i p; induction v as [|a v IH]; intros [|i] [|p] Hi;
    cbn [assign_at length nth Nat.eqb] in *; try lia; try reflexivity.
  apply IH; lia.
Qed.

Lemma lor_byte a b :
  0 <= a < 256 -> 0 <= b < 256 -> 0 <= Z.lor a b < 256.
Proof.
  intros Ha Hb. split; [apply Z.lor_nonneg; lia|].
  destruct (Z.eq_dec (Z.lor a b) 0) as [->|Hn]; [lia|].
  assert (0 <= Z.lor a b) by (apply Z.lor_nonneg; lia).
  change 256 with (2 ^ 8). apply Z.log2_lt_pow2; [lia|].
  rewrite Z.log2_lor by lia.
  destruct (Z.eq_dec a 0) as [->|]; destruct (Z.eq_dec b 0) as [->|];
    cbn [Z.log2]; try lia.
  - assert (Z.log2 b < 8) by (apply Z.log2_lt_pow2; lia). cbn; lia.
  - assert (Z.log2 a < 8) by (apply Z.log2_lt_pow2; lia). cbn; lia.
  - assert (Z.log2 a < 8) by (apply Z.log2_lt_pow2; lia).
    assert (Z.log2 b < 8) by (apply Z.log2_lt_pow2; lia). lia.
Qed.

Lemma length_or_at r k v : length (or_at r k v) = length r.
Proof. apply length_assign_at. Qed.

Lemma byte_at_or_at r k v p :
  0 <= k < Z.of_nat (length r) -> 0 <= v < 256 ->
  byte_at (or_at r k v) p
  = if (p =? Z.to_nat k)%nat then Z.lor (byte_at r p) v else byte_at r p.
Proof.
  intros Hk Hv. unfold or_at, byte_at.
  rewrite nth_assign_at by lia.
  destruct (Nat.eqb_spec p (Z.to_nat k)) as [->|]; [|reflexivity].
  rewrite b2z_z2b. apply Z.mod_small. apply lor_byte; [apply b2z_range|lia].
Qed.

Lemma byte_at_zeros k p : byte_at (repeat x00 k) p = 0.
Proof.
  unfold byte_at. revert p; induction k as [|k IH]; intros [|p];
    cbn [repeat nth]; try reflexivity. apply IH.
Qed.

Lemma byte_at_range r p : 0 <= byte_at r p < 256.
Proof. apply b2z_range. Qed.

Lemma byte_at_out r p : (length r <= p)%nat -> byte_at r p = 0.
Proof. intro H. unfold byte_at. now rewrite nth_overflow. Qed.

Ltac lor_bits :=
  apply Z.bits_inj; intro;
  rewrite ?Z.lor_spec, ?Z.bits_0;
  repeat match goal with
         | |- context [Z.testbit ?a ?n] => destruct (Z.testbit a n)
         end; reflexivity.

Ltac bool_tests :=
  repeat match goal with
         | |- context [?a <=? ?b] => destruct (Z.leb_spec a b)
         | |- context [?a <? ?b] => destruct (Z.ltb_spec a b)
         | |- context [?a =? ?b] => destruct (Z.eqb_spec a b)
         end; cbn [andb orb negb]; try lia.

Lemma RShift_byte_step x bit bs j p :
  0 <= j -> 0 <= bs -> 0 <= p ->
  RShift_byte x bit bs (j + 1) p
  = Z.lor
      (Z.lor (RShift_byte x bit bs j p)
         (if p =? j + bs then byte_at x (Z.to_nat j) / 2 ^ bit else 0))
      (if p =? j + bs + 1
       then (byte_at x (Z.to_nat j) mod 2 ^ bit) * 2 ^ (8 - bit) else 0).
Proof.
  intros Hj Hbs Hp. unfold RShift_byte.
  destruct (Z.eqb_spec p (j + bs)) as [->|H1].
  - replace (j + bs - bs) with j by lia. bool_tests; lor_bits.
  - destruct (Z.eqb_spec p (j + bs + 1)) as [->|H2].
    + replace (j + bs + 1 - bs - 1) with j by lia. bool_tests; lor_bits.
    + bool_tests; lor_bits.
Qed.

Lemma RShift_body_spec x bit bs r j :
  0 <= bit < 8 -> 0 <= bs ->
  length r = length x -> (j < length x)%nat ->
  let r' := RShift_body x bit bs (make_rshift_mask bit)
              (u8 (Z.lnot (make_rshift_mask bit))) r j in
  length r' = length x
  /\ forall p, (p < length x)%nat ->
       byte_at r' p
       = Z.lor
           (Z.lor (byte_at r p)
              (if Z.of_nat p =? Z.of_nat j + bs
               then byte_at x j / 2 ^ bit else 0))
           (if Z.of_nat p =? Z.of_nat j + bs + 1
            then (byte_at x j mod 2 ^ bit) * 2 ^ (8 - bit) else 0).
Proof.
  intros Hbit Hbs Hr Hj. unfold RShift_body.
  rewrite rshift_val, rshift_carry by assumption.
  fold (byte_at x j).
  assert (Hv : 0 <= byte_at x j / 2 ^ bit < 256).
  { unfold byte_at. rewrite <- rshift_val by assumption.
    apply Z.mod_pos_bound; lia. }
  assert (Hc : 0 <= (byte_at x j mod 2 ^ bit) * 2 ^ (8 - bit) < 256).
  { unfold byte_at. rewrite <- rshift_carry by assumption.
    apply Z.mod_pos_bound; lia. }
  set (V := byte_at x j / 2 ^ bit) in *.
  set (C := (byte_at x j mod 2 ^ bit) * 2 ^ (8 - bit)) in *.
  set (r1 := if Z.of_nat j + bs <? Z.of_nat (length x)
             then or_at r (Z.of_nat j + bs) V else r).
  assert (H1 : length r1 = length x
               /\ forall p, (p < length x)%nat ->
                    byte_at r1 p
                    = Z.lor (byte_at r p)
                        (if Z.of_nat p =? Z.of_nat j + bs then V else 0)).
  { subst r1. destruct (Z.ltb_spec (Z.of_nat j + bs) (Z.of_nat (length x))).
    - split; [now rewrite length_or_at|].
      intros p Hp.
      rewrite byte_at_or_at by lia.
      destruct (Nat.eqb_spec p (Z.to_nat (Z.of_nat j + bs)));
        destruct (Z.eqb_spec (Z.of_nat p) (Z.of_nat j + bs)); try lia;
        (reflexivity || now rewrite Z.lor_0_r).
    - split; [assumption|]. intros p Hp.
      destruct (Z.eqb_spec (Z.of_nat p) (Z.of_nat j + bs)); [lia|].
      now rewrite Z.lor_0_r. }
  destruct H1 as (Hl1 & Hb1). cbv zeta.
  destruct (Z.ltb_spec (Z.of_nat j + bs + 1) (Z.of_nat (length x))).
  - split; [now rewrite length_or_at|].
    intros p Hp.
    rewrite byte_at_or_at by lia.
    rewrite Hb1 by assumption.
    destruct (Nat.eqb_spec p (Z.to_nat (Z.of_nat j + bs + 1)));
      destruct (Z.eqb_spec (Z.of_nat p) (Z.of_nat j + bs + 1)); try lia;
      (reflexivity || now rewrite Z.lor_0_r).
  - split; [assumption|]. intros p Hp. rewrite Hb1 by assumption.
    destruct (Z.eqb_spec (Z.of_nat p) (Z.of_nat j + bs + 1)); [lia|].
    now rewrite Z.lor_0_r.
Qed.

Lemma RShift_loop x bit bs j :
  0 <= bit < 8 -> 0 <= bs -> (j <= length x)%nat ->
  let r := fold_left
             (RShift_body x bit bs (make_rshift_mask bit)
                (u8 (Z.lnot (make_rshift_mask bit))))
             (seq 0 j) (repeat x00 (length x)) in
  length r = length x
  /\ forall p, (p < length x)%nat ->
       byte_at r p = RShift_byte x bit bs (Z.of_nat j) (Z.of_nat p).
Proof.
  intros Hbit Hbs. induction j as [|j IH]; intro Hj; cbv zeta.
  - cbn [seq fold_left]. split; [apply repeat_length|].
    intros p Hp. rewrite byte_at_zeros. unfold RShift_byte.
    bool_tests; reflexivity.
  - rewrite seq_S, fold_left_app. cbn [fold_left Nat.add].
    destruct (IH ltac:(lia)) as (Hl & Hb).
    destruct (@RShift_body_spec x bit bs _ j Hbit Hbs Hl ltac:(lia))
      as (Hl' & Hb').
    split; [exact Hl'|]. intros p Hp.
    rewrite Hb', Hb by assumption.
    replace (Z.of_nat (S j)) with (Z.of_nat j + 1) by lia.
    rewrite RShift_byte_step by lia. now rewrite Nat2Z.id.
Qed.

Lemma byte_at_cons b r i : byte_at (b :: r) (S i) = byte_at r i.
Proof. reflexivity. Qed.

Lemma testbit_byte_high r i j : 8 <= j -> Z.testbit (byte_at r i) j = false.
Proof.
  intro Hj. rewrite <- (Z.mod_small (byte_at r i) (2 ^ 8))
    by apply byte_at_range.
  apply Z.mod_pow2_bits_high; lia.
Qed.

(** The bits of a byte string are the bits of its bytes. *)
Lemma testbit_le_value l P :
  0 <= P ->
  Z.testbit (le_value l) P
  = Z.testbit (byte_at l (Z.to_nat (P / 8))) (P mod 8).
Proof.
  revert P; induction l as [|b r IH]; intros P HP.
  - cbn [le_value]. rewrite byte_at_out by (cbn [length]; lia).
    now rewrite !Z.bits_0.
  - cbn [le_value]. pose proof (b2z_range b) as Hb.
    destruct (Z.lt_ge_cases P 8) as [Hlt|Hge].
    + rewrite Z.div_small, Z.mod_small by lia. cbn [Z.to_nat].
      unfold byte_at; cbn [nth].
      rewrite <- (Z.mod_pow2_bits_low (b2z b + 256 * le_value r) 8 P)
        by lia.
      change (2 ^ 8) with 256.
      replace (b2z b + 256 * le_value r) with (b2z b + le_value r * 256)
        by lia.
      now rewrite Z_mod_plus_full, Z.mod_small by assumption.
    + replace P with ((P - 8) + 8) at 1 by lia.
      rewrite <- Z.div_pow2_bits by lia. change (2 ^ 8) with 256.
      replace ((b2z b + 256 * le_value r) / 256) with (le_value r).
      2:{ replace (b2z b + 256 * le_value r)
            with (b2z b + le_value r * 256) by lia.
          rewrite Z.div_add by lia.
          now rewrite Z.div_small by assumption. }
      rewrite IH by lia.
      replace (P / 8) with ((P - 8) / 8 + 1).
      2:{ replace P with ((P - 8) + 1 * 8) at 2 by lia.
          now rewrite Z.div_add by lia. }
      replace (P mod 8) with ((P - 8) mod 8).
      2:{ replace P with ((P - 8) + 1 * 8) at 2 by lia.
          now rewrite Z_mod_plus_full. }
      assert (0 <= (P - 8) / 8) by (apply Z.div_pos; lia).
      rewrite Z2Nat.inj_add by lia. change (Z.to_nat 1) with 1%nat.
      rewrite Nat.add_1_r. now rewrite byte_at_cons.
Qed.

Lemma byte_at_rev l i :
  (i < length l)%nat -> byte_at (rev l) i = byte_at l (length l - 1 - i).
Proof.
  intro Hi. unfold byte_at. rewrite rev_nth by assumption.
  f_equal. f_equal. lia.
Qed.

Lemma testbit_be_value l P :
  0 <= P ->
  Z.testbit (be_value l) P
  = if P / 8 <? Z.of_nat (length l)
    then Z.testbit (byte_at l (length l - 1 - Z.to_nat (P / 8))) (P mod 8)
    else false.
Proof.
  intro HP. unfold be_value. rewrite testbit_le_value by assumption.
  assert (0 <= P / 8) by (apply Z.div_pos; lia).
  destruct (Z.ltb_spec (P / 8) (Z.of_nat (length l))).
  - now rewrite byte_at_rev by lia.
  - rewrite byte_at_out by (rewrite length_rev; lia). apply Z.bits_0.
Qed.

(** Adding two bit positions: the byte and the bit of the sum. *)
Lemma bit_position_add a q bs bit :
  0 <= q < 8 -> 0 <= bit < 8 ->
  let s := 8 * a + q + (8 * bs + bit) in
  (q + bit < 8 /\ s / 8 = a + bs /\ s mod 8 = q + bit)
  \/ (8 <= q + bit /\ s / 8 = a + bs + 1 /\ s mod 8 = q + bit - 8).
Proof.
  intros Hq Hbit s. subst s.
  destruct (Z.lt_ge_cases (q + bit) 8); [left|right]; repeat split;
    try assumption; symmetry.
  - apply Z.div_unique_pos with (r := q + bit); lia.
  - apply Z.mod_unique_pos with (q := a + bs); lia.
  - apply Z.div_unique_pos with (r := q + bit - 8); lia.
  - apply Z.mod_unique_pos with (q := a + bs + 1); lia.
Qed.

Lemma RShift_value x n :
  0 <= n ->
  length (RShift x n) = length x
  /\ be_value (RShift x n) = be_value x / 2 ^ n.
Proof.
  intro Hn. unfold RShift.
  rewrite Z.rem_mod_nonneg, Z.quot_div_nonneg by lia.
  pose proof (Z.mod_pos_bound n 8 ltac:(lia)) as Hbit.
  assert (Hbs : 0 <= n / 8) by (apply Z.div_pos; lia).
  pose proof (Z.div_mod n 8 ltac:(lia)) as Hdm.
  destruct (@RShift_loop x (n mod 8) (n / 8) (length x) Hbit Hbs (le_n _))
    as (Hl & Hb).
  set (bit := n mod 8) in *. set (bs := n / 8) in *.
  set (R := fold_left _ _ _) in *.
  split; [exact Hl|].
  apply Z.bits_inj'. intros P HP.
  rewrite Z.div_pow2_bits by lia. rewrite !testbit_be_value by lia.
  rewrite Hl.
  pose proof (Z.mod_pos_bound P 8 ltac:(lia)) as Hq.
  assert (Ha : 0 <= P / 8) by (apply Z.div_pos; lia).
  pose proof (Z.div_mod P 8 ltac:(lia)) as HP8.
  set (q := P mod 8) in *. set (a := P / 8) in *.
  pose proof (@bit_position_add a q bs bit Hq Hbit) as Hadd.
  cbv zeta in Hadd. rewrite <- HP8, <- Hdm in Hadd.
  destruct (Z.ltb_spec a (Z.of_nat (length x))) as [Hin|Hout].
  2:{ destruct (Z.ltb_spec ((P + n) / 8) (Z.of_nat (length x)));
        [lia|reflexivity]. }
  rewrite Hb by lia. unfold RShift_byte. rewrite Z.lor_spec.
  destruct Hadd as [(Hlt & -> & ->)|(Hge & -> & ->)].
  - (* the bit comes from the byte [bs] places above *)
    replace (Z.testbit (if (bs + 1 <=? _) && _ then _ else 0) q) with false.
    2:{ destruct (_ && _); [|now rewrite Z.bits_0].
        rewrite Z.mul_pow2_bits by lia.
        now rewrite Z.testbit_neg_r by lia. }
    rewrite orb_false_r.
    destruct (Z.ltb_spec (a + bs) (Z.of_nat (length x))).
    + destruct (Z.leb_spec bs (Z.of_nat (length x - 1 - Z.to_nat a)));
        [|lia].
      destruct (Z.ltb_spec (Z.of_nat (length x - 1 - Z.to_nat a) - bs)
                  (Z.of_nat (length x))); [|lia].
      cbn [andb]. rewrite Z.div_pow2_bits by lia.
      f_equal. f_equal. lia.
    + destruct (Z.leb_spec bs (Z.of_nat (length x - 1 - Z.to_nat a)));
        [lia|]. cbn [andb]. apply Z.bits_0.
  - (* the bit is carried from the byte one place further *)
    replace (Z.testbit (if (bs <=? _) && _ then _ else 0) q) with false.
    2:{ destruct (_ && _); [|now rewrite Z.bits_0].
        rewrite Z.div_pow2_bits by lia.
        now rewrite testbit_byte_high by lia. }
    rewrite orb_false_l.
    destruct (Z.ltb_spec (a + bs + 1) (Z.of_nat (length x))).
    + destruct (Z.leb_spec (bs + 1)
                  (Z.of_nat (length x - 1 - Z.to_nat a))); [|lia].
      destruct (Z.ltb_spec (Z.of_nat (length x - 1 - Z.to_nat a) - bs - 1)
                  (Z.of_nat (length x))); [|lia].
      cbn [andb]. rewrite Z.mul_pow2_bits by lia.
      rewrite Z.mod_pow2_bits_low by lia.
      f_equal; [|lia]. f_equal. lia.
    + destruct (Z.leb_spec (bs + 1)
                  (Z.of_nat (length x - 1 - Z.to_nat a))); [lia|].
      cbn [andb]. apply Z.bits_0.
Qed.

Lemma LShift_byte_step x bit bs j p :
  0 <= j -> 0 <= bs -> 0 <= p ->
  LShift_byte x bit bs j p
  = Z.lor
      (Z.lor (LShift_byte x bit bs (j + 1) p)
         (if p =? j - bs
          then (byte_at x (Z.to_nat j) * 2 ^ bit) mod 256 else 0))
      (if p =? j - bs - 1
       then byte_at x (Z.to_nat j) / 2 ^ (8 - bit) else 0).
Proof.
  intros Hj Hbs Hp. unfold LShift_byte.
  destruct (Z.eqb_spec p (j - bs)) as [->|H1].
  - replace (j - bs + bs) with j by lia. bool_tests; lor_bits.
  - destruct (Z.eqb_spec p (j - bs - 1)) as [->|H2].
    + replace (j - bs - 1 + bs + 1) with j by lia. bool_tests; lor_bits.
    + bool_tests; lor_bits.
Qed.

Lemma LShift_body_spec x bit bs r j :
  0 <= bit < 8 -> 0 <= bs ->
  length r = length x -> (j < length x)%nat ->
  let r' := LShift_body x bit bs (make_lshift_mask bit)
              (u8 (Z.lnot (make_lshift_mask bit))) r j in
  length r' = length x
  /\ forall p, (p < length x)%nat ->
       byte_at r' p
       = Z.lor
           (Z.lor (byte_at r p)
              (if Z.of_nat p =? Z.of_nat j - bs
               then (byte_at x j * 2 ^ bit) mod 256 else 0))
           (if Z.of_nat p =? Z.of_nat j - bs - 1
            then byte_at x j / 2 ^ (8 - bit) else 0).
Proof.
  intros Hbit Hbs Hr Hj. unfold LShift_body.
  rewrite lshift_val, lshift_carry by assumption.
  fold (byte_at x j).
  assert (Hv : 0 <= (byte_at x j * 2 ^ bit) mod 256 < 256)
    by (apply Z.mod_pos_bound; lia).
  assert (Hc : 0 <= byte_at x j / 2 ^ (8 - bit) < 256).
  { unfold byte_at. rewrite <- lshift_carry by assumption.
    apply Z.mod_pos_bound; lia. }
  set (V := (byte_at x j * 2 ^ bit) mod 256) in *.
  set (C := byte_at x j / 2 ^ (8 - bit)) in *.
  set (r1 := if 0 <=? Z.of_nat j - bs
             then or_at r (Z.of_nat j - bs) V else r).
  assert (H1 : length r1 = length x
               /\ forall p, (p < length x)%nat ->
                    byte_at r1 p
                    = Z.lor (byte_at r p)
                        (if Z.of_nat p =? Z.of_nat j - bs then V else 0)).
  { subst r1. destruct (Z.leb_spec 0 (Z.of_nat j - bs)).
    - split; [now rewrite length_or_at|].
      intros p Hp. rewrite byte_at_or_at by lia.
      destruct (Nat.eqb_spec p (Z.to_nat (Z.of_nat j - bs)));
        destruct (Z.eqb_spec (Z.of_nat p) (Z.of_nat j - bs)); try lia;
        (reflexivity || now rewrite Z.lor_0_r).
    - split; [assumption|]. intros p Hp.
      destruct (Z.eqb_spec (Z.of_nat p) (Z.of_nat j - bs)); [lia|].
      now rewrite Z.lor_0_r. }
  destruct H1 as (Hl1 & Hb1). cbv zeta.
  destruct (Z.leb_spec 0 (Z.of_nat j - bs - 1)).
  - split; [now rewrite length_or_at|].
    intros p Hp. rewrite byte_at_or_at by lia.
    rewrite Hb1 by assumption.
    destruct (Nat.eqb_spec p (Z.to_nat (Z.of_nat j - bs - 1)));
      destruct (Z.eqb_spec (Z.of_nat p) (Z.of_nat j - bs - 1)); try lia;
      (reflexivity || now rewrite Z.lor_0_r).
  - split; [assumption|]. intros p Hp. rewrite Hb1 by assumption.
    destruct (Z.eqb_spec (Z.of_nat p) (Z.of_nat j - bs - 1)); [lia|].
    now rewrite Z.lor_0_r.
Qed.

Lemma LShift_loop x bit bs len :
  0 <= bit < 8 -> 0 <= bs ->
  forall a, (a + len = length x)%nat ->
  let r := fold_left
             (LShift_body x bit bs (make_lshift_mask bit)
                (u8 (Z.lnot (make_lshift_mask bit))))
             (rev (seq a len)) (repeat x00 (length x)) in
  length r = length x
  /\ forall p, (p < length x)%nat ->
       byte_at r p = LShift_byte x bit bs (Z.of_nat a) (Z.of_nat p).
Proof.
  intros Hbit Hbs. induction len as [|len IH]; intros a Ha; cbv zeta.
  - cbn [seq rev fold_left]. split; [apply repeat_length|].
    intros p Hp. rewrite byte_at_zeros. unfold LShift_byte.
    destruct (Z.leb_spec (Z.of_nat a) (Z.of_nat p + bs));
      destruct (Z.leb_spec (Z.of_nat a) (Z.of_nat p + bs + 1));
      rewrite ?byte_at_out by lia;
      now rewrite ?Z.mul_0_l, ?Zmod_0_l, ?Zdiv_0_l.
  - cbn [seq rev]. rewrite fold_left_app. cbn [fold_left].
    destruct (IH (S a) ltac:(lia)) as (Hl & Hb).
    destruct (@LShift_body_spec x bit bs _ a Hbit Hbs Hl ltac:(lia))
      as (Hl' & Hb').
    split; [exact Hl'|]. intros p Hp.
    rewrite Hb', Hb by assumption.
    rewrite (@LShift_byte_step x bit bs (Z.of_nat a)) by lia.
    replace (Z.of_nat (S a)) with (Z.of_nat a + 1) by lia.
    now rewrite Nat2Z.id.
Qed.

Lemma testbit_be_value_at l c d :
  0 <= d < 8 ->
  Z.testbit (be_value l) (8 * c + d)
  = if (0 <=? c) && (c <? Z.of_nat (length l))
    then Z.testbit (byte_at l (length l - 1 - Z.to_nat c)) d
    else false.
Proof.
  intro Hd. destruct (Z.leb_spec 0 c) as [Hc|Hc]; cbn [andb].
  - rewrite testbit_be_value by lia.
    replace ((8 * c + d) / 8) with c
      by (apply Z.div_unique_pos with (r := d); lia).
    replace ((8 * c + d) mod 8) with d
      by (apply Z.mod_unique_pos with (q := c); lia).
    reflexivity.
  - apply Z.testbit_neg_r. lia.
Qed.

Lemma LShift_value x n :
  0 <= n ->
  length (LShift x n) = length x
  /\ be_value (LShift x n)
     = (be_value x * 2 ^ n) mod 2 ^ (8 * Z.of_nat (length x)).
Proof.
  intro Hn. unfold LShift.
  rewrite Z.rem_mod_nonneg, Z.quot_div_nonneg by lia.
  pose proof (Z.mod_pos_bound n 8 ltac:(lia)) as Hbit.
  assert (Hbs : 0 <= n / 8) by (apply Z.div_pos; lia).
  pose proof (Z.div_mod n 8 ltac:(lia)) as Hdm.
  destruct (@LShift_loop x (n mod 8) (n / 8) (length x) Hbit Hbs 0%nat
              eq_refl) as (Hl & Hb).
  set (bit := n mod 8) in *. set (bs := n / 8) in *.
  set (R := fold_left _ _ _) in *.
  split; [exact Hl|].
  apply Z.bits_inj'. intros P HP.
  pose proof (Z.mod_pos_bound P 8 ltac:(lia)) as Hq.
  assert (Ha : 0 <= P / 8) by (apply Z.div_pos; lia).
  pose proof (Z.div_mod P 8 ltac:(lia)) as HP8.
  rewrite testbit_be_value, Hl by lia.
  set (q := P mod 8) in *. set (a := P / 8) in *.
  destruct (Z.ltb_spec a (Z.of_nat (length x))) as [Hin|Hout].
  2:{ symmetry. apply Z.mod_pow2_bits_high. lia. }
  rewrite Z.mod_pow2_bits_low by lia.
  rewrite Z.mul_pow2_bits by lia.
  rewrite Hb by lia. unfold LShift_byte. change (Z.of_nat 0) with 0.
  destruct (Z.leb_spec 0 (Z.of_nat (length x - 1 - Z.to_nat a) + bs));
    [|lia].
  destruct (Z.leb_spec 0 (Z.of_nat (length x - 1 - Z.to_nat a) + bs + 1));
    [|lia].
  rewrite Z.lor_spec.
  rewrite <- (Z.mod_pow2_bits_low _ 8 q) by lia.
  change (2 ^ 8) with 256. rewrite Z.mod_mod by lia.
  change 256 with (2 ^ 8). rewrite Z.mod_pow2_bits_low by lia.
  rewrite Z.mul_pow2_bits, Z.div_pow2_bits by lia.
  destruct (Z.lt_ge_cases q bit) as [Hlt|Hge].
  - rewrite (Z.testbit_neg_r _ (q - bit)) by lia. rewrite orb_false_l.
    replace (P - n) with (8 * (a - bs - 1) + (q + 8 - bit)) by lia.
    rewrite testbit_be_value_at by lia.
    destruct (Z.leb_spec 0 (a - bs - 1)); cbn [andb].
    + destruct (Z.ltb_spec (a - bs - 1) (Z.of_nat (length x))); [|lia].
      replace (q + (8 - bit)) with (q + 8 - bit) by lia.
      f_equal. f_equal. lia.
    + rewrite byte_at_out by lia. apply Z.bits_0.
  - rewrite (@testbit_byte_high x _ (q + (8 - bit))) by lia.
    rewrite orb_false_r.
    replace (P - n) with (8 * (a - bs) + (q - bit)) by lia.
    rewrite testbit_be_value_at by lia.
    destruct (Z.leb_spec 0 (a - bs)); cbn [andb].
    + destruct (Z.ltb_spec (a - bs) (Z.of_nat (length x))); [|lia].
      f_equal. f_equal. lia.
    + rewrite byte_at_out by lia. apply Z.bits_0.
Qed.

Lemma shift_loop_once (Shift : list byte -> Z -> list byte) fuel x n :
  0 <= n <= INT_MAX ->
  shift_loop Shift (S fuel) x n = Shift x n.
Proof.
  intro Hn. cbn [shift_loop getint].
  unfold INT_MAX, INT_MIN, INT32_MAX in *.
  destruct (Z.ltb_spec 2147483647 n); [lia|].
  destruct (Z.ltb_spec n (-2147483648)); [lia|].
  destruct (Z.ltb_spec 0 (n - 2147483647)); [lia|]. reflexivity.
Qed.

Lemma be_value_range l : 0 <= be_value l < 2 ^ (8 * Z.of_nat (length l)).
Proof.
  unfold be_value. pose proof (le_value_range (rev l)) as H.
  rewrite length_rev in H. change 256 with (2 ^ 8) in H.
  rewrite <- Z.pow_mul_r in H by lia. exact H.
Qed.

Lemma be_value_zeros k : be_value (repeat x00 k) = 0.
Proof.
  unfold be_value.
  replace (rev (repeat x00 k)) with (repeat x00 k); [apply le_value_zeros|].
  induction k as [|k IH]; [reflexivity|].
  cbn [repeat rev]. rewrite <- IH. apply repeat_snoc.
Qed.

Lemma op_SHIFT_run (Shift : list byte -> Z -> list byte)
    (stack : list valtype) (x : valtype) n st :
  Z.of_nat (length (bigint_serialize n)) <= MAXIMUM_ITEM_SIZE ->
  8 * Z.of_nat (length x) <= INT_MAX ->
  op_SHIFT Shift (stack ++ [x; bigint_serialize n]) st
  = if n <? 0 then Ok (Error ScriptError.INVALID_NUMBER_RANGE)
    else Ok (Next (stack ++ [if 8 * Z.of_nat (length x) <=? n
                             then repeat x00 (length x)
                             else Shift x n]) st).
Proof.
  intros Henc Hx. unfold op_SHIFT. rewrite length_app. cbn [length].
  destruct (Nat.ltb_spec (length stack + 2) 2); [lia|].
  destruct (stacktop_at_pair stack x (bigint_serialize n)) as (H1 & H2).
  unfold valtype in *. rewrite H1, H2. cbn [bind].
  rewrite bigint_serialize_canonical in *.
  destruct (@of_bytes_sign_magnitude n MAXIMUM_ITEM_SIZE Henc eq_refl)
    as (_ & ->).
  cbn [bind CScriptNum_value].
  destruct (Z.ltb_spec n 0); [reflexivity|].
  change (stack ++ [x; sign_magnitude_le n])
    with (stack ++ [x] ++ [sign_magnitude_le n]).
  rewrite app_assoc, !removelast_last. unfold bitsPerByte.
  rewrite (Z.mul_comm (Z.of_nat (length x)) 8).
  destruct (Z.leb_spec (8 * Z.of_nat (length x)) n); [reflexivity|].
  rewrite shift_loop_once by lia. reflexivity.
Qed.

(** X22. [RShift] keeps the length of the vector and divides the number
    the vector spells, most significant byte first, by [2^n], rounding
    down: the bits shifted out at the low end are lost and zeros enter at
    the high end. *)
Theorem X22_RShift_divides x n :
  0 <= n <= INT_MAX -> 8 * Z.of_nat (length x) <= INT_MAX ->
  length (RShift x n) = length x
  /\ be_value (RShift x n) = be_value x / 2 ^ n.
Proof. intros Hn _. apply RShift_value. lia. Qed.

Lemma X22_RShift_divides_witness :
  length (RShift [xab; xcd] 12) = length [xab; xcd]
  /\ be_value (RShift [xab; xcd] 12) = be_value [xab; xcd] / 2 ^ 12.
Proof.
  apply (@X22_RShift_divides [xab; xcd] 12); try split; cbv; discriminate.
Defined.

(** X23. [LShift] keeps the length of the vector and multiplies the
    number the vector spells, most significant byte first, by [2^n],
    modulo [2^(8 * size)]: the bits shifted out at the high end are lost
    and zeros enter at the low end. *)
Theorem X23_LShift_multiplies x n :
  0 <= n <= INT_MAX -> 8 * Z.of_nat (length x) <= INT_MAX ->
  length (LShift x n) = length x
  /\ be_value (LShift x n)
     = (be_value x * 2 ^ n) mod 2 ^ (8 * Z.of_nat (length x)).
Proof. intros Hn _. apply LShift_value. lia. Qed.

Lemma X23_LShift_multiplies_witness :
  length (LShift [xab; xcd] 12) = length [xab; xcd]
  /\ be_value (LShift [xab; xcd] 12)
     = (be_value [xab; xcd] * 2 ^ 12)
         mod 2 ^ (8 * Z.of_nat (length [xab; xcd])).
Proof.
  apply (@X23_LShift_multiplies [xab; xcd] 12); try split; cbv; discriminate.
Defined.

(** X24. [OP_LSHIFT] and [OP_RSHIFT] fail with [INVALID_NUMBER_RANGE] on
    a negative count; on a count [n >= 0] they replace the two top
    elements by one of the length of the shifted element [x], whose
    bytes spell [x * 2^n] modulo [2^(8 * size)], respectively [x / 2^n]
    rounded down, also when [n] is at least the number of bits of
    [x]. *)
Theorem X24_shift_opcodes (stack : list valtype) (x : valtype) n st :
  Z.of_nat (length (bigint_serialize n)) <= MAXIMUM_ITEM_SIZE ->
  8 * Z.of_nat (length x) <= INT_MAX ->
  (n < 0 ->
   op_LSHIFT (stack ++ [x; bigint_serialize n]) st
     = Ok (Error ScriptError.INVALID_NUMBER_RANGE)
   /\ op_RSHIFT (stack ++ [x; bigint_serialize n]) st
      = Ok (Error ScriptError.INVALID_NUMBER_RANGE))
  /\ (0 <= n ->
      exists l r,
        op_LSHIFT (stack ++ [x; bigint_serialize n]) st
          = Ok (Next (stack ++ [l]) st)
        /\ op_RSHIFT (stack ++ [x; bigint_serialize n]) st
           = Ok (Next (stack ++ [r]) st)
        /\ length l = length x /\ length r = length x
        /\ be_value l
           = (be_value x * 2 ^ n) mod 2 ^ (8 * Z.of_nat (length x))
        /\ be_value r = be_value x / 2 ^ n).
Proof.
  intros Henc Hx. unfold op_LSHIFT, op_RSHIFT.
  rewrite !op_SHIFT_run by assumption. split; intro Hn.
  - destruct (Z.ltb_spec n 0); [split; reflexivity|lia].
  - destruct (Z.ltb_spec n 0); [lia|].
    do 2 eexists. split; [reflexivity|]. split; [reflexivity|].
    pose proof (be_value_range x) as Hr.
    destruct (Z.leb_spec (8 * Z.of_nat (length x)) n) as [Hbig|Hsmall].
    + rewrite repeat_length, be_value_zeros.
      assert (Hpow : 2 ^ (8 * Z.of_nat (length x)) <= 2 ^ n)
        by (apply Z.pow_le_mono_r; lia).
      repeat split.
      * replace n with ((n - 8 * Z.of_nat (length x))
                        + 8 * Z.of_nat (length x)) at 1 by lia.
        rewrite Z.pow_add_r, Z.mul_assoc by lia.
        now rewrite Z_mod_mult.
      * symmetry. apply Z.div_small. lia.
    + destruct (@LShift_value x n ltac:(lia)) as (? & ?).
      destruct (@RShift_value x n ltac:(lia)) as (? & ?). auto.
Qed.

Lemma X24_shift_opcodes_witness :
  exists l r,
    op_LSHIFT ([] ++ [[xab; xcd]; bigint_serialize 12]) sample_state
      = Ok (Next ([] ++ [l]) sample_state)
    /\ op_RSHIFT ([] ++ [[xab; xcd]; bigint_serialize 12]) sample_state
       = Ok (Next ([] ++ [r]) sample_state)
    /\ length l = length [xab; xcd] /\ length r = length [xab; xcd]
    /\ be_value l
       = (be_value [xab; xcd] * 2 ^ 12)
           mod 2 ^ (8 * Z.of_nat (length [xab; xcd]))
    /\ be_value r = be_value [xab; xcd] / 2 ^ 12.
Proof.
  exact (proj2 (@X24_shift_opcodes [] [xab; xcd] 12 sample_state
                  ltac:(vm_compute; discriminate)
                  ltac:(vm_compute; discriminate))
           ltac:(vm_compute; discriminate)).
Defined.

(* ------------------------------------------------------------------ *)
(** ** The small-integer opcodes *)

(** X25. Each of [OP_1NEGATE], [OP_1], ..., [OP_16] pushes one byte that
    decodes to the number the opcode names ([-1], [1], ..., [16]).
    [CheckMinimalPush] rejects a data push of that byte under every push
    opcode, and the script that [operator<<] builds for the byte as a
    vector fails in [EvalScript] with [MINIMALDATA], the stack
    untouched. *)
Theorem X25_small_integer_opcodes
    (exec_switch : Z -> bool -> Machine -> switch_exit)
    opcode (stack : list valtype) st :
  opcode = OP_1NEGATE \/ OP_1 <= opcode <= OP_16 ->
  exists v,
    op_small_integer opcode stack st = Ok (Next (stack ++ [[v]]) st)
    /\ CScriptNum_of_bytes [v] MAXIMUM_ITEM_SIZE
       = Ok (BigNum (opcode - 80))
    /\ (forall pushcode, CheckMinimalPush [v] pushcode = false)
    /\ EvalScript_stateContext exec_switch stack
         (operator_shl_vector [] [v]) st
       = Returned false (mkMachine stack [] ConditionStack.init st)
           ScriptError.MINIMALDATA 0.
Proof.
  unfold OP_1NEGATE, OP_1, OP_16. intro H.
  assert (Hc : opcode = 79 \/ opcode = 81 \/ opcode = 82 \/ opcode = 83
               \/ opcode = 84 \/ opcode = 85 \/ opcode = 86 \/ opcode = 87
               \/ opcode = 88 \/ opcode = 89 \/ opcode = 90 \/ opcode = 91
               \/ opcode = 92 \/ opcode = 93 \/ opcode = 94 \/ opcode = 95
               \/ opcode = 96) by lia.
  clear H. unfold op_small_integer.
  repeat (destruct Hc as [->|Hc]); try subst opcode;
    (eexists; split; [vm_compute; reflexivity|];
     split; [vm_compute; reflexivity|];
     split; [intro; reflexivity|vm_compute; reflexivity]).
Qed.

Lemma X25_small_integer_opcodes_witness :
  exists v,
    op_small_integer OP_16 [] sample_state
      = Ok (Next ([] ++ [[v]]) sample_state)
    /\ CScriptNum_of_bytes [v] MAXIMUM_ITEM_SIZE = Ok (BigNum (OP_16 - 80))
    /\ (forall pushcode, CheckMinimalPush [v] pushcode = false)
    /\ EvalScript_stateContext (fun _ _ m => Break m) []
         (operator_shl_vector [] [v]) sample_state
       = Returned false (mkMachine [] [] ConditionStack.init sample_state)
           ScriptError.MINIMALDATA 0.
Proof.
  apply (@X25_small_integer_opcodes (fun _ _ m => Break m) OP_16 []
           sample_state).
  right. split; cbv; discriminate.
Defined.

(* ------------------------------------------------------------------ *)
(** ** The bitwise opcodes *)

Lemma byte_at_assign_at r i v p :
  (i < length r)%nat ->
  byte_at (assign_at r i v) p = if (p =? i)%nat then b2z v else byte_at r p.
Proof.
  intro Hi. unfold byte_at. rewrite nth_assign_at by assumption.
  now destruct (p =? i)%nat.
Qed.

Lemma bitwise_loop_prefix f (x y : list byte) j :
  (j <= length x)%nat ->
  let r := fold_left
             (fun vch1 i =>
                assign_at vch1 i (z2b (f (b2z (nth i vch1 x00))
                                         (b2z (nth i y x00)))))
             (seq 0 j) x in
  length r = length x
  /\ forall p,
       byte_at r p
       = if (p <? j)%nat then f (byte_at x p) (byte_at y p) mod 256
         else byte_at x p.
Proof.
  induction j as [|j IH]; intro Hj; cbv zeta.
  - cbn [seq fold_left]. split; [reflexivity|]. intro p.
    now destruct (Nat.ltb_spec p 0); [lia|].
  - rewrite seq_S, fold_left_app. cbn [fold_left Nat.add].
    destruct (IH ltac:(lia)) as (Hl & Hb).
    split; [now rewrite length_assign_at|]. intro p.
    rewrite byte_at_assign_at by lia. rewrite b2z_z2b.
    fold (byte_at (fold_left
                     (fun vch1 i =>
                        assign_at vch1 i
                          (z2b (f (b2z (nth i vch1 x00))
                                  (b2z (nth i y x00)))))
                     (seq 0 j) x) j).
    fold (byte_at y j). rewrite !Hb.
    destruct (Nat.ltb_spec j j); [lia|].
    destruct (Nat.eqb_spec p j) as [Heq|Hne];
      destruct (Nat.ltb_spec p (S j)); destruct (Nat.ltb_spec p j);
      try lia; try subst p; reflexivity.
Qed.

Lemma bitwise_loop_spec f (x y : list byte) :
  length (bitwise_loop f x y) = length x
  /\ forall p, (p < length x)%nat ->
       byte_at (bitwise_loop f x y) p
       = f (byte_at x p) (byte_at y p) mod 256.
Proof.
  destruct (@bitwise_loop_prefix f x y (length x) (le_n _)) as (Hl & Hb).
  split; [exact Hl|]. intros p Hp. unfold bitwise_loop. rewrite Hb.
  now destruct (Nat.ltb_spec p (length x)); [|lia].
Qed.

(** A loop with an operation that works bit by bit, and gives [0] on
    zeros, is that operation on the numbers the vectors spell. *)
Lemma bitwise_loop_value f (g : bool -> bool -> bool) (x y : list byte) :
  (forall a b q, 0 <= q ->
     Z.testbit (f a b) q = g (Z.testbit a q) (Z.testbit b q)) ->
  g false false = false ->
  length x = length y ->
  be_value (bitwise_loop f x y) = f (be_value x) (be_value y).
Proof.
  intros Hf Hg Hxy.
  destruct (bitwise_loop_spec f x y) as (Hl & Hb).
  apply Z.bits_inj'. intros P HP.
  rewrite Hf by assumption. rewrite !testbit_be_value by assumption.
  rewrite Hl, <- Hxy.
  assert (0 <= P / 8) by (apply Z.div_pos; lia).
  pose proof (Z.mod_pos_bound P 8 ltac:(lia)).
  destruct (Z.ltb_spec (P / 8) (Z.of_nat (length x))); [|now rewrite Hg].
  rewrite Hb by lia. change 256 with (2 ^ 8).
  rewrite Z.mod_pow2_bits_low by lia. now rewrite Hf by lia.
Qed.

Lemma assign_at_middle {A} (l r : list A) (a v : A) :
  assign_at (l ++ a :: r) (length l) v = l ++ v :: r.
Proof.
  induction l as [|b l IH]; cbn [app length assign_at]; [reflexivity|].
  now rewrite IH.
Qed.

Lemma set_stacktop_at_pair (stack : list valtype) (a b v : valtype) :
  set_stacktop_at (stack ++ [a; b]) 2 v = stack ++ [v; b].
Proof.
  unfold set_stacktop_at. rewrite length_app. cbn [length].
  replace (length stack + 2 - 2)%nat with (length stack) by lia.
  apply assign_at_middle.
Qed.

Lemma op_bitwise_pair opcode (stack : list valtype) (x y : valtype) st :
  op_bitwise opcode (stack ++ [x; y]) st
  = if (length x =? length y)%nat
    then Ok (Next (stack ++ [if opcode =? OP_AND
                             then bitwise_loop Z.land x y
                             else if opcode =? OP_OR
                             then bitwise_loop Z.lor x y
                             else if opcode =? OP_XOR
                             then bitwise_loop Z.lxor x y
                             else x]) st)
    else Ok (Error ScriptError.INVALID_OPERAND_SIZE).
Proof.
  unfold op_bitwise. rewrite length_app. cbn [length].
  destruct (Nat.ltb_spec (length stack + 2) 2); [lia|].
  destruct (stacktop_at_pair stack x y) as (-> & ->). cbn [bind].
  destruct (length x =? length y)%nat; cbn [negb]; [|reflexivity].
  rewrite set_stacktop_at_pair. unfold popstack.
  change (stack ++ [?v; y]) with (stack ++ [v] ++ [y]).
  now rewrite app_assoc, removelast_last.
Qed.

(** X26. [OP_AND], [OP_OR] and [OP_XOR] fail with [INVALID_OPERAND_SIZE]
    on two elements of different lengths; on two of the same length they
    leave one element of that length, which spells, as a number, the
    bitwise AND, OR and XOR of the numbers the two spell. *)
Theorem X26_bitwise_opcodes (stack : list valtype) (x y : valtype) st :
  (length x <> length y ->
   op_bitwise OP_AND (stack ++ [x; y]) st
     = Ok (Error ScriptError.INVALID_OPERAND_SIZE)
   /\ op_bitwise OP_OR (stack ++ [x; y]) st
      = Ok (Error ScriptError.INVALID_OPERAND_SIZE)
   /\ op_bitwise OP_XOR (stack ++ [x; y]) st
      = Ok (Error ScriptError.INVALID_OPERAND_SIZE))
  /\ (length x = length y ->
      exists r_and r_or r_xor,
        op_bitwise OP_AND (stack ++ [x; y]) st
          = Ok (Next (stack ++ [r_and]) st)
        /\ op_bitwise OP_OR (stack ++ [x; y]) st
           = Ok (Next (stack ++ [r_or]) st)
        /\ op_bitwise OP_XOR (stack ++ [x; y]) st
           = Ok (Next (stack ++ [r_xor]) st)
        /\ length r_and = length x /\ length r_or = length x
        /\ length r_xor = length x
        /\ be_value r_and = Z.land (be_value x) (be_value y)
        /\ be_value r_or = Z.lor (be_value x) (be_value y)
        /\ be_value r_xor = Z.lxor (be_value x) (be_value y)).
Proof.
  rewrite !op_bitwise_pair. split; intro H.
  - destruct (Nat.eqb_spec (length x) (length y)); [contradiction|].
    repeat split.
  - destruct (Nat.eqb_spec (length x) (length y)); [|contradiction].
    exists (bitwise_loop Z.land x y), (bitwise_loop Z.lor x y),
      (bitwise_loop Z.lxor x y).
    repeat split; try apply bitwise_loop_spec.
    + apply bitwise_loop_value with (g := andb); auto.
      intros; apply Z.land_spec.
    + apply bitwise_loop_value with (g := orb); auto.
      intros; apply Z.lor_spec.
    + apply bitwise_loop_value with (g := xorb); auto.
      intros; apply Z.lxor_spec.
Qed.

Lemma X26_bitwise_opcodes_witness :
  exists r_and r_or r_xor,
    op_bitwise OP_AND ([] ++ [[x0f; xf0]; [x3c; x3c]]) sample_state
      = Ok (Next ([] ++ [r_and]) sample_state)
    /\ op_bitwise OP_OR ([] ++ [[x0f; xf0]; [x3c; x3c]]) sample_state
       = Ok (Next ([] ++ [r_or]) sample_state)
    /\ op_bitwise OP_XOR ([] ++ [[x0f; xf0]; [x3c; x3c]]) sample_state
       = Ok (Next ([] ++ [r_xor]) sample_state)
    /\ length r_and = length [x0f; xf0] /\ length r_or = length [x0f; xf0]
    /\ length r_xor = length [x0f; xf0]
    /\ be_value r_and = Z.land (be_value [x0f; xf0]) (be_value [x3c; x3c])
    /\ be_value r_or = Z.lor (be_value [x0f; xf0]) (be_value [x3c; x3c])
    /\ be_value r_xor = Z.lxor (be_value [x0f; xf0]) (be_value [x3c; x3c]).
Proof.
  exact (proj2 (@X26_bitwise_opcodes [] [x0f; xf0] [x3c; x3c] sample_state)
           eq_refl).
Defined.

Lemma op_INVERT_top (stack : list valtype) (x : valtype) st :
  op_INVERT (stack ++ [x]) st
  = Ok (Next (stack ++ [bitwise_loop (fun a _ => Z.lnot a) x x]) st).
Proof.
  unfold op_INVERT. rewrite length_app. cbn [length].
  destruct (Nat.ltb_spec (length stack + 1) 1); [lia|].
  rewrite stacktop_at_last. cbn [bind].
  unfold set_stacktop_at. rewrite length_app. cbn [length].
  replace (length stack + 1 - 1)%nat with (length stack) by lia.
  now rewrite assign_at_middle.
Qed.

Lemma invert_byte a : 0 <= a < 256 -> Z.lnot a mod 256 = 255 - a.
Proof.
  intro Ha. unfold Z.lnot. symmetry.
  apply Z.mod_unique_pos with (q := -1); lia.
Qed.

(** X27. [OP_INVERT] replaces the top element by one of the same length
    that spells the complement of its number in [8 * size] bits, and a
    second [OP_INVERT] gives the element back. *)
Theorem X27_INVERT_complement (stack : list valtype) (x : valtype) st :
  exists r,
    op_INVERT (stack ++ [x]) st = Ok (Next (stack ++ [r]) st)
    /\ length r = length x
    /\ be_value r = 2 ^ (8 * Z.of_nat (length x)) - 1 - be_value x
    /\ op_INVERT (stack ++ [r]) st = Ok (Next (stack ++ [x]) st).
Proof.
  set (inv := fun (a _ : Z) => Z.lnot a).
  exists (bitwise_loop inv x x). rewrite !op_INVERT_top. fold inv.
  destruct (bitwise_loop_spec inv x x) as (Hl & Hb).
  destruct (bitwise_loop_spec inv (bitwise_loop inv x x)
              (bitwise_loop inv x x)) as (Hl2 & Hb2).
  split; [reflexivity|]. split; [exact Hl|]. split.
  - pose proof (be_value_range x) as Hr.
    assert (Hpow : 0 < 2 ^ (8 * Z.of_nat (length x)))
      by (apply Z.pow_pos_nonneg; lia).
    apply Z.bits_inj'. intros P HP.
    replace (2 ^ (8 * Z.of_nat (length x)) - 1 - be_value x)
      with (Z.lnot (be_value x) mod 2 ^ (8 * Z.of_nat (length x))).
    2:{ unfold Z.lnot. symmetry.
        apply Z.mod_unique_pos with (q := -1); lia. }
    rewrite testbit_be_value, Hl by assumption.
    assert (0 <= P / 8) by (apply Z.div_pos; lia).
    pose proof (Z.mod_pos_bound P 8 ltac:(lia)).
    pose proof (Z.div_mod P 8 ltac:(lia)).
    destruct (Z.ltb_spec (P / 8) (Z.of_nat (length x))).
    + rewrite Z.mod_pow2_bits_low by lia.
      rewrite Z.lnot_spec, testbit_be_value by assumption.
      destruct (Z.ltb_spec (P / 8) (Z.of_nat (length x))); [|lia].
      rewrite Hb by lia. unfold inv. change 256 with (2 ^ 8).
      rewrite Z.mod_pow2_bits_low by lia. apply Z.lnot_spec. lia.
    + symmetry. apply Z.mod_pow2_bits_high. lia.
  - do 3 f_equal. f_equal.
    apply nth_ext with (d := x00) (d' := x00); [now rewrite Hl2, Hl|].
    intros p Hp. apply b2z_inj.
    change (byte_at (bitwise_loop inv (bitwise_loop inv x x)
                       (bitwise_loop inv x x)) p = byte_at x p).
    rewrite Hl2, Hl in Hp. rewrite Hb2 by lia. rewrite Hb by assumption.
    unfold inv.
    pose proof (byte_at_range x p).
    rewrite (invert_byte (a := byte_at x p)) by assumption.
    rewrite invert_byte by lia. lia.
Qed.

(* ------------------------------------------------------------------ *)
(** ** The numeric opcodes *)

Lemma of_bytes_serialize n :
  Z.of_nat (length (bigint_serialize n)) <= MAXIMUM_ITEM_SIZE ->
  CScriptNum_of_bytes (bigint_serialize n) MAXIMUM_ITEM_SIZE
  = Ok (BigNum n).
Proof.
  intro H. rewrite bigint_serialize_canonical in *.
  now apply of_bytes_sign_magnitude.
Qed.

Lemma getvch_of_bool b :
  getvch (CScriptNum_of_bool b) = if b then vchTrue else vchFalse.
Proof. destruct b; vm_compute; reflexivity. Qed.

Lemma op_unary_arith_run opcode (stack : list valtype) a st :
  Z.of_nat (length (bigint_serialize a)) <= MAXIMUM_ITEM_SIZE ->
  op_unary_arith opcode (stack ++ [bigint_serialize a]) st
  = Ok (Next (stack ++ [getvch (unary_arith opcode a)]) st).
Proof.
  intro Ha. unfold op_unary_arith. rewrite length_app. cbn [length].
  destruct (Nat.ltb_spec (length stack + 1) 1); [lia|].
  rewrite stacktop_at_last. cbn [bind].
  rewrite of_bytes_serialize by assumption. cbn [bind CScriptNum_value].
  unfold popstack. now rewrite removelast_last.
Qed.

Lemma op_binary_arith_run opcode (stack : list valtype) a b st :
  Z.of_nat (length (bigint_serialize a)) <= MAXIMUM_ITEM_SIZE ->
  Z.of_nat (length (bigint_serialize b)) <= MAXIMUM_ITEM_SIZE ->
  op_binary_arith opcode
    (stack ++ [bigint_serialize a; bigint_serialize b]) st
  = match binary_arith opcode a b with
    | inl serror => Ok (Error serror)
    | inr bn =>
        if opcode =? OP_NUMEQUALVERIFY then
          if CastToBool (getvch bn) then Ok (Next stack st)
          else Ok (Error ScriptError.NUMEQUALVERIFY)
        else Ok (Next (stack ++ [getvch bn]) st)
    end.
Proof.
  intros Ha Hb. unfold op_binary_arith. rewrite length_app. cbn [length].
  destruct (Nat.ltb_spec (length stack + 2) 2); [lia|].
  destruct (stacktop_at_pair stack (bigint_serialize a)
              (bigint_serialize b)) as (H1 & H2).
  unfold valtype in *. rewrite H1. cbn [bind].
  rewrite of_bytes_serialize by assumption. cbn [bind]. rewrite H2.
  cbn [bind]. rewrite of_bytes_serialize by assumption.
  cbn [bind CScriptNum_value].
  destruct (binary_arith opcode a b) as [e|bn]; [reflexivity|].
  destruct (popstack_pair stack (bigint_serialize a) (bigint_serialize b))
    as (_ & Hpop).
  unfold valtype in *. rewrite Hpop.
  destruct (opcode =? OP_NUMEQUALVERIFY); [|reflexivity].
  pose proof (@stacktop_at_last stack (getvch bn)) as Htop.
  unfold valtype in *. rewrite Htop. cbn [bind].
  unfold popstack. now rewrite removelast_last.
Qed.

(** X28. The numeric opcodes work on the numbers their operands encode,
    without any bound but the size of the operands: [OP_ADD], [OP_SUB]
    and [OP_MUL] leave the encoding of the exact sum, difference and
    product, [OP_MIN] and [OP_MAX] that of the smaller and of the larger
    number, [OP_1ADD], [OP_1SUB], [OP_NEGATE] and [OP_ABS] that of
    [a + 1], [a - 1], [-a] and [|a|]; [OP_LESSTHAN] and [OP_NUMEQUAL]
    leave [vchTrue] or [vchFalse], and [OP_NUMEQUALVERIFY] leaves nothing
    when the numbers are equal and fails with [NUMEQUALVERIFY] when they
    are not. *)
Theorem X28_numeric_opcodes (stack : list valtype) a b st :
  Z.of_nat (length (bigint_serialize a)) <= MAXIMUM_ITEM_SIZE ->
  Z.of_nat (length (bigint_serialize b)) <= MAXIMUM_ITEM_SIZE ->
  let operands := stack ++ [bigint_serialize a; bigint_serialize b] in
  let leaves (v : valtype) := Ok (Next (stack ++ [v]) st) in
  op_binary_arith OP_ADD operands st = leaves (bigint_serialize (a + b))
  /\ op_binary_arith OP_SUB operands st = leaves (bigint_serialize (a - b))
  /\ op_binary_arith OP_MUL operands st = leaves (bigint_serialize (a * b))
  /\ op_binary_arith OP_MIN operands st
     = leaves (bigint_serialize (Z.min a b))
  /\ op_binary_arith OP_MAX operands st
     = leaves (bigint_serialize (Z.max a b))
  /\ op_binary_arith OP_LESSTHAN operands st
     = leaves (if a <? b then vchTrue else vchFalse)
  /\ op_binary_arith OP_NUMEQUAL operands st
     = leaves (if a =? b then vchTrue else vchFalse)
  /\ op_binary_arith OP_NUMEQUALVERIFY operands st
     = (if a =? b then Ok (Next stack st)
        else Ok (Error ScriptError.NUMEQUALVERIFY))
  /\ op_unary_arith OP_1ADD (stack ++ [bigint_serialize a]) st
     = leaves (bigint_serialize (a + 1))
  /\ op_unary_arith OP_1SUB (stack ++ [bigint_serialize a]) st
     = leaves (bigint_serialize (a - 1))
  /\ op_unary_arith OP_NEGATE (stack ++ [bigint_serialize a]) st
     = leaves (bigint_serialize (- a))
  /\ op_unary_arith OP_ABS (stack ++ [bigint_serialize a]) st
     = leaves (bigint_serialize (Z.abs a)).
Proof.
  intros Ha Hb operands leaves. subst operands leaves. cbv beta.
  rewrite !op_binary_arith_run, !op_unary_arith_run by assumption.
  repeat split; try reflexivity.
  - change (binary_arith OP_MIN a b)
      with (@inr ScriptError.t _ (BigNum (if a <? b then a else b))).
    change (OP_MIN =? OP_NUMEQUALVERIFY) with false. cbn [getvch].
    destruct (Z.ltb_spec a b);
      [now rewrite Z.min_l by lia | now rewrite Z.min_r by lia].
  - change (binary_arith OP_MAX a b)
      with (@inr ScriptError.t _ (BigNum (if b <? a then a else b))).
    change (OP_MAX =? OP_NUMEQUALVERIFY) with false. cbn [getvch].
    destruct (Z.ltb_spec b a);
      [now rewrite Z.max_l by lia | now rewrite Z.max_r by lia].
  - change (binary_arith OP_LESSTHAN a b)
      with (@inr ScriptError.t _ (CScriptNum_of_bool (a <? b))).
    change (OP_LESSTHAN =? OP_NUMEQUALVERIFY) with false.
    cbv beta iota. now rewrite getvch_of_bool.
  - change (binary_arith OP_NUMEQUAL a b)
      with (@inr ScriptError.t _ (CScriptNum_of_bool (a =? b))).
    change (OP_NUMEQUAL =? OP_NUMEQUALVERIFY) with false.
    cbv beta iota. now rewrite getvch_of_bool.
  - change (binary_arith OP_NUMEQUALVERIFY a b)
      with (@inr ScriptError.t _ (CScriptNum_of_bool (a =? b))).
    change (OP_NUMEQUALVERIFY =? OP_NUMEQUALVERIFY) with true.
    cbv beta iota. rewrite getvch_of_bool. now destruct (a =? b).
  - change (unary_arith OP_ABS a)
      with (BigNum (if a <? 0 then - a else a)). cbn [getvch].
    destruct (Z.ltb_spec a 0);
      [now rewrite Z.abs_neq by lia | now rewrite Z.abs_eq by lia].
Qed.

Lemma X28_numeric_opcodes_witness :
  op_binary_arith OP_ADD
    ([] ++ [bigint_serialize 200; bigint_serialize (-456)]) sample_state
  = Ok (Next ([] ++ [bigint_serialize (200 + -456)]) sample_state).
Proof.
  exact (proj1 (@X28_numeric_opcodes [] 200 (-456) sample_state
                  ltac:(vm_compute; discriminate)
                  ltac:(vm_compute; discriminate))).
Defined.

(** X29. [OP_DIV] and [OP_MOD] fail with [DIV_BY_ZERO] and [MOD_BY_ZERO]
    on a zero divisor.  Otherwise they leave the encodings of a quotient
    [q] and a remainder [r] with [a = b * q + r], [|r| < |b|] and [r]
    zero or of the sign of the dividend: the quotient is rounded towards
    zero. *)
Theorem X29_division_opcodes (stack : list valtype) a b st :
  Z.of_nat (length (bigint_serialize a)) <= MAXIMUM_ITEM_SIZE ->
  Z.of_nat (length (bigint_serialize b)) <= MAXIMUM_ITEM_SIZE ->
  let operands := stack ++ [bigint_serialize a; bigint_serialize b] in
  (b = 0 ->
   op_binary_arith OP_DIV operands st = Ok (Error ScriptError.DIV_BY_ZERO)
   /\ op_binary_arith OP_MOD operands st
      = Ok (Error ScriptError.MOD_BY_ZERO))
  /\ (b <> 0 ->
      exists q r,
        op_binary_arith OP_DIV operands st
          = Ok (Next (stack ++ [bigint_serialize q]) st)
        /\ op_binary_arith OP_MOD operands st
           = Ok (Next (stack ++ [bigint_serialize r]) st)
        /\ a = b * q + r /\ Z.abs r < Z.abs b /\ 0 <= r * a).
Proof.
  intros Ha Hb operands. subst operands.
  rewrite !op_binary_arith_run by assumption.
  change (binary_arith OP_DIV a b)
    with (if b =? 0 then @inl _ CScriptNum ScriptError.DIV_BY_ZERO
          else inr (BigNum (Z.quot a b))).
  change (binary_arith OP_MOD a b)
    with (if b =? 0 then @inl _ CScriptNum ScriptError.MOD_BY_ZERO
          else inr (BigNum (Z.rem a b))).
  split; intro H0.
  - destruct (Z.eqb_spec b 0); [split; reflexivity|contradiction].
  - destruct (Z.eqb_spec b 0); [contradiction|].
    exists (Z.quot a b), (Z.rem a b).
    split; [reflexivity|]. split; [reflexivity|].
    split; [apply Z.quot_rem'|].
    split; [apply Z.rem_bound_abs; assumption|].
    apply Z.rem_sign_mul. assumption.
Qed.

Lemma X29_division_opcodes_witness :
  exists q r,
    op_binary_arith OP_DIV
      ([] ++ [bigint_serialize (-7); bigint_serialize 2]) sample_state
      = Ok (Next ([] ++ [bigint_serialize q]) sample_state)
    /\ op_binary_arith OP_MOD
         ([] ++ [bigint_serialize (-7); bigint_serialize 2]) sample_state
       = Ok (Next ([] ++ [bigint_serialize r]) sample_state)
    /\ -7 = 2 * q + r /\ Z.abs r < Z.abs 2 /\ 0 <= r * -7.
Proof.
  exact (proj2 (@X29_division_opcodes [] (-7) 2 sample_state
                  ltac:(vm_compute; discriminate)
                  ltac:(vm_compute; discriminate))
           ltac:(discriminate)).
Defined.

(* ------------------------------------------------------------------ *)
(** ** The loop of [EvalScript] ends *)

Section LoopEnds.
Variable exec_switch : Z -> bool -> Machine -> switch_exit.

Lemma EvalScript_loop_enough fuel1 :
  forall fuel2 script pc nOpCount opCounter op_num m,
    (length script - pc <= fuel1)%nat ->
    (length script - pc <= fuel2)%nat ->
    EvalScript_loop exec_switch fuel1 script pc nOpCount opCounter op_num m
    = EvalScript_loop exec_switch fuel2 script pc nOpCount opCounter
        op_num m.
Proof.
  induction fuel1 as [|fuel1 IH];
    intros [|fuel2] script pc nOpCount opCounter op_num m H1 H2;
    cbn [EvalScript_loop];
    destruct (Nat.leb_spec (length script) pc) as [Hend|Hin];
    try reflexivity; try lia.
  destruct (GetOp script pc) as [[[pc' opcode] vch]|] eqn:Hop;
    [|reflexivity].
  destruct (@GetScriptOp_progress script pc pc' opcode vch Hop)
    as (Hpc & _).
  destruct (_ <? Z.of_nat (length vch)); [reflexivity|].
  destruct (_ && _); [reflexivity|].
  destruct (IsOpcodeDisabled opcode); [reflexivity|].
  match goal with
  | |- match ?after with _ => _ end = _ => destruct after
  end; try reflexivity.
  destruct (over_size_limits _); [reflexivity|].
  apply IH; lia.
Qed.
End LoopEnds.

(** X30. The loop of [EvalScript] ends whatever the opcodes do: every
    iteration that does not return moves [pc] forward by at least the
    opcode byte, so the loop takes at most as many iterations as the
    script has bytes after [pc], and allowing more changes nothing. *)
Theorem X30_EvalScript_loop_ends
    (exec_switch : Z -> bool -> Machine -> switch_exit)
    (script : CScript) pc nOpCount opCounter op_num m (more : nat) :
  EvalScript_loop exec_switch (length script - pc + more) script pc
    nOpCount opCounter op_num m
  = EvalScript_loop exec_switch (length script - pc) script pc
      nOpCount opCounter op_num m.
Proof. apply EvalScript_loop_enough; lia. Qed.
